(** * llmmarkdown: the streaming scheduler and the markdown auto-repair

    A shallow embedding of [src/App.tsx]:
    - [autoFixMarkdown], the repair applied to the revealed prefix, and the
      part of the JavaScript string and regular-expression library it calls
      ([replace], [match], [test], [split], [trimEnd]);
    - [useSmartStream], the hook that owns the cursor and the display buffer,
      as a transition system over the values the hook keeps between renders;
    - [remarkPluginDirectives], the tree walk that marks directive nodes, and
      the renderers [code], [div] and [span] of [App] with what [App] derives
      from the hook on each render.

    A JavaScript string is a sequence of UTF-16 code units; none of the
    regular expressions of the source carries the [u] flag, so they work on
    code units too. *)

From Stdlib Require Import String Ascii List NArith ZArith QArith Qround Lia Bool.
From Stdlib Require SpecFloat.
Import ListNotations.
Close Scope Q_scope.

(** ** Strings *)

Module JsString.

Definition cu := N.
Definition str := list cu.

(** An ASCII literal as a JavaScript string. *)
Definition js (s : string) : str :=
  map N_of_ascii (list_ascii_of_string s).

Definition LF : cu := 10%N.
Definition CR : cu := 13%N.
Definition LS : cu := 8232%N.   (* U+2028 *)
Definition PS : cu := 8233%N.   (* U+2029 *)

Definition BANG : cu := 33%N.      (* ! *)
Definition DOLLAR : cu := 36%N.    (* $ *)
Definition LPAREN : cu := 40%N.    (* ( *)
Definition RPAREN : cu := 41%N.    (* ) *)
Definition STAR : cu := 42%N.      (* * *)
Definition LBRACK : cu := 91%N.    (* [ *)
Definition RBRACK : cu := 93%N.    (* ] *)
Definition BACKTICK : cu := 96%N.  (* ` *)

(** ECMAScript LineTerminator. *)
Definition is_line_terminator (c : cu) : bool :=
  (c =? LF)%N || (c =? CR)%N || (c =? LS)%N || (c =? PS)%N.

(** ECMAScript WhiteSpace or LineTerminator: what [\s] matches and what
    [trimEnd] strips. *)
Definition is_space (c : cu) : bool :=
  (c =? 9)%N || (c =? 11)%N || (c =? 12)%N || (c =? 32)%N || (c =? 160)%N
  || (c =? 5760)%N                          (* U+1680 *)
  || ((8192 <=? c)%N && (c <=? 8202)%N)     (* U+2000 .. U+200A *)
  || (c =? 8239)%N || (c =? 8287)%N         (* U+202F, U+205F *)
  || (c =? 12288)%N || (c =? 65279)%N       (* U+3000, U+FEFF *)
  || is_line_terminator c.

(** [s.trimEnd()] *)
Fixpoint trimEnd (s : str) : str :=
  match s with
  | [] => []
  | c :: s' =>
      match trimEnd s' with
      | [] => if is_space c then [] else [c]
      | t => c :: t
      end
  end.

(** [s.split(sep)] for a separator of one code unit; the result is never
    empty. *)
Fixpoint split (sep : cu) (s : str) : list str :=
  match s with
  | [] => [[]]
  | c :: s' =>
      if (c =? sep)%N then [] :: split sep s'
      else match split sep s' with
           | l :: ls => (c :: l) :: ls
           | [] => [[c]]
           end
  end.

(** [s.slice(b, e)] with the relative indices of ECMAScript: a negative index
    counts from the end, and both ends are clamped into [0, length]. *)
Definition clamp_index (len i : Z) : Z :=
  if (i <? 0)%Z then Z.max (len + i) 0 else Z.min i len.

Definition slice (s : str) (b e : Z) : str :=
  let len := Z.of_nat (length s) in
  let from := clamp_index len b in
  let to := clamp_index len e in
  firstn (Z.to_nat (to - from)) (skipn (Z.to_nat from) s).

End JsString.
Import JsString.

(** ** Regular expressions

    The fragment of ECMAScript patterns the source uses, with the
    backtracking semantics of the language: alternatives are tried left to
    right, a greedy star takes as much as it can and gives back, a lazy star
    takes as little as it can and extends.  Every quantified atom of the
    source is a single character class, so [Star] takes a class. *)

Module Regex.

Inductive greed := Greedy | Lazy.

Inductive regex :=
| Eps
| Chr (c : cu)
| Cls (p : cu -> bool)
| Cat (r1 r2 : regex)
| Alt (r1 r2 : regex)
| Star (g : greed) (p : cu -> bool)
| Grp (r : regex)
| Eos.

Fixpoint lit (s : str) : regex :=
  match s with
  | [] => Eps
  | [c] => Chr c
  | c :: s' => Cat (Chr c) (lit s')
  end.

(** The result of a successful match: the input left after it and the
    captures, in the order in which their groups close (no pattern of the
    source nests groups). *)
Definition result := (str * list str)%type.

Section Star.
Context {A : Type} (p : cu -> bool) (k : str -> option A).

Fixpoint star_greedy (s : str) : option A :=
  match s with
  | x :: s' =>
      if p x then
        match star_greedy s' with
        | Some r => Some r
        | None => k s
        end
      else k s
  | [] => k s
  end.

Fixpoint star_lazy (s : str) : option A :=
  match k s with
  | Some r => Some r
  | None =>
      match s with
      | x :: s' => if p x then star_lazy s' else None
      | [] => None
      end
  end.
End Star.

(** [exec r s caps k]: match [r] at the head of [s], then continue with [k]
    on what is left; [None] when every alternative fails. *)
Fixpoint exec (r : regex) (s : str) (caps : list str)
    (k : str -> list str -> option result) : option result :=
  match r with
  | Eps => k s caps
  | Chr c =>
      match s with
      | x :: s' => if (x =? c)%N then k s' caps else None
      | [] => None
      end
  | Cls p =>
      match s with
      | x :: s' => if p x then k s' caps else None
      | [] => None
      end
  | Cat r1 r2 => exec r1 s caps (fun s' caps' => exec r2 s' caps' k)
  | Alt r1 r2 =>
      match exec r1 s caps k with
      | Some res => Some res
      | None => exec r2 s caps k
      end
  | Star Greedy p => star_greedy p (fun s' => k s' caps) s
  | Star Lazy p => star_lazy p (fun s' => k s' caps) s
  | Grp r1 =>
      exec r1 s caps
        (fun s' caps' => k s' (caps' ++ [firstn (length s - length s') s]))
  | Eos =>
      match s with
      | [] => k [] caps
      | _ :: _ => None
      end
  end.

(** A match anchored at the head of [s]: its length and its captures. *)
Definition match_here (r : regex) (s : str) : option (nat * list str) :=
  match exec r s [] (fun s' caps => Some (s', caps)) with
  | Some (s', caps) => Some (length s - length s', caps)
  | None => None
  end.

(** [r.test(s)] for a pattern without the [g] flag: the first start index,
    from 0 to the length of [s], at which the pattern matches. *)
Fixpoint test (r : regex) (s : str) : bool :=
  match match_here r s with
  | Some _ => true
  | None =>
      match s with
      | [] => false
      | _ :: s' => test r s'
      end
  end.

(** The matches of a pattern with the [g] flag, left to right and not
    overlapping.  [skip] is the number of code units of the previous match
    that are still ahead.  After an empty match the search resumes one code
    unit further, as [lastIndex] is advanced. *)
Fixpoint matches_from (r : regex) (skip : nat) (s : str) : list str :=
  match s with
  | [] =>
      match skip, match_here r [] with
      | O, Some _ => [[]]
      | _, _ => []
      end
  | _ :: s' =>
      match skip with
      | S n => matches_from r n s'
      | O =>
          match match_here r s with
          | Some (len, _) => firstn len s :: matches_from r (len - 1) s'
          | None => matches_from r 0 s'
          end
      end
  end.

(** [s.match(r)] for a global pattern: [null] when nothing matches. *)
Definition match_g (r : regex) (s : str) : option (list str) :=
  match matches_from r 0 s with
  | [] => None
  | l => Some l
  end.

(** [x || []] *)
Definition or_empty (x : option (list str)) : list str :=
  match x with
  | Some l => l
  | None => []
  end.

(** A replacement pattern: literal text and [$n] references. *)
Inductive piece := Text (s : str) | Ref (n : nat).

Definition expand (tmpl : list piece) (caps : list str) : str :=
  flat_map (fun p => match p with
                     | Text s => s
                     | Ref n => nth (n - 1) caps []
                     end) tmpl.

(** [s.replace(r, tmpl)] for a global pattern. *)
Fixpoint replace_from (r : regex) (tmpl : list piece) (skip : nat) (s : str)
    : str :=
  match s with
  | [] =>
      match skip, match_here r [] with
      | O, Some (_, caps) => expand tmpl caps
      | _, _ => []
      end
  | c :: s' =>
      match skip with
      | S n => replace_from r tmpl n s'
      | O =>
          match match_here r s with
          | Some (O, caps) => expand tmpl caps ++ c :: replace_from r tmpl 0 s'
          | Some (S n, caps) => expand tmpl caps ++ replace_from r tmpl n s'
          | None => c :: replace_from r tmpl 0 s'
          end
      end
  end.

Definition replace_g (r : regex) (tmpl : list piece) (s : str) : str :=
  replace_from r tmpl 0 s.

End Regex.
Import Regex.

(** ** The auto-repair *)

Definition any_char (c : cu) : bool := negb (is_line_terminator c).  (* . *)
Definition not_char (x : cu) (c : cu) : bool := negb (c =? x)%N.      (* [^x] *)

(** [/!!!(.*?)!!!/g] *)
Definition re_spoiler : regex :=
  Cat (lit (js "!!!")) (Cat (Grp (Star Lazy any_char)) (lit (js "!!!"))).

(** [':spoiler[$1]'] *)
Definition tmpl_spoiler : list piece :=
  [Text (js ":spoiler["); Ref 1; Text (js "]")].

(** [/```/g], [/\$\$/g] and [/`/g] *)
Definition re_fence : regex := lit (js "```").
Definition re_math : regex := lit (js "$$").
Definition re_backtick : regex := lit (js "`").

(** [/\*\*[^\*]*\s*$/] *)
Definition re_bold : regex :=
  Cat (lit (js "**"))
    (Cat (Star Greedy (not_char STAR)) (Cat (Star Greedy is_space) Eos)).

(** [/(\!\[|\[)[^\]]*\]\([^\)]*$/] *)
Definition re_link : regex :=
  Cat (Grp (Alt (lit (js "![")) (lit (js "["))))
    (Cat (Star Greedy (not_char RBRACK))
       (Cat (lit (js "]("))
          (Cat (Star Greedy (not_char RPAREN)) Eos))).

(** Stage 1 of the repair: the directive substitution. *)
Definition normalize (text : str) : str :=
  replace_g re_spoiler tmpl_spoiler text.

(** [(s.match(r) || []).length] *)
Definition count_matches (r : regex) (s : str) : nat :=
  length (or_empty (match_g r s)).

Definition autoFixMarkdown (text : str) (enabled : bool) : str :=
  let processedText := normalize text in
  if negb enabled then processedText else
  let codeBlockCount := count_matches re_fence processedText in
  if negb (codeBlockCount mod 2 =? 0)%nat then
    processedText ++ LF :: js "```"
  else
  let mathBlockCount := count_matches re_math processedText in
  if negb (mathBlockCount mod 2 =? 0)%nat then processedText ++ js "$$" else
  let lines := split LF processedText in
  let lastLine := last lines [] in
  let backtickCount := count_matches re_backtick lastLine in
  if negb (backtickCount mod 2 =? 0)%nat then processedText ++ js "`" else
  if test re_bold processedText then trimEnd processedText ++ js "**" else
  if test re_link processedText then processedText ++ js ")" else
  processedText.

(** ** Direct scanners

    What the patterns of the repair compute, written as plain recursion on
    the string; the properties below relate them to [exec]. *)

(** [s] without its prefix [l], when it has that prefix. *)
Fixpoint strip_prefix (l s : str) : option str :=
  match l, s with
  | [], _ => Some s
  | c :: l', x :: s' => if (x =? c)%N then strip_prefix l' s' else None
  | _ :: _, [] => None
  end.

(** The offset of the first [!!!] of [s] that only characters other than
    line terminators precede. *)
Fixpoint find_close (s : str) : option nat :=
  match strip_prefix (js "!!!") s with
  | Some _ => Some O
  | None =>
      match s with
      | x :: s' => if any_char x then option_map S (find_close s') else None
      | [] => None
      end
  end.

Definition bangs (s : str) : nat := length (filter (N.eqb BANG) s).

Definition no_star (s : str) : bool := forallb (not_char STAR) s.

(** Whether [s] holds two adjacent asterisks with no asterisk after them. *)
Fixpoint bold_open (s : str) : bool :=
  match s with
  | [] => false
  | c :: s' =>
      bold_open s'
      || ((c =? STAR)%N
          && match s' with
             | d :: body => (d =? STAR)%N && no_star body
             | [] => false
             end)
  end.

(** The outline of a text with respect to asterisks: [true] for an asterisk,
    one [false] for each maximal run of other characters. *)
Definition cons_gap (l : list bool) : list bool :=
  match l with
  | false :: _ => l
  | _ => false :: l
  end.

Fixpoint outline (s : str) : list bool :=
  match s with
  | [] => []
  | c :: s' => if (c =? STAR)%N then true :: outline s'
               else cons_gap (outline s')
  end.

Fixpoint glue (l1 l2 : list bool) : list bool :=
  match l1 with
  | [] => l2
  | true :: l1' => true :: glue l1' l2
  | false :: l1' => cons_gap (glue l1' l2)
  end.

Definition gap_only (l : list bool) : bool :=
  match l with
  | [] | [false] => true
  | _ => false
  end.

Fixpoint bold_outline (l : list bool) : bool :=
  match l with
  | [] => false
  | b :: l' =>
      bold_outline l'
      || (b && match l' with
               | true :: r => gap_only r
               | _ => false
               end)
  end.

(** ** Numbers

    A JavaScript number is an IEEE 754 binary64 value.  The arithmetic is
    that of [SpecFloat] at precision 53 with exponents up to 1024, which
    rounds to nearest, ties to even. *)

Module JsNumber.

Definition number : Type := SpecFloat.spec_float.

Definition prec : Z := 53.
Definition emax : Z := 1024.

Definition NaN : number := SpecFloat.S754_nan.

(** The number nearest to an integer. *)
Definition of_int (z : Z) : number :=
  SpecFloat.binary_normalize prec emax z 0 false.

Definition one : number := of_int 1.

Definition add (x y : number) : number := SpecFloat.SFadd prec emax x y.
Definition sub (x y : number) : number := SpecFloat.SFsub prec emax x y.
Definition mul (x y : number) : number := SpecFloat.SFmul prec emax x y.

(** [x < y] and [x <= y], false when an operand is NaN. *)
Definition lt (x y : number) : bool := SpecFloat.SFltb x y.
Definition le (x y : number) : bool := SpecFloat.SFleb x y.

(** [Math.floor(x)] *)
Definition floor (x : number) : number :=
  match x with
  | SpecFloat.S754_finite s m e =>
      if (0 <=? e)%Z then x
      else
        let d := (2 ^ (- e))%Z in
        let q := (Z.pos m / d)%Z in
        if s then of_int (- (if (Z.pos m mod d =? 0)%Z then q else q + 1))
        else of_int q
  | _ => x
  end.

(** [Math.max(x, y)] and [Math.min(x, y)]: NaN when an argument is NaN, and
    [-0] below [+0]. *)
Definition Math_max (x y : number) : number :=
  match x, y with
  | SpecFloat.S754_nan, _ | _, SpecFloat.S754_nan => SpecFloat.S754_nan
  | SpecFloat.S754_zero true, SpecFloat.S754_zero false => y
  | _, _ => if lt x y then y else x
  end.

Definition Math_min (x y : number) : number :=
  match x, y with
  | SpecFloat.S754_nan, _ | _, SpecFloat.S754_nan => SpecFloat.S754_nan
  | SpecFloat.S754_zero false, SpecFloat.S754_zero true => y
  | _, _ => if lt y x then y else x
  end.

(** The integer that a number is, when it is one. *)
Definition to_int (x : number) : option Z :=
  match x with
  | SpecFloat.S754_zero _ => Some 0%Z
  | SpecFloat.S754_finite s m e =>
      if (0 <=? e)%Z then Some (SpecFloat.cond_Zopp s (Z.pos m * 2 ^ e))
      else if (Z.pos m mod 2 ^ (- e) =? 0)%Z
           then Some (SpecFloat.cond_Zopp s (Z.pos m / 2 ^ (- e)))
           else None
  | _ => None
  end.

(** The largest number that is at most [n / d], for [0 <= n < d]. *)
Definition round_down (n d : Z) : number :=
  if (n =? 0)%Z then SpecFloat.S754_zero false else
  let j := (Z.log2 n - Z.log2 d)%Z in
  let f := if (d <=? n * 2 ^ (- j))%Z then j else (j - 1)%Z in
  let e := Z.max (f - 52) (-1074) in
  match (n * 2 ^ (- e) / d)%Z with
  | Z.pos m => SpecFloat.S754_finite false m e
  | _ => SpecFloat.S754_zero false
  end.

(** [Math.random()] returns a number that is at least 0 and less than 1.  A
    rational [r] names the draw of the largest such number that is at most
    the fractional part of [r]: every rational names a draw, and every draw
    is named by its own value. *)
Definition random_of (r : Q) : number :=
  round_down (Qnum r mod Z.pos (Qden r)) (Z.pos (Qden r)).

(** [Number.MAX_SAFE_INTEGER] and the integers up to it in absolute value,
    which binary64 holds exactly. *)
Definition MAX_SAFE_INTEGER : Z := 2 ^ 53 - 1.

Definition is_safe (z : Z) : bool := (Z.abs z <=? MAX_SAFE_INTEGER)%Z.

Record safe_int := { int_val :> Z; int_safe : is_safe int_val = true }.

(** The safe integer [z]; [0] for an integer that is not safe. *)
Definition safe (z : Z) : safe_int :=
  match is_safe z as b return is_safe z = b -> safe_int with
  | true => fun H => {| int_val := z; int_safe := H |}
  | false => fun _ => {| int_val := 0; int_safe := eq_refl |}
  end eq_refl.

(** A mantissa and an exponent whose value is an integer. *)
Definition int_pair (m e : Z) : Prop := (0 <= e \/ (2 ^ (- e) | m))%Z.

(** The finite numbers below [2 ^ V] in absolute value. *)
Definition below (V : Z) (x : number) : Prop :=
  match x with
  | SpecFloat.S754_zero _ => True
  | SpecFloat.S754_finite _ m e => (SpecFloat.Zdigits2 (Z.pos m) + e <= V)%Z
  | _ => False
  end.

(** A finite number whose mantissa and exponent make an integer. *)
Definition integral (x : number) : Prop :=
  match x with
  | SpecFloat.S754_finite _ m e => int_pair (Z.pos m) e
  | _ => True
  end.

(** The value [m * 2 ^ e] of a mantissa and an exponent, as the integer
    that it is after scaling by [2 ^ offset]; no binary64 number has an
    exponent below [- offset]. *)
Definition offset : Z := 2200.

Definition scaled (m e : Z) : Z := (m * 2 ^ (e + offset))%Z.

(** Zero and the finite numbers with a mantissa of at most 53 bits and an
    exponent of at least -1074, as every binary64 number has. *)
Definition regular (x : number) : Prop :=
  match x with
  | SpecFloat.S754_zero _ => True
  | SpecFloat.S754_finite _ m e => (Z.pos m < 2 ^ 53 /\ -1074 <= e)%Z
  | _ => False
  end.

(** The numbers that [Math.random()] can return: [+0] and the positive
    binary64 numbers below 1 ([NumberFacts.valid_draw]). *)
Definition is_draw (x : number) : bool :=
  match x with
  | SpecFloat.S754_zero false => true
  | SpecFloat.S754_finite false m e =>
      (Z.pos m <? 2 ^ 53)%Z && (-1074 <=? e)%Z
      && (SpecFloat.Zdigits2 (Z.pos m) + e <=? 0)%Z
  | _ => false
  end.

End JsNumber.
Import JsNumber.

(** ** The streaming hook

    [useSmartStream] keeps three values between renders: the state
    [displayBuffer] and the refs [fullTextRef] and [indexRef].  A state of
    the model is taken after a render has committed and the effects it
    triggered have run; the interval timer of the second effect is alive from
    mount on, and its callback is the [Tick] event. *)

Module SmartStream.

(** The arguments of the hook.  The speed bounds are safe integers: with
    them every number that the timer callback computes is an integer, which
    the cursor of this model can hold.  What the callback computes from
    other numbers is [nextCursor_number] below. *)
Record props := {
  fullText : str;
  isStreaming : bool;
  minSpeed : safe_int;
  maxSpeed : safe_int
}.

Record hook := {
  args : props;            (* the arguments of the last render *)
  displayBuffer : str;     (* useState('') *)
  fullTextRef : str;       (* useRef(fullText) *)
  indexRef : Z             (* useRef(0) *)
}.

Definition len (s : str) : Z := Z.of_nat (length s).

Fixpoint str_eqb (a b : str) : bool :=
  match a, b with
  | [], [] => true
  | x :: a', y :: b' => (x =? y)%N && str_eqb a' b'
  | _, _ => false
  end.

(** First effect, dependencies [fullText]. *)
Definition effect_target (h : hook) : hook :=
  let fullText := fullText (args h) in
  if (len fullText <? indexRef h)%Z then
    {| args := args h; displayBuffer := fullText;
       fullTextRef := fullText; indexRef := len fullText |}
  else
    {| args := args h; displayBuffer := displayBuffer h;
       fullTextRef := fullText; indexRef := indexRef h |}.

(** [Math.floor(Math.random() * (maxSpeed - minSpeed + 1)) + minSpeed] on
    numbers, for the number [r] that [Math.random()] returned. *)
Definition speed_number (r minSpeed maxSpeed : number) : number :=
  add (floor (mul r (add (sub maxSpeed minSpeed) one))) minSpeed.

(** The cursor that the callback stores, on numbers: lines 98 to 100 for any
    bounds and any cursor, NaN and the infinities included. *)
Definition nextCursor_number (r minSpeed maxSpeed currentCursor : number)
    (length : Z) : number :=
  let speed := speed_number r minSpeed maxSpeed in
  let charsToAdd := Math_max one speed in
  Math_min (add currentCursor charsToAdd) (of_int length).

(** The speed of a tick with safe integer bounds, for the draw that [r]
    names.  It is computed in binary64 as the source computes it.  The
    result is an integer there, so the [None] branch, for NaN, the infinities
    and fractions, is never taken: [NumberFacts.draw_speed_number]. *)
Definition draw_speed (r : Q) (minSpeed maxSpeed : safe_int) : Z :=
  match to_int (speed_number (random_of r) (of_int minSpeed)
                  (of_int maxSpeed)) with
  | Some speed => speed
  | None => 0
  end.

Arguments draw_speed : simpl never.

Definition charsToAdd (r : Q) (minSpeed maxSpeed : safe_int) : Z :=
  Z.max 1 (draw_speed r minSpeed maxSpeed).

(** The callback of the interval timer that the second effect (dependencies
    [minSpeed, maxSpeed]) installs. *)
Definition tick (r : Q) (h : hook) : hook :=
  let currentTarget := fullTextRef h in
  let currentCursor := indexRef h in
  if (currentCursor <? len currentTarget)%Z then
    let nextCursor :=
      Z.min (currentCursor
             + charsToAdd r (minSpeed (args h)) (maxSpeed (args h)))
            (len currentTarget) in
    {| args := args h; displayBuffer := slice currentTarget 0 nextCursor;
       fullTextRef := fullTextRef h; indexRef := nextCursor |}
  else h.

(** Third effect, dependencies [isStreaming, fullText]. *)
Definition effect_streaming (h : hook) : hook :=
  if negb (isStreaming (args h)) then
    {| args := args h; displayBuffer := fullTextRef h;
       fullTextRef := fullTextRef h; indexRef := len (fullTextRef h) |}
  else h.

(** The first render and its effects. *)
Definition mount (p : props) : hook :=
  effect_streaming
    (effect_target
       {| args := p; displayBuffer := []; fullTextRef := fullText p;
          indexRef := 0 |}).

(** A later render with arguments [p]: an effect runs when one of its
    dependencies differs from the previous render, in the order of the
    source. *)
Definition render (p : props) (h : hook) : hook :=
  let text_changed := negb (str_eqb (fullText p) (fullText (args h))) in
  let flag_changed := negb (Bool.eqb (isStreaming p) (isStreaming (args h))) in
  let h0 := {| args := p; displayBuffer := displayBuffer h;
               fullTextRef := fullTextRef h; indexRef := indexRef h |} in
  let h1 := if text_changed then effect_target h0 else h0 in
  if flag_changed || text_changed then effect_streaming h1 else h1.

(** One call of the hook: [prev] is what the hook kept from the previous
    render, [None] on the first.  The hook returns [displayBuffer]. *)
Definition useSmartStream (p : props) (prev : option hook) : hook :=
  match prev with
  | None => mount p
  | Some h => render p h
  end.

Inductive event :=
| Render (p : props)
| Tick (r : Q).

Definition step (e : event) (h : hook) : hook :=
  match e with
  | Render p => useSmartStream p (Some h)
  | Tick r => tick r h
  end.

Definition run (es : list event) (h : hook) : hook :=
  fold_left (fun h e => step e h) es h.

Inductive reachable : hook -> Prop :=
| reach_mount p : reachable (useSmartStream p None)
| reach_step e h : reachable h -> reachable (step e h).

(** The display buffer is the prefix of the target that the cursor
    delimits. *)
Definition synced (h : hook) : Prop :=
  displayBuffer h = slice (fullText (args h)) 0 (indexRef h).

(** What every reachable state satisfies. *)
Record consistent (h : hook) : Prop := {
  ref_current : fullTextRef h = fullText (args h);
  index_lower : (0 <= indexRef h)%Z;
  index_upper : (indexRef h <= len (fullText (args h)))%Z;
  buffer_length : len (displayBuffer h) = indexRef h;
  revealed : isStreaming (args h) = false -> displayBuffer h = fullText (args h)
}.

(** Arguments with an ASCII target, for the examples. *)
Definition demo (T : string) (s : bool) (mn mx : Z) : props :=
  {| fullText := js T; isStreaming := s;
     minSpeed := safe mn; maxSpeed := safe mx |}.

End SmartStream.

(** ** Directive nodes

    [remarkPluginDirectives] walks the syntax tree with [visit] of
    unist-util-visit, which calls the visitor on every node, parents before
    children.  The visitor of the source reads and writes the fields [type],
    [name], [attributes] and [data] of a node and leaves [children] alone, so
    a node is a label with these fields and a list of children, and the walk
    is the map of the visitor over the labels. *)

Module Directives.

(** A string-valued property: a string, [null] or [undefined]. *)
Inductive val := VUndefined | VNull | VString (s : str).

(** An object as the list of its own properties, in the order of their
    creation. *)
Definition obj (V : Type) : Type := list (str * V).

(** [o[k]] *)
Fixpoint get {V : Type} (k : str) (o : obj V) : option V :=
  match o with
  | [] => None
  | (k', v) :: o' => if SmartStream.str_eqb k k' then Some v else get k o'
  end.

(** [o[k] = v]: an existing property keeps its place. *)
Fixpoint set {V : Type} (k : str) (v : V) (o : obj V) : obj V :=
  match o with
  | [] => [(k, v)]
  | (k', v') :: o' =>
      if SmartStream.str_eqb k k' then (k', v) :: o' else (k', v') :: set k v o'
  end.

(** A value of [node.data]. *)
Inductive dval := DString (s : str) | DObject (o : obj val).

Record label := {
  type : str;
  name : val;
  attributes : option (obj val);   (* an object, or null or undefined *)
  data : option (obj dval)         (* an object, or undefined *)
}.

#[local] Unset Elimination Schemes.
Inductive node := Node (l : label) (children : list node).
#[local] Set Elimination Schemes.

(** [visit(tree, visitor)] for a visitor that leaves [children] alone. *)
Fixpoint visit (visitor : label -> label) (tree : node) : node :=
  match tree with
  | Node l children => Node (visitor l) (map (visit visitor) children)
  end.

(** [['textDirective', 'leafDirective', 'containerDirective'].includes(t)] *)
Definition is_directive (t : str) : bool :=
  existsb (SmartStream.str_eqb t)
    [js "textDirective"; js "leafDirective"; js "containerDirective"].

(** [{...attributes}] *)
Definition spread (attributes : option (obj val)) : obj val :=
  match attributes with
  | Some o => o
  | None => []
  end.

(** The visitor of the plugin. *)
Definition visitor (l : label) : label :=
  if is_directive (type l) then
    let data0 := match data l with Some d => d | None => [] end in
    let tagName := if SmartStream.str_eqb (type l) (js "textDirective")
                   then js "span" else js "div" in
    let data1 := set (js "hName") (DString tagName) data0 in
    let hProperties :=
      set (js "data-directive-name") (name l) (spread (attributes l)) in
    {| type := type l; name := name l; attributes := attributes l;
       data := Some (set (js "hProperties") (DObject hProperties) data1) |}
  else l.

Definition remarkPluginDirectives (tree : node) : node := visit visitor tree.

(** The labels of a tree, parents before children. *)
Fixpoint labels (tree : node) : list label :=
  match tree with
  | Node l children => l :: flat_map labels children
  end.

(** A label and a tree without what [data] holds. *)
Definition without_data (l : label) : label :=
  {| type := type l; name := name l; attributes := attributes l;
     data := None |}.

Fixpoint erase_data (tree : node) : node :=
  match tree with
  | Node l children => Node (without_data l) (map erase_data children)
  end.

End Directives.

(** ** The element renderers of [App]

    The functions of the [components] object that compute what they render
    from their arguments; an element is the tag, the class and the other
    properties it is created with. *)

Module Components.

Import Directives.

(** [r.exec(s)] for a pattern without the [g] flag: the first match, as the
    matched text followed by the captures. *)
Fixpoint search (r : regex) (s : str) : option (list str) :=
  match match_here r s with
  | Some (n, caps) => Some (firstn n s :: caps)
  | None =>
      match s with
      | [] => None
      | _ :: s' => search r s'
      end
  end.

(** [s.replace(r, tmpl)] for a pattern without the [g] flag: the first match
    only. *)
Fixpoint replace_first (r : regex) (tmpl : list piece) (s : str) : str :=
  match match_here r s with
  | Some (n, caps) => expand tmpl caps ++ skipn n s
  | None =>
      match s with
      | [] => []
      | c :: s' => c :: replace_first r tmpl s'
      end
  end.

(** [\w] *)
Definition is_word (c : cu) : bool :=
  ((48 <=? c)%N && (c <=? 57)%N) || ((65 <=? c)%N && (c <=? 90)%N)
  || (c =? 95)%N || ((97 <=? c)%N && (c <=? 122)%N).

(** [/language-(\w+)/] *)
Definition re_language : regex :=
  Cat (lit (js "language-")) (Grp (Cat (Cls is_word) (Star Greedy is_word))).

(** [/\n$/] *)
Definition re_final_newline : regex := Cat (Chr LF) Eos.

(** What the [code] renderer returns. *)
Inductive code_view :=
| SyntaxHighlighter (language content : str)
| CodeBlockFallback (children : str)
| InlineCode (className : option str) (children : str).

(** The [code] renderer, for children that are text. *)
Definition code (inline : bool) (className : option str) (children : str)
    : code_view :=
  let match_ := search re_language
                  (match className with Some c => c | None => [] end) in
  let content := replace_first re_final_newline [] children in
  match negb inline, match_ with
  | true, Some m => SyntaxHighlighter (nth 1 m []) content
  | true, None => CodeBlockFallback children
  | false, _ => InlineCode className children
  end.

Record element := {
  tag : str;
  className : val;
  props : obj val
}.

(** [x || d] for a string-valued property. *)
Definition or_default (x : option val) (d : str) : str :=
  match x with
  | Some (VString (c :: s)) => c :: s
  | _ => d
  end.

Definition is_name (x : option val) (n : str) : bool :=
  match x with
  | Some (VString s) => SmartStream.str_eqb s n
  | _ => false
  end.

(** The [div] renderer. *)
Definition div (className : val) (props : obj val) : element :=
  if is_name (get (js "data-directive-name") props) (js "callout") then
    {| tag := js "div";
       className := VString (js "callout callout-"
                            ++ or_default (get (js "type") props) (js "info"));
       props := [] |}
  else {| tag := js "div"; className := className; props := props |}.

(** The [span] renderer; the title of a spoiler is the text of the source. *)
Definition span (className : val) (props : obj val) : element :=
  let name := get (js "data-directive-name") props in
  if is_name name (js "badge") then
    {| tag := js "span";
       className := VString (js "badge badge-"
                            ++ or_default (get (js "type") props)
                                 (js "default"));
       props := [] |}
  else if is_name name (js "spoiler") then
    {| tag := js "span"; className := VString (js "spoiler");
       props := [(js "title",
                  VString [21038; 24320; 26597; 30475]%N)] |}
  else {| tag := js "span"; className := className; props := props |}.

(** The properties that the plugin leaves on a label for the renderer. *)
Definition hProperties_of (l : label) : obj val :=
  match data (visitor l) with
  | Some d =>
      match get (js "hProperties") d with
      | Some (DObject o) => o
      | _ => []
      end
  | None => []
  end.

End Components.

(** ** The component [App]: what it derives from the hook on each render. *)

Module App.

Import SmartStream.

(** [autoFixMarkdown(rawStreamText, enableAutoFix)] *)
Definition processedText (h : hook) (enableAutoFix : bool) : str :=
  autoFixMarkdown (displayBuffer h) enableAutoFix.

(** [isStreaming && rawStreamText.length < input.length] *)
Definition typing_indicator (h : hook) : bool :=
  isStreaming (args h)
  && (len (displayBuffer h) <? len (fullText (args h)))%Z.

End App.

(** * Properties *)

(** ** Strings *)

Section StringFacts.

Import SmartStream.

Lemma slice_prefix (s : str) (n : Z) :
  (0 <= n <= len s)%Z -> slice s 0 n = firstn (Z.to_nat n) s.
Proof.
  intros Hn. unfold slice, clamp_index, len in *.
  replace (0 <? 0)%Z with false by reflexivity.
  destruct (n <? 0)%Z eqn:E; [apply Z.ltb_lt in E; lia|].
  rewrite Z.min_l by lia. rewrite (Z.min_l 0) by lia.
  rewrite Z.sub_0_r. reflexivity.
Qed.

Lemma slice_all (s : str) : slice s 0 (len s) = s.
Proof.
  rewrite slice_prefix by (unfold len; lia).
  unfold len. rewrite Nat2Z.id. apply firstn_all.
Qed.

Lemma len_slice (s : str) (n : Z) :
  (0 <= n <= len s)%Z -> len (slice s 0 n) = n.
Proof.
  intros Hn. rewrite slice_prefix by assumption.
  unfold len in *. rewrite length_firstn. lia.
Qed.

Lemma len_slice_le (s : str) (b e : Z) : (len (slice s b e) <= len s)%Z.
Proof.
  unfold slice, len. rewrite length_firstn, length_skipn. lia.
Qed.

Lemma str_eqb_eq (a b : str) : str_eqb a b = true <-> a = b.
Proof.
  revert b. induction a as [|x a IH]; intros [|y b]; simpl;
    try (split; [discriminate | discriminate]); try tauto.
  rewrite andb_true_iff, N.eqb_eq, IH. split.
  - intros [-> ->]. reflexivity.
  - intros H. injection H as -> ->. auto.
Qed.

End StringFacts.

(** ** Numbers

    What rounding keeps: the operations of the speed expression map finite
    integers below a bound to finite integers below a larger one. *)

Module NumberFacts.

Import SpecFloat SmartStream.
#[local] Open Scope Z_scope.

Lemma fexp_eq (e : Z) : fexp prec emax e = Z.max (e - 53) (-1074).
Proof. reflexivity. Qed.

Lemma digits_log2 (p : positive) : Z.pos (digits2_pos p) = Z.log2 (Z.pos p) + 1.
Proof.
  induction p as [p IH | p IH |]; cbn [digits2_pos]; try reflexivity.
  - rewrite Pos2Z.inj_succ, IH.
    change (Z.pos p~1) with (2 * Z.pos p + 1).
    rewrite Z.log2_succ_double by lia. lia.
  - rewrite Pos2Z.inj_succ, IH.
    change (Z.pos p~0) with (2 * Z.pos p).
    rewrite Z.log2_double by lia. lia.
Qed.

Lemma digits_nonneg (m : Z) : 0 <= Zdigits2 m.
Proof. destruct m; cbn; lia. Qed.

Lemma digits_le (m D : Z) : 0 <= m -> 0 <= D -> m < 2 ^ D -> Zdigits2 m <= D.
Proof.
  intros Hm HD Hlt. destruct m as [| p | p]; cbn [Zdigits2]; try lia.
  rewrite digits_log2.
  assert (Z.log2 (Z.pos p) < D) by (apply Z.log2_lt_pow2; lia). lia.
Qed.

Lemma digits_bound (m : Z) : 0 <= m -> m < 2 ^ Zdigits2 m.
Proof.
  intros Hm. destruct m as [| p | p]; cbn [Zdigits2]; try lia.
  rewrite digits_log2.
    pose proof (Z.log2_spec (Z.pos p) ltac:(lia)) as [_ H].
    replace (Z.log2 (Z.pos p) + 1) with (Z.succ (Z.log2 (Z.pos p))) by lia.
    exact H.
Qed.

(** Shifting right. *)

Lemma shr_1_m (mrs : shr_record) :
  0 <= shr_m mrs -> shr_m (shr_1 mrs) = shr_m mrs / 2.
Proof.
  destruct mrs as [m r s]. cbn [shr_m]. intros Hm.
  destruct m as [| p | p]; [reflexivity | | lia].
  destruct p as [p | p |]; cbn [shr_1 shr_m].
  - change (Z.pos p~1) with (2 * Z.pos p + 1).
    apply Z.div_unique with 1; lia.
  - change (Z.pos p~0) with (2 * Z.pos p).
    apply Z.div_unique with 0; lia.
  - reflexivity.
Qed.

Lemma iter_shr_m (p : positive) (mrs : shr_record) :
  0 <= shr_m mrs ->
  shr_m (iter_pos shr_1 p mrs) = shr_m mrs / 2 ^ Z.pos p.
Proof.
  revert mrs. induction p as [p IH | p IH |]; intros mrs Hm; cbn [iter_pos].
  - assert (H1 : 0 <= shr_m (shr_1 mrs))
      by (rewrite shr_1_m by lia; apply Z.div_pos; lia).
    assert (H2 : 0 <= shr_m (iter_pos shr_1 p (shr_1 mrs)))
      by (rewrite IH by lia; apply Z.div_pos; lia).
    rewrite IH, IH, shr_1_m by lia.
    rewrite !Z.div_div by lia.
    f_equal. replace (Z.pos p~1) with (1 + (Z.pos p + Z.pos p)) by lia.
    rewrite !Z.pow_add_r by lia. lia.
  - assert (H2 : 0 <= shr_m (iter_pos shr_1 p mrs))
      by (rewrite IH by lia; apply Z.div_pos; lia).
    rewrite IH, IH by lia.
    rewrite !Z.div_div by lia.
    f_equal. replace (Z.pos p~0) with (Z.pos p + Z.pos p) by lia.
    rewrite !Z.pow_add_r by lia. lia.
  - rewrite shr_1_m by lia. reflexivity.
Qed.

Lemma shr_1_exact (m : Z) :
  0 <= m -> (2 | m) ->
  shr_1 {| shr_m := m; shr_r := false; shr_s := false |}
  = {| shr_m := m / 2; shr_r := false; shr_s := false |}.
Proof.
  intros Hm [k Hk]. destruct m as [| p | p]; [reflexivity | | lia].
  destruct p as [p | p |]; try lia. cbn [shr_1 orb]. f_equal.
  change (Z.pos p~0) with (2 * Z.pos p).
  apply Z.div_unique with 0; lia.
Qed.

Lemma div_exact (a b c : Z) : 0 < b -> a = c * b -> a / b = c.
Proof. intros Hb ->. apply Z.div_mul. lia. Qed.

Lemma iter_shr_exact (p : positive) (m : Z) :
  0 <= m -> (2 ^ Z.pos p | m) ->
  iter_pos shr_1 p {| shr_m := m; shr_r := false; shr_s := false |}
  = {| shr_m := m / 2 ^ Z.pos p; shr_r := false; shr_s := false |}.
Proof.
  revert m. induction p as [p IH | p IH |]; intros m Hm [k Hk]; cbn [iter_pos].
  - replace (Z.pos p~1) with (1 + (Z.pos p + Z.pos p)) in * by lia.
    rewrite !Z.pow_add_r in * by lia. change (2 ^ 1) with 2 in *.
    set (P := 2 ^ Z.pos p) in *.
    assert (HP : 0 < P) by (apply Z.pow_pos_nonneg; lia).
    assert (Hk0 : 0 <= k) by nia.
    rewrite shr_1_exact by (try lia; exists (k * (P * P)); lia).
    rewrite (div_exact m 2 (k * P * P)) by lia.
    rewrite IH; [| nia | exists (k * P); reflexivity].
    rewrite (div_exact (k * P * P) P (k * P)) by lia.
    rewrite IH; [| nia | exists k; reflexivity].
    rewrite (div_exact (k * P) P k) by lia.
    rewrite (div_exact m (2 * (P * P)) k) by nia.
    reflexivity.
  - replace (Z.pos p~0) with (Z.pos p + Z.pos p) in * by lia.
    rewrite !Z.pow_add_r in * by lia.
    set (P := 2 ^ Z.pos p) in *.
    assert (HP : 0 < P) by (apply Z.pow_pos_nonneg; lia).
    assert (Hk0 : 0 <= k) by nia.
    rewrite IH; [| lia | exists (k * P); lia].
    rewrite (div_exact m P (k * P)) by lia.
    rewrite IH; [| nia | exists k; reflexivity].
    rewrite (div_exact (k * P) P k) by lia.
    rewrite (div_exact m (P * P) k) by nia.
    reflexivity.
  - apply shr_1_exact; [lia | exists k; exact Hk].
Qed.

Lemma shr_fexp_spec (m e : Z) :
  0 <= m ->
  let R := shr_fexp prec emax m e loc_Exact in
  0 <= shr_m (fst R) /\ shr_m (fst R) < 2 ^ 53
  /\ e <= snd R /\ -1074 <= snd R
  /\ snd R <= Z.max e (Z.max (Zdigits2 m + e - 53) (-1074))
  /\ (int_pair m e ->
      0 <= snd R
      \/ (shr_r (fst R) = false /\ shr_s (fst R) = false
          /\ (2 ^ (- snd R) | shr_m (fst R)))).
Proof.
  intros Hm R. unfold R, shr_fexp, shr. rewrite fexp_eq.
  cbn [shr_record_of_loc].
  pose proof (digits_bound m Hm) as Hd.
  pose proof (digits_nonneg m) as Hd0.
  destruct (Z.max (Zdigits2 m + e - 53) (-1074) - e) as [| p | p] eqn:En;
    cbn [fst snd shr_m shr_r shr_s].
  - assert (Zdigits2 m <= 53) by lia.
    assert (2 ^ Zdigits2 m <= 2 ^ 53) by (apply Z.pow_le_mono_r; lia).
    repeat split; try lia.
    intros [Hi | Hi]; [left; exact Hi | right; repeat split; exact Hi].
  - assert (Hp : 0 < 2 ^ Z.pos p) by (apply Z.pow_pos_nonneg; lia).
    rewrite iter_shr_m by (cbn; lia). cbn [shr_m].
    assert (Hlt : m / 2 ^ Z.pos p < 2 ^ 53).
    { apply Z.div_lt_upper_bound; [lia |].
      rewrite <- Z.pow_add_r by lia.
      assert (2 ^ Zdigits2 m <= 2 ^ (Z.pos p + 53))
        by (apply Z.pow_le_mono_r; lia).
      lia. }
    repeat split; try lia.
    + apply Z.div_pos; lia.
    + intros [Hi | [k Hk]]; [left; lia |].
      destruct (Z_le_gt_dec 0 (e + Z.pos p)) as [Hs | Hs]; [left; exact Hs |].
      right.
      assert (E : 2 ^ (- e) = 2 ^ (- (e + Z.pos p)) * 2 ^ Z.pos p).
      { rewrite <- Z.pow_add_r by lia. f_equal. lia. }
      rewrite iter_shr_exact;
        [| lia | exists (k * 2 ^ (- (e + Z.pos p))); rewrite Hk, E; ring].
      cbn [shr_m shr_r shr_s]. repeat split.
      exists k. apply div_exact; [lia |]. rewrite Hk, E. ring.
  - assert (Zdigits2 m <= 53) by lia.
    assert (2 ^ Zdigits2 m <= 2 ^ 53) by (apply Z.pow_le_mono_r; lia).
    repeat split; try lia.
    intros [Hi | Hi]; [left; exact Hi | right; repeat split; exact Hi].
Qed.

Lemma round_aux_spec (s : bool) (mx : positive) (ex V : Z) :
  Zdigits2 (Z.pos mx) + ex <= V -> V <= 900 ->
  let x := binary_round_aux prec emax s (Z.pos mx) ex loc_Exact in
  below (Z.max V 0 + 54) x
  /\ (int_pair (Z.pos mx) ex -> integral x).
Proof.
  intros HV HV' x. unfold x, binary_round_aux.
  pose proof (shr_fexp_spec (Z.pos mx) ex ltac:(lia)) as H1. cbv zeta in H1.
  destruct (shr_fexp prec emax (Z.pos mx) ex loc_Exact) as [mrs' e'].
  cbn [fst snd] in H1.
  destruct H1 as (H1a & H1b & H1c & H1d & H1e & H1f).
  set (m1 := round_nearest_even (shr_m mrs') (loc_of_shr_record mrs')).
  assert (Hm1 : shr_m mrs' <= m1 <= shr_m mrs' + 1).
  { unfold m1, round_nearest_even.
    destruct (loc_of_shr_record mrs') as [| []];
      try destruct (Z.even (shr_m mrs')); lia. }
  pose proof (shr_fexp_spec m1 e' ltac:(lia)) as H2. cbv zeta in H2.
  destruct (shr_fexp prec emax m1 e' loc_Exact) as [mrs'' e''].
  cbn [fst snd] in H2.
  destruct H2 as (H2a & H2b & H2c & H2d & H2e & H2f).
  assert (Hd1 : Zdigits2 m1 <= 54) by (apply digits_le; lia).
  assert (Hdx : 1 <= Zdigits2 (Z.pos mx)) by (cbn; lia).
  assert (He : e'' <= Z.max V 0 + 1) by lia.
  destruct (shr_m mrs'') as [| m | m] eqn:Em; [split; [exact I | intros _; exact I] | | lia].
  replace (e'' <=? emax - prec) with true
    by (symmetry; apply Z.leb_le; unfold emax, prec; lia).
  cbn [below integral]. split.
  - assert (Zdigits2 (Z.pos m) <= 53) by (apply digits_le; lia). lia.
  - intros Hint. destruct (H1f Hint) as [H | (Hr & Hs & Hdiv)].
    + left. lia.
    + assert (E1 : m1 = shr_m mrs').
      { unfold m1. destruct mrs' as [m' r' s']. cbn in Hr, Hs. subst r' s'.
        reflexivity. }
      destruct (H2f ltac:(right; rewrite E1; exact Hdiv))
        as [H | (_ & _ & Hdiv')]; [left; exact H | right; exact Hdiv'].
Qed.

Lemma below_mono (V W : Z) (x : number) : V <= W -> below V x -> below W x.
Proof. destruct x; cbn; try tauto; lia. Qed.

Lemma digits_abs (z : Z) : Zdigits2 (Z.abs z) = Zdigits2 z.
Proof. destruct z; reflexivity. Qed.

Lemma int_pair_abs (z e : Z) : int_pair z e -> int_pair (Z.abs z) e.
Proof.
  intros [H | H]; [left; exact H | right].
  apply Z.divide_abs_r. exact H.
Qed.

Lemma int_pair_shift (m e k : Z) :
  0 <= k -> int_pair m e -> int_pair (m * 2 ^ k) (e - k).
Proof.
  intros Hk Hint.
  destruct (Z_le_gt_dec 0 (e - k)) as [Hs | Hs]; [left; exact Hs | right].
  destruct (Z_le_gt_dec 0 e) as [He | He].
  - exists (m * 2 ^ e).
    rewrite <- Z.mul_assoc, <- Z.pow_add_r by lia. do 2 f_equal. lia.
  - destruct Hint as [Hi | [c Hc]]; [lia |].
    exists c. rewrite Hc, <- Z.mul_assoc, <- Z.pow_add_r by lia.
    do 2 f_equal. lia.
Qed.

Lemma shl_align_spec (mx : positive) (ex ex' : Z) :
  let R := shl_align mx ex ex' in
  snd R = Z.min ex ex' /\ Z.pos (fst R) = Z.pos mx * 2 ^ (ex - snd R).
Proof.
  unfold shl_align. destruct (ex' - ex) as [| d | d] eqn:E; cbn [fst snd].
  - split; [lia |]. rewrite Z.sub_diag. lia.
  - split; [lia |]. rewrite Z.sub_diag. lia.
  - split; [lia |].
    change (Pos.iter xO mx d) with (Zpower.shift_pos d mx).
    rewrite Zpower.shift_pos_correct.
    replace (ex - ex') with (Z.pos d) by lia.
    rewrite Z.mul_comm. reflexivity.
Qed.

Lemma shifted_digits (m d e k : Z) :
  0 <= m -> 0 <= k -> Zdigits2 m + e <= d ->
  Zdigits2 (m * 2 ^ k) + (e - k) <= d.
Proof.
  intros Hm Hk Hd.
  pose proof (digits_bound m Hm) as Hb.
  pose proof (digits_nonneg m) as H0.
  assert (Hp : 0 < 2 ^ k) by (apply Z.pow_pos_nonneg; lia).
  assert (Zdigits2 (m * 2 ^ k) <= Zdigits2 m + k); [| lia].
  apply digits_le; [nia | lia |].
  rewrite Z.pow_add_r by lia. nia.
Qed.

Lemma round_spec (s : bool) (mx : positive) (ex V : Z) :
  Zdigits2 (Z.pos mx) + ex <= V -> V <= 900 ->
  let x := binary_round prec emax s mx ex in
  below (Z.max V 0 + 54) x /\ (int_pair (Z.pos mx) ex -> integral x).
Proof.
  intros HV HV' x. unfold x, binary_round.
  pose proof (shl_align_spec mx ex
                (fexp prec emax (Z.pos (digits2_pos mx) + ex))) as H.
  cbv zeta in H.
  destruct (shl_align mx ex _) as [mz ez]. cbn [fst snd] in H.
  destruct H as [Hez Hmz].
  assert (Hk : 0 <= ex - ez) by lia.
  replace ez with (ex - (ex - ez)) at 1 2 by lia.
  rewrite Hmz.
  assert (Hd : Zdigits2 (Z.pos mx * 2 ^ (ex - ez)) + (ex - (ex - ez)) <= V)
    by (apply shifted_digits; lia).
  assert (Hp : 0 < 2 ^ (ex - ez)) by (apply Z.pow_pos_nonneg; lia).
  destruct (Z.pos mx * 2 ^ (ex - ez)) as [| mz' | mz'] eqn:Emz; try lia.
  destruct (round_aux_spec s mz' (ex - (ex - ez)) V Hd HV') as [Hb Hi].
  split; [exact Hb |].
  intros Hint. apply Hi. rewrite <- Emz. apply int_pair_shift; assumption.
Qed.

Lemma normalize_spec (z e V : Z) :
  Zdigits2 z + e <= V -> V <= 900 ->
  let x := binary_normalize prec emax z e false in
  below (Z.max V 0 + 54) x /\ (int_pair z e -> integral x).
Proof.
  intros HV HV' x. unfold x, binary_normalize.
  destruct z as [| m | m].
  - split; [exact I | intros _; exact I].
  - apply round_spec; assumption.
  - destruct (round_spec true m e V HV HV') as [Hb Hi].
    split; [exact Hb |].
    intros Hint. apply Hi. exact (int_pair_abs _ _ Hint).
Qed.

Lemma of_int_spec (z V : Z) :
  Z.abs z < 2 ^ V -> 0 <= V -> V <= 900 ->
  below (V + 54) (of_int z) /\ integral (of_int z).
Proof.
  intros Hz HV HV'. unfold of_int.
  assert (Hd : Zdigits2 z + 0 <= V).
  { rewrite <- digits_abs. 
    assert (Zdigits2 (Z.abs z) <= V) by (apply digits_le; lia). lia. }
  destruct (normalize_spec z 0 V Hd HV') as [Hb Hi].
  split; [| apply Hi; left; lia].
  replace (V + 54) with (Z.max V 0 + 54) by lia. exact Hb.
Qed.

(** The sum of the aligned mantissas of two finite numbers. *)
Lemma aligned_sum (sx sy : bool) (mx my : positive) (ex ey V : Z)
    (op : Z -> Z -> Z) :
  (forall a b, Z.abs (op a b) <= Z.abs a + Z.abs b) ->
  (forall k a b, (k | a) -> (k | b) -> (k | op a b)) ->
  Zdigits2 (Z.pos mx) + ex <= V -> Zdigits2 (Z.pos my) + ey <= V ->
  V <= 899 ->
  let ez := Z.min ex ey in
  let x := binary_normalize prec emax
             (op (cond_Zopp sx (Z.pos (fst (shl_align mx ex ez))))
                 (cond_Zopp sy (Z.pos (fst (shl_align my ey ez)))))
             ez false in
  below (Z.max V 0 + 55) x
  /\ (int_pair (Z.pos mx) ex -> int_pair (Z.pos my) ey -> integral x).
Proof.
  intros Hop Hdiv Hx Hy HV ez x. unfold x.
  pose proof (shl_align_spec mx ex ez) as [Ha1 Ha2].
  pose proof (shl_align_spec my ey ez) as [Hb1 Hb2].
  set (a := Z.pos (fst (shl_align mx ex ez))) in *.
  set (b := Z.pos (fst (shl_align my ey ez))) in *.
  replace (snd (shl_align mx ex ez)) with ez in Ha2 by (unfold ez in *; lia).
  replace (snd (shl_align my ey ez)) with ez in Hb2 by (unfold ez in *; lia).
  assert (Hex : 0 <= ex - ez) by (unfold ez; lia).
  assert (Hey : 0 <= ey - ez) by (unfold ez; lia).
  pose proof (shifted_digits (Z.pos mx) V ex (ex - ez) ltac:(lia) Hex Hx) as Da.
  pose proof (shifted_digits (Z.pos my) V ey (ey - ez) ltac:(lia) Hey Hy) as Db.
  rewrite <- Ha2 in Da. rewrite <- Hb2 in Db.
  replace (ex - (ex - ez)) with ez in Da by lia.
  replace (ey - (ey - ez)) with ez in Db by lia.
  set (sum := op (cond_Zopp sx a) (cond_Zopp sy b)).
  assert (Ha0 : 0 < a) by (unfold a; lia).
  assert (Hb0 : 0 < b) by (unfold b; lia).
  assert (Hez : ez < V).
  { assert (1 <= Zdigits2 a) by (unfold a; cbn; lia). lia. }
  assert (HS : Zdigits2 sum + ez <= V + 1).
  { rewrite <- digits_abs.
    assert (Zdigits2 (Z.abs sum) <= V + 1 - ez); [| lia].
    apply digits_le; [lia | lia |].
    pose proof (digits_bound a ltac:(lia)) as Ba.
    pose proof (digits_bound b ltac:(lia)) as Bb.
    assert (2 ^ Zdigits2 a <= 2 ^ (V - ez)) by (apply Z.pow_le_mono_r; lia).
    assert (2 ^ Zdigits2 b <= 2 ^ (V - ez)) by (apply Z.pow_le_mono_r; lia).
    replace (V + 1 - ez) with (1 + (V - ez)) by lia.
    rewrite Z.pow_add_r by lia. change (2 ^ 1) with 2.
    pose proof (Hop (cond_Zopp sx a) (cond_Zopp sy b)) as Hab. fold sum in Hab.
    assert (Z.abs (cond_Zopp sx a) = a) by (destruct sx; cbn; lia).
    assert (Z.abs (cond_Zopp sy b) = b) by (destruct sy; cbn; lia).
    lia. }
  destruct (normalize_spec sum ez (V + 1) HS ltac:(lia)) as [Hb Hi].
  split; [eapply below_mono; [| exact Hb]; lia |].
  intros Ix Iy. apply Hi.
  destruct (Z_le_gt_dec 0 ez) as [Hs | Hs]; [left; exact Hs | right].
  assert (Da' : (2 ^ (- ez) | a)).
  { pose proof (int_pair_shift _ _ _ Hex Ix) as [H | H]; [lia |].
    rewrite Ha2. replace (- ez) with (- (ex - (ex - ez))) by lia. exact H. }
  assert (Db' : (2 ^ (- ez) | b)).
  { pose proof (int_pair_shift _ _ _ Hey Iy) as [H | H]; [lia |].
    rewrite Hb2. replace (- ez) with (- (ey - (ey - ez))) by lia. exact H. }
  apply Hdiv.
  - destruct sx; cbn; [apply Z.divide_opp_r |]; exact Da'.
  - destruct sy; cbn; [apply Z.divide_opp_r |]; exact Db'.
Qed.

Lemma add_spec (x y : number) (V : Z) :
  below V x -> below V y -> integral x -> integral y -> V <= 899 ->
  below (Z.max V 0 + 55) (add x y) /\ integral (add x y).
Proof.
  intros Bx By Ix Iy HV.
  destruct x as [sx | sx | | sx mx ex]; try contradiction;
    destruct y as [sy | sy | | sy my ey]; try contradiction.
  - destruct sx, sy; split; exact I.
  - split; [eapply below_mono; [| exact By]; lia | exact Iy].
  - split; [eapply below_mono; [| exact Bx]; lia | exact Ix].
  - destruct (aligned_sum sx sy mx my ex ey V Z.add) as [Hb Hi];
      try assumption.
    + intros a b. lia.
    + intros k a b. apply Z.divide_add_r.
    + split; [exact Hb | exact (Hi Ix Iy)].
Qed.

Lemma sub_spec (x y : number) (V : Z) :
  below V x -> below V y -> integral x -> integral y -> V <= 899 ->
  below (Z.max V 0 + 55) (sub x y) /\ integral (sub x y).
Proof.
  intros Bx By Ix Iy HV.
  destruct x as [sx | sx | | sx mx ex]; try contradiction;
    destruct y as [sy | sy | | sy my ey]; try contradiction.
  - destruct sx, sy; split; exact I.
  - split; [eapply below_mono; [| exact By]; lia | exact Iy].
  - split; [eapply below_mono; [| exact Bx]; lia | exact Ix].
  - destruct (aligned_sum sx sy mx my ex ey V Z.sub) as [Hb Hi];
      try assumption.
    + intros a b. lia.
    + intros k a b. apply Z.divide_sub_r.
    + split; [exact Hb | exact (Hi Ix Iy)].
Qed.

Lemma mul_spec (x y : number) (V : Z) :
  below 0 x -> below V y -> V <= 900 ->
  below (Z.max V 0 + 54) (mul x y).
Proof.
  intros Bx By HV.
  destruct x as [sx | sx | | sx mx ex]; try contradiction;
    destruct y as [sy | sy | | sy my ey]; try contradiction;
    try exact I.
  cbn [below] in Bx, By. unfold mul, SFmul.
  apply round_aux_spec; [| exact HV].
  rewrite Pos2Z.inj_mul.
  pose proof (digits_bound (Z.pos mx) ltac:(lia)) as Bmx.
  pose proof (digits_bound (Z.pos my) ltac:(lia)) as Bmy.
  pose proof (digits_nonneg (Z.pos mx)). pose proof (digits_nonneg (Z.pos my)).
  assert (Zdigits2 (Z.pos mx * Z.pos my)
          <= Zdigits2 (Z.pos mx) + Zdigits2 (Z.pos my)); [| lia].
  apply digits_le; [lia | lia |].
  rewrite Z.pow_add_r by lia. nia.
Qed.

Lemma floor_spec (x : number) (V : Z) :
  below V x -> 0 <= V -> V <= 899 ->
  below (V + 55) (floor x) /\ integral (floor x).
Proof.
  intros Bx HV HV'.
  destruct x as [sx | sx | | s m e]; try contradiction.
  - split; exact I.
  - cbn [below] in Bx. cbn [floor].
    destruct (0 <=? e) eqn:He.
    + apply Z.leb_le in He. split; [cbn [below]; lia | left; exact He].
    + apply Z.leb_gt in He.
      assert (Hp : 0 < 2 ^ (- e)) by (apply Z.pow_pos_nonneg; lia).
      pose proof (digits_bound (Z.pos m) ltac:(lia)) as Bm.
      assert (Hq0 : 0 <= Z.pos m / 2 ^ (- e)) by (apply Z.div_pos; lia).
      assert (Hq : Z.pos m / 2 ^ (- e) < 2 ^ V).
      { apply Z.div_lt_upper_bound; [lia |].
        rewrite <- Z.pow_add_r by lia.
        assert (2 ^ Zdigits2 (Z.pos m) <= 2 ^ (- e + V))
          by (apply Z.pow_le_mono_r; lia).
        lia. }
      assert (H2 : 2 ^ (V + 1) = 2 * 2 ^ V)
        by (rewrite Z.pow_add_r by lia; lia).
      replace (V + 55) with (V + 1 + 54) by lia.
      destruct s; [destruct (_ =? 0) |]; apply of_int_spec; lia.
Qed.

Lemma round_down_below (n d : Z) : 0 <= n < d -> below 0 (round_down n d).
Proof.
  intros Hn. unfold round_down.
  destruct (n =? 0) eqn:E0; [exact I |]. apply Z.eqb_neq in E0.
  set (j := Z.log2 n - Z.log2 d).
  set (f := if d <=? n * 2 ^ (- j) then j else j - 1).
  set (e := Z.max (f - 52) (-1074)).
  assert (Hj : j <= 0) by (pose proof (Z.log2_le_mono n d); lia).
  assert (Hf : f <= 0) by (unfold f; destruct (_ <=? _); lia).
  assert (He : e < 0) by lia.
  assert (Hp : 0 < 2 ^ (- e)) by (apply Z.pow_pos_nonneg; lia).
  destruct (n * 2 ^ (- e) / d) as [| m | m] eqn:Em; try exact I.
  cbn [below].
  assert (Zdigits2 (Z.pos m) <= - e); [| lia].
  apply digits_le; [lia | lia |].
  rewrite <- Em. apply Z.div_lt_upper_bound; [lia | nia].
Qed.

Lemma random_of_below (r : Q) : below 0 (random_of r).
Proof.
  unfold random_of. apply round_down_below.
  apply Z.mod_pos_bound. lia.
Qed.

Lemma to_int_integral (x : number) (V : Z) :
  below V x -> integral x -> exists z, to_int x = Some z.
Proof.
  destruct x as [s | s | | s m e]; try contradiction; intros _ Hi.
  - exists 0. reflexivity.
  - cbn [to_int]. destruct (0 <=? e) eqn:He; [eexists; reflexivity |].
    apply Z.leb_gt in He. destruct Hi as [Hi | Hi]; [lia |].
    assert (Hp : 0 < 2 ^ (- e)) by (apply Z.pow_pos_nonneg; lia).
    apply Z.mod_divide in Hi; [| lia]. rewrite Hi. cbn.
    eexists; reflexivity.
Qed.

Lemma safe_int_spec (n : safe_int) :
  below 107 (of_int n) /\ integral (of_int n).
Proof.
  apply (of_int_spec n 53); try lia.
  pose proof (int_safe n) as H. unfold is_safe, MAX_SAFE_INTEGER in H.
  apply Z.leb_le in H. lia.
Qed.

(** With safe integer bounds and a factor below 1 in absolute value, the
    speed is an integer: every intermediate number is finite, and from the
    rounded product on each is an integer. *)
Theorem speed_number_integer (x : number) (minSpeed maxSpeed : safe_int) :
  below 0 x ->
  exists speed,
    to_int (speed_number x (of_int minSpeed) (of_int maxSpeed)) = Some speed.
Proof.
  intros Hx.
  destruct (safe_int_spec minSpeed) as [Bn In].
  destruct (safe_int_spec maxSpeed) as [Bx Ix].
  destruct (of_int_spec 1 53) as [B1 I1]; try lia. fold one in B1, I1.
  destruct (sub_spec _ _ 107 Bx Bn Ix In) as [Bk Ik]; [lia |].
  destruct (add_spec _ _ 162 Bk (below_mono 107 162 _ ltac:(lia) B1) Ik I1)
    as [Bk' Ik']; [lia |].
  pose proof (mul_spec _ _ 217 Hx Bk' ltac:(lia)) as Bp.
  destruct (floor_spec _ 271 Bp) as [Bf If]; try lia.
  destruct (add_spec _ _ 326 Bf (below_mono 107 326 _ ltac:(lia) Bn) If In)
    as [Bs Is]; [lia |].
  exact (to_int_integral _ _ Bs Is).
Qed.

(** The speed of the model is the number that the source computes. *)
Lemma draw_speed_number (r : Q) (minSpeed maxSpeed : safe_int) :
  to_int (speed_number (random_of r) (of_int minSpeed) (of_int maxSpeed))
  = Some (draw_speed r minSpeed maxSpeed).
Proof.
  destruct (speed_number_integer _ minSpeed maxSpeed (random_of_below r))
    as [speed E].
  unfold draw_speed. rewrite E. reflexivity.
Qed.

(** *** Values

    The value of a finite number, scaled by [2 ^ offset] so that it is an
    integer; the lemmas below keep [offset] folded. *)

Lemma offset_pos : 0 < 2 ^ offset.
Proof. apply Z.pow_pos_nonneg; unfold offset; lia. Qed.

Lemma offset_large : 2200 <= offset.
Proof. unfold offset. lia. Qed.

#[local] Opaque offset.

Lemma pow2_pos (n : Z) : 0 <= n -> 0 < 2 ^ n.
Proof. intros. apply Z.pow_pos_nonneg; lia. Qed.

Lemma pow2_split (a b : Z) : 0 <= a -> 0 <= b -> 2 ^ (a + b) = 2 ^ a * 2 ^ b.
Proof. intros. apply Z.pow_add_r; assumption. Qed.

Lemma digits_lower (m : Z) : 0 < m -> 2 ^ (Zdigits2 m - 1) <= m.
Proof.
  intros Hm. destruct m as [| p | p]; try lia. cbn [Zdigits2].
  rewrite digits_log2. replace (Z.log2 (Z.pos p) + 1 - 1) with (Z.log2 (Z.pos p)) by lia.
  apply Z.log2_spec. lia.
Qed.

Lemma scaled_shift (m e k : Z) :
  0 <= k -> 0 <= e - k + offset -> scaled (m * 2 ^ k) (e - k) = scaled m e.
Proof.
  intros Hk He. unfold scaled.
  replace (e + offset) with (k + (e - k + offset)) by lia.
  rewrite (pow2_split k (e - k + offset)) by lia. ring.
Qed.

(** The value of a pair that holds an integer. *)
Lemma scaled_int (m e N : Z) :
  0 <= e + offset -> scaled m e = N * 2 ^ offset ->
  (0 <= e -> N = m * 2 ^ e) /\ (e <= 0 -> m = N * 2 ^ (- e)).
Proof.
  intros He H. unfold scaled in H. pose proof offset_pos as HW. split; intros Hs.
  - rewrite (pow2_split e offset) in H by (pose proof offset_large; lia).
    nia.
  - replace (2 ^ offset) with (2 ^ (- e) * 2 ^ (e + offset)) in H
      by (rewrite <- pow2_split by lia; f_equal; lia).
    pose proof (pow2_pos (e + offset) He). nia.
Qed.

Lemma to_int_of_scaled (s : bool) (m : positive) (e N : Z) :
  0 <= e + offset -> scaled (Z.pos m) e = N * 2 ^ offset ->
  to_int (S754_finite s m e) = Some (cond_Zopp s N).
Proof.
  intros He H. destruct (scaled_int _ _ _ He H) as [H1 H2]. cbn [to_int].
  destruct (0 <=? e) eqn:E.
  - apply Z.leb_le in E. rewrite (H1 E). reflexivity.
  - apply Z.leb_gt in E. rewrite (H2 ltac:(lia)).
    pose proof (pow2_pos (- e) ltac:(lia)).
    rewrite Z.mod_mul, Z.div_mul by lia. reflexivity.
Qed.

Lemma scaled_of_to_int (s : bool) (m : positive) (e z : Z) :
  0 <= e + offset -> to_int (S754_finite s m e) = Some z ->
  scaled (Z.pos m) e = Z.abs z * 2 ^ offset
  /\ z = cond_Zopp s (Z.abs z) /\ 0 < Z.abs z.
Proof.
  intros He H. unfold to_int in H. unfold scaled.
  pose proof offset_large as HL.
  destruct (0 <=? e) eqn:E.
  - apply Z.leb_le in E.
    assert (Hz : z = cond_Zopp s (Z.pos m * 2 ^ e)) by congruence.
    clear H. rewrite Hz.
    pose proof (pow2_pos e E).
    assert (Ha : Z.abs (cond_Zopp s (Z.pos m * 2 ^ e)) = Z.pos m * 2 ^ e)
      by (destruct s; cbn [cond_Zopp]; nia).
    rewrite Ha. rewrite (pow2_split e offset) by lia.
    repeat split; try ring; nia.
  - apply Z.leb_gt in E.
    pose proof (pow2_pos (- e) ltac:(lia)) as Hp.
    destruct (Z.pos m mod 2 ^ (- e) =? 0) eqn:Em; [| discriminate].
    apply Z.eqb_eq in Em.
    assert (Hz : z = cond_Zopp s (Z.pos m / 2 ^ (- e))) by congruence.
    clear H. rewrite Hz.
    pose proof (Z.div_mod (Z.pos m) (2 ^ (- e)) ltac:(lia)) as Hd.
    rewrite Em, Z.add_0_r in Hd.
    set (q := Z.pos m / 2 ^ (- e)) in *.
    assert (Hq : 0 < q) by nia.
    assert (Ha : Z.abs (cond_Zopp s q) = q) by (destruct s; cbn [cond_Zopp]; lia).
    rewrite Ha. repeat split; try lia.
    replace (2 ^ offset) with (2 ^ (- e) * 2 ^ (e + offset))
      by (rewrite <- pow2_split by lia; f_equal; lia).
    rewrite Hd. ring.
Qed.

(** The rounding bit, once set, says that at least half was shifted out. *)
Lemma iter_shr_r (p : positive) (mrs : shr_record) :
  0 <= shr_m mrs -> shr_r (iter_pos shr_1 p mrs) = true ->
  2 ^ Z.pos p <= 2 * (shr_m mrs mod 2 ^ Z.pos p).
Proof.
  revert mrs. induction p as [p IH | p IH |]; intros mrs Hm Hr; cbn [iter_pos] in Hr.
  - assert (H1 : 0 <= shr_m (shr_1 mrs))
      by (rewrite shr_1_m by lia; apply Z.div_pos; lia).
    assert (H2 : 0 <= shr_m (iter_pos shr_1 p (shr_1 mrs)))
      by (rewrite iter_shr_m by lia; apply Z.div_pos; [lia | apply pow2_pos; lia]).
    apply IH in Hr; [| exact H2].
    rewrite iter_shr_m, shr_1_m in Hr by lia.
    replace (Z.pos p~1) with (1 + (Z.pos p + Z.pos p)) by lia.
    rewrite !pow2_split by lia. change (2 ^ 1) with 2.
    set (P := 2 ^ Z.pos p) in *.
    assert (HP : 0 < P) by (apply pow2_pos; lia).
    rewrite (Z.rem_mul_r (shr_m mrs) 2 (P * P)) by lia.
    rewrite (Z.rem_mul_r (shr_m mrs / 2) P P) by lia.
    pose proof (Z.mod_pos_bound (shr_m mrs) 2 ltac:(lia)).
    pose proof (Z.mod_pos_bound (shr_m mrs / 2) P HP).
    nia.
  - assert (H2 : 0 <= shr_m (iter_pos shr_1 p mrs))
      by (rewrite iter_shr_m by lia; apply Z.div_pos; [lia | apply pow2_pos; lia]).
    apply IH in Hr; [| exact H2].
    rewrite iter_shr_m in Hr by lia.
    replace (Z.pos p~0) with (Z.pos p + Z.pos p) by lia.
    rewrite !pow2_split by lia.
    set (P := 2 ^ Z.pos p) in *.
    assert (HP : 0 < P) by (apply pow2_pos; lia).
    rewrite (Z.rem_mul_r (shr_m mrs) P P) by lia.
    pose proof (Z.mod_pos_bound (shr_m mrs) P HP).
    nia.
  - destruct mrs as [m r s]. cbn [shr_m] in *.
    destruct m as [| q | q]; [discriminate | | lia].
    destruct q as [q | q |]; cbn in Hr; try discriminate.
    rewrite Pos2Z.inj_xI. change (2 ^ 1) with 2.
    replace (2 * Z.pos q + 1) with (1 + Z.pos q * 2) by lia.
    rewrite Z_mod_plus_full. reflexivity.
Qed.

Lemma shr_fexp_cases (m e : Z) :
  0 <= m ->
  let R := shr_fexp prec emax m e loc_Exact in
  let n := snd R - e in
  0 <= n
  /\ snd R = Z.max e (Z.max (Zdigits2 m + e - 53) (-1074))
  /\ shr_m (fst R) = m / 2 ^ n
  /\ ((2 ^ n | m) -> shr_r (fst R) = false /\ shr_s (fst R) = false)
  /\ (shr_r (fst R) = true -> 2 ^ n <= 2 * (m mod 2 ^ n)).
Proof.
  intros Hm R n. unfold n, R, shr_fexp, shr. rewrite fexp_eq.
  cbn [shr_record_of_loc].
  destruct (Z.max (Zdigits2 m + e - 53) (-1074) - e) as [| p | p] eqn:En;
    cbn [fst snd shr_m shr_r shr_s].
  - rewrite Z.sub_diag, Z.div_1_r. repeat split; try lia; try discriminate.
  - replace (e + Z.pos p - e) with (Z.pos p) by lia.
    repeat split; try lia.
    + apply iter_shr_m. cbn. lia.
    + rewrite iter_shr_exact by assumption. reflexivity.
    + rewrite iter_shr_exact by assumption. reflexivity.
    + intros Hr. apply iter_shr_r in Hr; [exact Hr | cbn; lia].
  - rewrite Z.sub_diag, Z.div_1_r. repeat split; try lia; try discriminate.
Qed.

Lemma pow2_lt_inv (a b : Z) : 0 <= b -> 2 ^ a < 2 ^ b -> a < b.
Proof. intros Hb H. apply (Z.pow_lt_mono_r_iff 2); [lia | exact Hb | exact H]. Qed.

(** Rounding a value that is an integer below [2 ^ 53] loses nothing. *)
Lemma shift_exact (m e N : Z) :
  0 <= m -> -1074 <= e -> scaled m e = N * 2 ^ offset -> N < 2 ^ 53 ->
  let R := shr_fexp prec emax m e loc_Exact in
  loc_of_shr_record (fst R) = loc_Exact
  /\ scaled (shr_m (fst R)) (snd R) = N * 2 ^ offset
  /\ 0 <= shr_m (fst R) < 2 ^ 53
  /\ -1074 <= snd R <= Z.max e 0.
Proof.
  intros Hm He Hs HN R.
  pose proof offset_large as HL. pose proof offset_pos as HW.
  destruct (shr_fexp_cases m e Hm) as (Hn & Hsnd & Hsm & Hex & _).
  destruct (shr_fexp_spec m e Hm) as (H0 & H53 & _ & Hlo & _).
  fold R in Hn, Hsnd, Hsm, Hex, H0, H53, Hlo.
  set (n := snd R - e) in *.
  assert (Hdiv : m = (m / 2 ^ n) * 2 ^ n /\ snd R <= Z.max e 0).
  { destruct (Z.eq_dec n 0) as [En | En].
    - rewrite En. change (2 ^ 0) with 1. rewrite Z.div_1_r. lia.
    - assert (Hd : 54 <= Zdigits2 m) by lia.
      assert (Hm0 : 0 < m) by (destruct m; cbn in Hd; lia).
      pose proof (digits_lower m Hm0) as Hlow.
      assert (Hde : Zdigits2 m + e <= 53).
      { assert (2 ^ (Zdigits2 m - 1 + (e + offset)) < 2 ^ (53 + offset)).
        { rewrite (pow2_split (Zdigits2 m - 1) (e + offset)) by lia.
          rewrite (pow2_split 53 offset) by lia.
          unfold scaled in Hs. pose proof (pow2_pos (e + offset) ltac:(lia)).
          nia. }
        apply pow2_lt_inv in H; lia. }
      destruct (scaled_int m e N ltac:(lia) Hs) as [_ H2].
      specialize (H2 ltac:(lia)).
      assert (E : 2 ^ (- e) = 2 ^ (- snd R) * 2 ^ n).
      { rewrite <- pow2_split by lia. f_equal. lia. }
      split; [| lia].
      pose proof (pow2_pos n Hn).
      rewrite H2, E, Z.mul_assoc, Z.div_mul by lia. reflexivity. }
  destruct Hdiv as [Hdiv Hle].
  destruct (Hex ltac:(exists (m / 2 ^ n); exact Hdiv)) as [Hr Hs'].
  repeat split; try lia.
  - destruct (fst R) as [m' r' s']. cbn in Hr, Hs'. subst r' s'. reflexivity.
  - rewrite Hsm. unfold scaled in *. rewrite <- Hs.
    rewrite Hdiv at 2.
    replace (snd R + offset) with (n + (e + offset)) by lia.
    rewrite (pow2_split n (e + offset)) by lia. ring.
Qed.

Lemma round_aux_exact (s : bool) (m : positive) (e N : Z) :
  -1074 <= e -> scaled (Z.pos m) e = N * 2 ^ offset -> N < 2 ^ 53 ->
  let x := binary_round_aux prec emax s (Z.pos m) e loc_Exact in
  to_int x = Some (cond_Zopp s N) /\ regular x.
Proof.
  intros He Hs HN x. unfold x, binary_round_aux.
  pose proof offset_large as HL. pose proof offset_pos as HW.
  assert (He' : e <= 52).
  { assert (2 ^ (e + offset) < 2 ^ (53 + offset)).
    { rewrite (pow2_split 53 offset) by lia. unfold scaled in Hs.
      pose proof (pow2_pos (e + offset) ltac:(lia)). nia. }
    apply pow2_lt_inv in H; lia. }
  pose proof (shift_exact (Z.pos m) e N ltac:(lia) He Hs HN) as H1.
  cbv zeta in H1.
  destruct (shr_fexp prec emax (Z.pos m) e loc_Exact) as [mrs' e'].
  cbn [fst snd] in H1. destruct H1 as (L1 & S1 & B1 & E1).
  rewrite L1. cbn [round_nearest_even].
  pose proof (shift_exact (shr_m mrs') e' N ltac:(lia) ltac:(lia) S1 HN) as H2.
  cbv zeta in H2.
  destruct (shr_fexp prec emax (shr_m mrs') e' loc_Exact) as [mrs'' e''].
  cbn [fst snd] in H2. destruct H2 as (L2 & S2 & B2 & E2).
  destruct (shr_m mrs'') as [| m2 | m2]; [| | lia].
  - unfold scaled in S2. assert (N = 0) by nia. subst N.
    split; [destruct s; reflexivity | exact I].
  - replace (e'' <=? emax - prec) with true
      by (symmetry; apply Z.leb_le; unfold emax, prec; lia).
    split; [apply to_int_of_scaled; [lia | exact S2] | cbn [regular]; lia].
Qed.

Lemma round_exact (s : bool) (m : positive) (e N : Z) :
  -1074 <= e -> scaled (Z.pos m) e = N * 2 ^ offset -> N < 2 ^ 53 ->
  let x := binary_round prec emax s m e in
  to_int x = Some (cond_Zopp s N) /\ regular x.
Proof.
  intros He Hs HN x. unfold x, binary_round.
  pose proof offset_large as HL.
  pose proof (shl_align_spec m e
                (fexp prec emax (Z.pos (digits2_pos m) + e))) as H.
  cbv zeta in H. rewrite fexp_eq in H.
  destruct (shl_align m e _) as [mz ez]. cbn [fst snd] in H.
  destruct H as [Hez Hmz].
  apply round_aux_exact; [lia | | exact HN].
  rewrite Hmz, <- Hs.
  replace ez with (e - (e - ez)) at 2 by lia.
  apply scaled_shift; lia.
Qed.

Lemma normalize_exact (z e N : Z) :
  -1074 <= e -> z * 2 ^ (e + offset) = N * 2 ^ offset -> Z.abs N < 2 ^ 53 ->
  let x := binary_normalize prec emax z e false in
  to_int x = Some N /\ regular x.
Proof.
  intros He Hs HN x. unfold x, binary_normalize.
  pose proof offset_large as HL. pose proof offset_pos as HW.
  destruct z as [| m | m].
  - assert (N = 0) by nia. subst N. split; [reflexivity | exact I].
  - destruct (round_exact false m e N He Hs ltac:(lia)) as [H1 H2].
    split; assumption.
  - destruct (round_exact true m e (- N) He) as [H1 H2].
    + unfold scaled. 
      replace (Z.pos m) with (- Z.neg m) by reflexivity. 
      rewrite Z.mul_opp_l, Hs. ring.
    + lia.
    + cbn [cond_Zopp] in H1. rewrite Z.opp_involutive in H1.
      split; assumption.
Qed.

Lemma of_int_exact (z : Z) :
  Z.abs z < 2 ^ 53 -> to_int (of_int z) = Some z /\ regular (of_int z).
Proof.
  intros Hz. unfold of_int. apply normalize_exact; [lia | reflexivity | lia].
Qed.

Lemma signed_scaled (s : bool) (m : positive) (e z k : Z) :
  -1074 <= e - k -> 0 <= k ->
  to_int (S754_finite s m e) = Some z ->
  cond_Zopp s (Z.pos m * 2 ^ k) * 2 ^ (e - k + offset) = z * 2 ^ offset.
Proof.
  intros He Hk Hz. pose proof offset_large as HL.
  destruct (scaled_of_to_int s m e z ltac:(lia) Hz) as (H1 & H2 & _).
  rewrite <- (scaled_shift (Z.pos m) e k) in H1 by lia. unfold scaled in H1.
  set (A := Z.abs z) in *. clearbody A. subst z.
  destruct s; cbn [cond_Zopp]; rewrite ?Z.mul_opp_l; lia.
Qed.

Lemma aligned_exact (sx sy : bool) (mx my : positive) (ex ey a b : Z)
    (op : Z -> Z -> Z) :
  (forall u v w, op u v * w = op (u * w) (v * w)) ->
  -1074 <= ex -> -1074 <= ey ->
  to_int (S754_finite sx mx ex) = Some a ->
  to_int (S754_finite sy my ey) = Some b ->
  Z.abs (op a b) < 2 ^ 53 ->
  let ez := Z.min ex ey in
  let x := binary_normalize prec emax
             (op (cond_Zopp sx (Z.pos (fst (shl_align mx ex ez))))
                 (cond_Zopp sy (Z.pos (fst (shl_align my ey ez)))))
             ez false in
  to_int x = Some (op a b) /\ regular x.
Proof.
  intros Hlin Hex Hey Ha Hb Hab ez x. unfold x.
  pose proof (shl_align_spec mx ex ez) as [Ha1 Ha2].
  pose proof (shl_align_spec my ey ez) as [Hb1 Hb2].
  replace (snd (shl_align mx ex ez)) with ez in Ha2 by (unfold ez in *; lia).
  replace (snd (shl_align my ey ez)) with ez in Hb2 by (unfold ez in *; lia).
  rewrite Ha2, Hb2.
  apply normalize_exact; [unfold ez; lia | | exact Hab].
  rewrite Hlin, (Hlin a b). f_equal.
  - replace ez with (ex - (ex - ez)) at 2 by lia.
    apply signed_scaled; [unfold ez | unfold ez |]; try lia. exact Ha.
  - replace ez with (ey - (ey - ez)) at 2 by lia.
    apply signed_scaled; [unfold ez | unfold ez |]; try lia. exact Hb.
Qed.

Lemma to_int_zero (s : bool) (z : Z) : to_int (S754_zero s) = Some z -> z = 0.
Proof. cbn. congruence. Qed.

Lemma add_exact (x y : number) (a b : Z) :
  to_int x = Some a -> regular x -> to_int y = Some b -> regular y ->
  Z.abs (a + b) < 2 ^ 53 ->
  to_int (add x y) = Some (a + b) /\ regular (add x y).
Proof.
  intros Ha Rx Hb Ry Hab.
  destruct x as [sx | sx | | sx mx ex]; try contradiction;
    destruct y as [sy | sy | | sy my ey]; try contradiction.
  - apply to_int_zero in Ha, Hb. subst a b.
    destruct sx, sy; split; first [reflexivity | exact I].
  - apply to_int_zero in Ha. subst a. split; [exact Hb | exact Ry].
  - apply to_int_zero in Hb. subst b. rewrite Z.add_0_r.
    split; [exact Ha | exact Rx].
  - cbn [regular] in Rx, Ry.
    apply (aligned_exact sx sy mx my ex ey a b Z.add); try assumption;
      try lia.
Qed.

Lemma to_int_opp (s : bool) (m : positive) (e z : Z) :
  to_int (S754_finite s m e) = Some z ->
  to_int (S754_finite (negb s) m e) = Some (- z).
Proof.
  assert (H : forall v, Some (cond_Zopp s v) = Some z ->
                        Some (cond_Zopp (negb s) v) = Some (- z)).
  { intros v Hv. assert (Hz : z = cond_Zopp s v) by congruence.
    rewrite Hz. destruct s; cbn [negb cond_Zopp]; f_equal; lia. }
  unfold to_int. destruct (0 <=? e); [| destruct (_ =? 0)];
    try discriminate; apply H.
Qed.

Lemma sub_exact (x y : number) (a b : Z) :
  to_int x = Some a -> regular x -> to_int y = Some b -> regular y ->
  Z.abs (a - b) < 2 ^ 53 ->
  to_int (sub x y) = Some (a - b) /\ regular (sub x y).
Proof.
  intros Ha Rx Hb Ry Hab.
  destruct x as [sx | sx | | sx mx ex]; try contradiction;
    destruct y as [sy | sy | | sy my ey]; try contradiction.
  - apply to_int_zero in Ha, Hb. subst a b.
    destruct sx, sy; split; first [reflexivity | exact I].
  - apply to_int_zero in Ha. subst a.
    split; [apply to_int_opp; exact Hb | exact Ry].
  - apply to_int_zero in Hb. subst b. rewrite Z.sub_0_r.
    split; [exact Ha | exact Rx].
  - cbn [regular] in Rx, Ry.
    apply (aligned_exact sx sy mx my ex ey a b Z.sub); try assumption;
      try lia.
Qed.

Lemma rne_cases (mrs : shr_record) :
  let m1 := round_nearest_even (shr_m mrs) (loc_of_shr_record mrs) in
  m1 = shr_m mrs \/ (m1 = shr_m mrs + 1 /\ shr_r mrs = true).
Proof.
  destruct mrs as [m [] []]; cbn; try (left; reflexivity);
    try (right; split; reflexivity).
  destruct (Z.even m); [left | right; split]; reflexivity.
Qed.

(** What rounding to nearest adds is at most half of the last place. *)
Lemma round_aux_upper (s : bool) (M : positive) (E : Z) :
  let x := binary_round_aux prec emax s (Z.pos M) E loc_Exact in
  let e1 := Z.max E (Z.max (Zdigits2 (Z.pos M) + E - 53) (-1074)) in
  match x with
  | S754_finite s' m e =>
      s' = s /\ Z.pos m < 2 ^ 53 /\ e1 <= e /\ -1074 <= e
      /\ 2 * (Z.pos m * 2 ^ (e - E)) <= 2 * Z.pos M + 2 ^ (e1 - E)
      /\ (e1 = E -> Z.pos m * 2 ^ (e - E) <= Z.pos M)
  | _ => True
  end.
Proof.
  intros x e1. unfold x, binary_round_aux.
  destruct (shr_fexp_cases (Z.pos M) E ltac:(lia)) as (Hn & Hsnd & Hsm & Hex & Hr).
  destruct (shr_fexp_spec (Z.pos M) E ltac:(lia)) as (H0 & H53 & _ & Hlo & _).
  destruct (shr_fexp prec emax (Z.pos M) E loc_Exact) as [mrs' e'].
  cbn [fst snd] in *. fold e1 in Hsnd. subst e'.
  set (n := e1 - E) in *.
  pose proof (rne_cases mrs') as Hrne. cbv zeta in Hrne.
  set (m1 := round_nearest_even (shr_m mrs') (loc_of_shr_record mrs')) in *.
  assert (Hp : 0 < 2 ^ n) by (apply pow2_pos; lia).
  pose proof (Z.div_mod (Z.pos M) (2 ^ n) ltac:(lia)) as Hdm.
  pose proof (Z.mod_pos_bound (Z.pos M) (2 ^ n) Hp) as Hmod.
  rewrite <- Hsm in Hdm.
  assert (Hm1 : 2 * (m1 * 2 ^ n) <= 2 * Z.pos M + 2 ^ n
                /\ (n = 0 -> m1 = Z.pos M) /\ 0 <= m1).
  { destruct Hrne as [-> | [-> Hr']].
    - repeat split; try nia.
      intros En. rewrite En in *. change (2 ^ 0) with 1 in *. lia.
    - specialize (Hr Hr'). repeat split; try nia.
      intros En. rewrite En in *. change (2 ^ 0) with 1 in *.
      destruct (Hex ltac:(apply Z.divide_1_l)) as [Hf _]. congruence. }
  destruct Hm1 as (Hm1 & Hm1' & Hm10).
  destruct (shr_fexp_cases m1 e1 Hm10) as (Hn2 & _ & Hsm2 & _ & _).
  destruct (shr_fexp_spec m1 e1 Hm10) as (H0' & H53' & _ & Hlo' & _).
  destruct (shr_fexp prec emax m1 e1 loc_Exact) as [mrs'' e''].
  cbn [fst snd] in *.
  destruct (shr_m mrs'') as [| m2 | m2] eqn:Em2; try exact I.
  destruct (e'' <=? emax - prec); [| exact I].
  set (n2 := e'' - e1) in *.
  assert (Hp2 : 0 < 2 ^ n2) by (apply pow2_pos; lia).
  pose proof (Z.div_mod m1 (2 ^ n2) ltac:(lia)) as Hdm2.
  pose proof (Z.mod_pos_bound m1 (2 ^ n2) Hp2) as Hmod2.
  rewrite <- Hsm2 in Hdm2.
  assert (Hle : Z.pos m2 * 2 ^ n2 <= m1) by lia.
  assert (Epow : 2 ^ (e'' - E) = 2 ^ n2 * 2 ^ n).
  { rewrite <- pow2_split by lia. f_equal. unfold n2, n. lia. }
  rewrite Epow.
  repeat split; try lia.
  - nia.
  - intros En. assert (n = 0) by (unfold n; lia).
    rewrite (Hm1' H) in Hle. rewrite H. change (2 ^ 0) with 1. lia.
Qed.

Lemma digits_mul (a b : positive) :
  Zdigits2 (Z.pos (a * b)) <= Zdigits2 (Z.pos a) + Zdigits2 (Z.pos b).
Proof.
  rewrite Pos2Z.inj_mul.
  pose proof (digits_bound (Z.pos a) ltac:(lia)) as Ba.
  pose proof (digits_bound (Z.pos b) ltac:(lia)) as Bb.
  pose proof (digits_nonneg (Z.pos a)). pose proof (digits_nonneg (Z.pos b)).
  apply digits_le; [lia | lia |].
  rewrite Z.pow_add_r by lia. nia.
Qed.

Lemma draw_facts (a : positive) (ea : Z) :
  Z.pos a < 2 ^ 53 -> Zdigits2 (Z.pos a) + ea <= 0 ->
  Z.pos a < 2 ^ (- ea) /\ Z.pos a * 2 ^ 53 <= (2 ^ 53 - 1) * 2 ^ (- ea).
Proof.
  intros Ha Hd.
  pose proof (digits_bound (Z.pos a) ltac:(lia)) as Hb.
  assert (H1 : 1 <= Zdigits2 (Z.pos a)) by (cbn; lia).
  assert (H53 : Zdigits2 (Z.pos a) <= 53) by (apply digits_le; lia).
  assert (HP : 2 ^ Zdigits2 (Z.pos a) <= 2 ^ 53)
    by (apply Z.pow_le_mono_r; lia).
  assert (HA : 2 ^ Zdigits2 (Z.pos a) <= 2 ^ (- ea))
    by (apply Z.pow_le_mono_r; lia).
  lia.
Qed.

Lemma exponent_range (b : positive) (eb kap : Z) :
  Z.pos b < 2 ^ 53 -> -1074 <= eb -> scaled (Z.pos b) eb = kap * 2 ^ offset ->
  1 <= kap < 2 ^ 53 -> -52 <= eb <= 52.
Proof.
  intros Hb Heb Hs Hkap. unfold scaled in Hs.
  pose proof offset_large as HL. pose proof offset_pos as HW.
  pose proof (pow2_pos (eb + offset) ltac:(lia)) as Hp.
  split.
  - assert (2 ^ offset < 2 ^ (53 + (eb + offset))).
    { rewrite (pow2_split 53 (eb + offset)) by lia. nia. }
    apply pow2_lt_inv in H; lia.
  - assert (2 ^ (eb + offset) < 2 ^ (53 + offset)).
    { rewrite (pow2_split 53 offset) by lia. nia. }
    apply pow2_lt_inv in H; lia.
Qed.

(** A product with a factor below 1 stays below the other factor, also
    after rounding. *)
Lemma mul_draw (s : bool) (a b : positive) (ea eb kap : Z) :
  Z.pos a < 2 ^ 53 -> -1074 <= ea -> Zdigits2 (Z.pos a) + ea <= 0 ->
  Z.pos b < 2 ^ 53 -> -1074 <= eb ->
  scaled (Z.pos b) eb = kap * 2 ^ offset -> 1 <= kap < 2 ^ 53 ->
  match binary_round_aux prec emax s (Z.pos (a * b)) (ea + eb) loc_Exact with
  | S754_zero _ => True
  | S754_finite s' m e =>
      s' = s /\ Z.pos m < 2 ^ 53 /\ -1074 <= e
      /\ scaled (Z.pos m) e < kap * 2 ^ offset
  | _ => False
  end.
Proof.
  intros Ha Hea Hda Hb Heb Hs Hkap.
  pose proof offset_large as HL. pose proof offset_pos as HW.
  destruct (exponent_range b eb kap Hb Heb Hs Hkap) as [Heb1 Heb2].
  destruct (draw_facts a ea Ha Hda) as [HA1 HA2].
  pose proof (digits_mul a b) as HD.
  assert (Hea0 : ea < 0) by (assert (1 <= Zdigits2 (Z.pos a)) by (cbn; lia); lia).
  assert (Hdb : Zdigits2 (Z.pos b) <= 53) by (apply digits_le; lia).
  destruct (round_aux_spec s (a * b) (ea + eb) 105 ltac:(lia) ltac:(lia))
    as [Hbelow _].
  pose proof (round_aux_upper s (a * b) (ea + eb)) as Hup. cbv zeta in Hup.
  destruct (binary_round_aux prec emax s (Z.pos (a * b)) (ea + eb) loc_Exact)
    as [s' | s' | | s' m e]; try exact I; try contradiction.
  destruct Hup as (-> & Hm & He1 & Hlo & HU & Hex).
  repeat split; try assumption.
  set (E := ea + eb) in *. set (D := Zdigits2 (Z.pos (a * b))) in *.
  set (e1 := Z.max E (Z.max (D + E - 53) (-1074))) in *.
  set (T := 2 ^ (e - E)) in *. set (U := 2 ^ (e1 - E)) in *.
  set (A := 2 ^ (- ea)) in *.
  rewrite Pos2Z.inj_mul in HU, Hex.
  set (X := Z.pos a * Z.pos b) in *. set (Y := Z.pos b * A).
  assert (HXY : X < Y) by (unfold X, Y; nia).
  assert (HXY' : X * 2 ^ 53 <= (2 ^ 53 - 1) * Y) by (unfold X, Y; nia).
  assert (HAY : A <= Y) by (unfold Y; nia).
  assert (HU0 : 0 < U) by (apply pow2_pos; lia).
  assert (Hlt : Z.pos m * T < Y).
  { destruct (Z.eq_dec e1 E) as [Ee | Ee]; [specialize (Hex Ee); lia |].
    destruct (Z_le_gt_dec (-1074) (D + E - 53)) as [Hn | Hn].
    - assert (Ee1 : e1 - E = D - 53) by lia.
      pose proof (digits_lower (Z.pos (a * b)) ltac:(lia)) as Hlow.
      fold D in Hlow. rewrite Pos2Z.inj_mul in Hlow. fold X in Hlow.
      assert (EU : 2 ^ (D - 1) = U * 2 ^ 52).
      { unfold U. rewrite Ee1, <- pow2_split by lia. f_equal. lia. }
      lia.
    - assert (Ee1 : e1 - E = -1074 - E) by lia.
      assert (EA : A = U * 2 ^ 53 * 2 ^ (1021 + eb)).
      { unfold A, U. rewrite Ee1, <- !pow2_split by lia. f_equal.
        unfold E. lia. }
      assert (2 <= 2 ^ (1021 + eb)).
      { change 2 with (2 ^ 1) at 1. apply Z.pow_le_mono_r; lia. }
      assert (2 * (U * 2 ^ 53) <= A) by nia.
      lia. }
  unfold scaled in *. rewrite <- Hs.
  replace (e + offset) with ((e - E) + (E + offset)) by lia.
  rewrite (pow2_split (e - E) (E + offset)) by (unfold E; lia). fold T.
  replace (eb + offset) with ((- ea) + (E + offset)) by (unfold E; lia).
  rewrite (pow2_split (- ea) (E + offset)) by (unfold E; lia). fold A.
  pose proof (pow2_pos (E + offset) ltac:(unfold E; lia)).
  rewrite !Z.mul_assoc. apply Z.mul_lt_mono_pos_r; [assumption | exact Hlt].
Qed.

(** The floor of a number below an integer. *)
Lemma floor_value (s : bool) (m : positive) (e kap : Z) :
  Z.pos m < 2 ^ 53 -> -1074 <= e ->
  scaled (Z.pos m) e < kap * 2 ^ offset -> kap < 2 ^ 53 ->
  exists f,
    to_int (floor (S754_finite s m e)) = Some f
    /\ regular (floor (S754_finite s m e))
    /\ (s = false -> 0 <= f <= kap - 1) /\ (s = true -> - kap <= f <= 0).
Proof.
  intros Hm He Hs Hkap. unfold scaled in Hs.
  pose proof offset_large as HL. pose proof offset_pos as HW.
  cbn [floor]. destruct (0 <=? e) eqn:E0.
  - apply Z.leb_le in E0.
    rewrite (pow2_split e offset) in Hs by lia.
    pose proof (pow2_pos e E0) as Hp.
    assert (Hlt : Z.pos m * 2 ^ e < kap) by nia.
    exists (cond_Zopp s (Z.pos m * 2 ^ e)). unfold to_int.
    replace (0 <=? e) with true by (symmetry; apply Z.leb_le; exact E0).
    split; [reflexivity |].
    split; [cbn [regular]; lia |].
    split; intros ->; cbn [cond_Zopp]; nia.
  - apply Z.leb_gt in E0.
    pose proof (pow2_pos (- e) ltac:(lia)) as Hp.
    pose proof (pow2_pos (e + offset) ltac:(lia)) as Hp'.
    assert (EW : 2 ^ offset = 2 ^ (- e) * 2 ^ (e + offset)).
    { rewrite <- pow2_split by lia. f_equal. lia. }
    rewrite EW in Hs.
    assert (Hmk : Z.pos m < kap * 2 ^ (- e)) by nia.
    pose proof (Z.div_mod (Z.pos m) (2 ^ (- e)) ltac:(lia)) as Hdm.
    pose proof (Z.mod_pos_bound (Z.pos m) (2 ^ (- e)) Hp) as Hmod.
    set (q := Z.pos m / 2 ^ (- e)) in *.
    assert (Hq0 : 0 <= q) by (apply Z.div_pos; lia).
    assert (Hq : q < kap) by nia.
    destruct s.
    + set (z := - (if Z.pos m mod 2 ^ (- e) =? 0 then q else q + 1)).
      assert (Hz : - kap <= z <= 0) by (unfold z; destruct (_ =? 0); lia).
      destruct (of_int_exact z ltac:(lia)) as [H1 H2].
      exists z. split; [exact H1 |]. split; [exact H2 |].
      split; [discriminate | intros _; exact Hz].
    + destruct (of_int_exact q ltac:(lia)) as [H1 H2].
      exists q. split; [exact H1 |]. split; [exact H2 |].
      split; [intros _; lia | discriminate].
Qed.

Lemma draw_floor (x K : number) (k : Z) :
  is_draw x = true -> to_int K = Some k -> regular K -> Z.abs k < 2 ^ 53 ->
  exists f,
    to_int (floor (mul x K)) = Some f /\ regular (floor (mul x K))
    /\ (0 < k -> 0 <= f <= k - 1) /\ (k <= 0 -> k <= f <= 0).
Proof.
  intros Hx HK RK Hk.
  pose proof offset_large as HL.
  assert (Hzero : forall s, exists f,
             to_int (floor (S754_zero s)) = Some f
             /\ regular (floor (S754_zero s))
             /\ (0 < k -> 0 <= f <= k - 1) /\ (k <= 0 -> k <= f <= 0)).
  { intros s. exists 0. split; [reflexivity |]. split; [exact I |]. lia. }
  destruct K as [sk | sk | | sk b eb]; try contradiction.
  - apply to_int_zero in HK. subst k.
    destruct x as [sx | sx | | sx a ea]; try discriminate; apply Hzero.
  - destruct (scaled_of_to_int sk b eb k ltac:(cbn in RK; lia) HK)
      as (Hs & Hsign & Hpos).
    cbn [regular] in RK. destruct RK as [Hb Heb].
    destruct x as [sx | sx | | sx a ea]; try discriminate.
    + apply Hzero.
    + destruct sx; [discriminate |]. cbn [is_draw] in Hx.
      apply andb_true_iff in Hx. destruct Hx as [Hx Hd].
      apply andb_true_iff in Hx. destruct Hx as [Ha Hea].
      apply Z.ltb_lt in Ha. apply Z.leb_le in Hea, Hd.
      pose proof (mul_draw (xorb false sk) a b ea eb (Z.abs k)
                    Ha Hea Hd Hb Heb Hs ltac:(lia)) as Hmul.
      unfold mul, SFmul.
      destruct (binary_round_aux prec emax (xorb false sk) (Z.pos (a * b))
                  (ea + eb) loc_Exact) as [s | s | | s m e];
        try contradiction; [apply Hzero |].
      destruct Hmul as (-> & Hm & He & Hlt).
      destruct (floor_value (xorb false sk) m e (Z.abs k) Hm He Hlt Hk)
        as (f & Hf & Rf & H1 & H2).
      exists f. split; [exact Hf |]. split; [exact Rf |].
      destruct sk; cbn [xorb cond_Zopp] in *;
        [specialize (H2 eq_refl) | specialize (H1 eq_refl)]; lia.
Qed.

Lemma round_down_draw (n d : Z) : 0 <= n < d -> is_draw (round_down n d) = true.
Proof.
  intros Hn. unfold round_down.
  destruct (n =? 0) eqn:E0; [reflexivity |]. apply Z.eqb_neq in E0.
  pose proof (Z.log2_spec n ltac:(lia)) as [Hn1 Hn2].
  pose proof (Z.log2_spec d ltac:(lia)) as [Hd1 Hd2].
  pose proof (Z.log2_nonneg n) as Hn0. pose proof (Z.log2_nonneg d) as Hd0.
  pose proof (Z.log2_le_mono n d ltac:(lia)) as Hnd.
  set (j := Z.log2 n - Z.log2 d).
  assert (F1 : n * 2 ^ (- j) < 2 * d).
  { assert (2 ^ Z.succ (Z.log2 n) * 2 ^ (- j) = 2 * 2 ^ Z.log2 d).
    { rewrite <- pow2_split by (unfold j; lia).
      replace (Z.succ (Z.log2 n) + - j) with (1 + Z.log2 d) by (unfold j; lia).
      rewrite pow2_split by lia. reflexivity. }
    pose proof (pow2_pos (- j) ltac:(unfold j; lia)). nia. }
  set (f := if d <=? n * 2 ^ (- j) then j else j - 1).
  assert (F2 : f <= 0 /\ n * 2 ^ (- f) < 2 * d).
  { unfold f. destruct (d <=? n * 2 ^ (- j)) eqn:Ed.
    - split; [unfold j; lia | exact F1].
    - apply Z.leb_gt in Ed. split; [unfold j; lia |].
      replace (- (j - 1)) with (1 + - j) by lia.
      rewrite pow2_split by (unfold j; lia). change (2 ^ 1) with 2. lia. }
  destruct F2 as [Hf F2].
  set (e := Z.max (f - 52) (-1074)).
  assert (He : e < 0) by lia.
  assert (Hp : 0 < 2 ^ (- e)) by (apply pow2_pos; lia).
  assert (Hpe : 2 ^ (- e) <= 2 ^ 52 * 2 ^ (- f)).
  { rewrite <- pow2_split by lia. apply Z.pow_le_mono_r; lia. }
  pose proof (pow2_pos (- f) ltac:(lia)) as Hpf.
  destruct (n * 2 ^ (- e) / d) as [| m | m] eqn:Em; try reflexivity.
  cbn [is_draw].
  assert (H53 : Z.pos m < 2 ^ 53).
  { rewrite <- Em. apply Z.div_lt_upper_bound; [lia | nia]. }
  assert (Hd : Zdigits2 (Z.pos m) <= - e).
  { apply digits_le; [lia | lia |].
    rewrite <- Em. apply Z.div_lt_upper_bound; [lia | nia]. }
  apply andb_true_iff. split; [apply andb_true_iff; split |].
  - apply Z.ltb_lt. exact H53.
  - apply Z.leb_le. lia.
  - apply Z.leb_le. lia.
Qed.

Lemma random_of_draw (r : Q) : is_draw (random_of r) = true.
Proof.
  unfold random_of. apply round_down_draw.
  apply Z.mod_pos_bound. lia.
Qed.

(** With safe integer bounds whose difference binary64 holds exactly, and
    a draw, the speed is an integer between the bounds. *)
Theorem speed_number_range (x : number) (minSpeed maxSpeed : safe_int) :
  is_draw x = true -> Z.abs (maxSpeed - minSpeed) < 2 ^ 53 - 1 ->
  exists speed,
    to_int (speed_number x (of_int minSpeed) (of_int maxSpeed)) = Some speed
    /\ (minSpeed <= maxSpeed -> minSpeed <= speed <= maxSpeed)
    /\ (maxSpeed < minSpeed -> maxSpeed + 1 <= speed <= minSpeed).
Proof.
  intros Hx Hk.
  assert (Sn : Z.abs minSpeed < 2 ^ 53).
  { pose proof (int_safe minSpeed) as H. unfold is_safe, MAX_SAFE_INTEGER in H.
    apply Z.leb_le in H. lia. }
  assert (Sx : Z.abs maxSpeed < 2 ^ 53).
  { pose proof (int_safe maxSpeed) as H. unfold is_safe, MAX_SAFE_INTEGER in H.
    apply Z.leb_le in H. lia. }
  destruct (of_int_exact minSpeed Sn) as [Hn Rn].
  destruct (of_int_exact maxSpeed Sx) as [Hm Rm].
  destruct (of_int_exact 1 ltac:(lia)) as [H1 R1]. fold one in H1, R1.
  destruct (sub_exact _ _ _ _ Hm Rm Hn Rn ltac:(lia)) as [Hk1 Rk1].
  destruct (add_exact _ _ _ _ Hk1 Rk1 H1 R1 ltac:(lia)) as [Hk2 Rk2].
  destruct (draw_floor x _ _ Hx Hk2 Rk2 ltac:(lia))
    as (f & Hf & Rf & Hpos & Hneg).
  assert (Hrange : (minSpeed <= maxSpeed -> 0 <= f <= maxSpeed - minSpeed)
                   /\ (maxSpeed < minSpeed -> maxSpeed - minSpeed + 1 <= f <= 0))
    by lia.
  destruct (add_exact _ _ _ _ Hf Rf Hn Rn ltac:(lia)) as [Hs _].
  exists (f + minSpeed). split; [exact Hs | lia].
Qed.

(** Every positive binary64 number below 1 is a draw. *)
Lemma valid_draw (m : positive) (e : Z) :
  valid_binary prec emax (S754_finite false m e) = true ->
  lt (S754_finite false m e) one = true ->
  is_draw (S754_finite false m e) = true.
Proof.
  intros Hv H1.
  cbn [valid_binary] in Hv. unfold bounded, canonical_mantissa in Hv.
  apply andb_true_iff in Hv. destruct Hv as [Hc _].
  apply Z.eqb_eq in Hc. rewrite fexp_eq in Hc.
  change (Z.pos (digits2_pos m)) with (Zdigits2 (Z.pos m)) in Hc.
  pose proof (digits_bound (Z.pos m) ltac:(lia)) as Hb.
  assert (Hd : Zdigits2 (Z.pos m) <= 53) by lia.
  assert (Hm : Z.pos m < 2 ^ 53).
  { assert (2 ^ Zdigits2 (Z.pos m) <= 2 ^ 53)
      by (apply Z.pow_le_mono_r; lia).
    lia. }
  assert (He : Zdigits2 (Z.pos m) + e <= 0).
  { unfold lt, SFltb in H1.
    change one with (S754_finite false 4503599627370496 (-52)) in H1.
    cbn [SFcompare] in H1.
    destruct (e ?= -52) eqn:Ee; try discriminate.
    - apply Z.compare_eq in Ee. subst e.
      rewrite Pos.compare_cont_spec in H1. cbn [Pos.switch_Eq] in H1.
      destruct (m ?= 4503599627370496)%positive eqn:Em; try discriminate.
      assert (Hlt : Z.pos m < 4503599627370496)
        by (apply Pos2Z.pos_lt_pos; exact Em).
      assert (Zdigits2 (Z.pos m) <= 52) by (apply digits_le; lia). lia.
    - assert (e < -52) by exact Ee. lia. }
  cbn [is_draw].
  apply andb_true_iff. split; [apply andb_true_iff; split |].
  - apply Z.ltb_lt. exact Hm.
  - apply Z.leb_le. lia.
  - apply Z.leb_le. exact He.
Qed.

End NumberFacts.

(** ** The streaming hook *)

Module StreamFacts.

Import SmartStream.

Lemma charsToAdd_pos (r : Q) (mn mx : safe_int) :
  (1 <= charsToAdd r mn mx)%Z.
Proof. unfold charsToAdd. lia. Qed.

Lemma consistent_mount (p : props) : consistent (mount p).
Proof.
  unfold mount, effect_target, effect_streaming. simpl.
  replace (len (fullText p) <? 0)%Z with false
    by (symmetry; apply Z.ltb_ge; unfold len; lia).
  simpl. destruct (isStreaming p) eqn:E; simpl.
  - constructor; simpl; unfold len; simpl; try lia; auto. congruence.
  - constructor; simpl; unfold len; simpl; try lia; auto.
Qed.

Lemma consistent_tick (r : Q) (h : hook) : consistent h -> consistent (tick r h).
Proof.
  intros [H1 H2 H3 H4 H5]. unfold tick.
  destruct (indexRef h <? len (fullTextRef h))%Z eqn:E.
  - apply Z.ltb_lt in E.
    pose proof (charsToAdd_pos r (minSpeed (args h)) (maxSpeed (args h))) as Hc.
    constructor; simpl; try lia.
    + assumption.
    + rewrite <- H1. lia.
    + apply len_slice. lia.
    + intros Hs. specialize (H5 Hs). rewrite H5 in H4. rewrite H1 in E. lia.
  - constructor; assumption.
Qed.

Lemma consistent_render (p : props) (h : hook) :
  consistent h -> consistent (render p h).
Proof.
  intros [H1 H2 H3 H4 H5]. unfold render.
  destruct (str_eqb (fullText p) (fullText (args h))) eqn:Et; simpl.
  - apply str_eqb_eq in Et. rewrite orb_false_r.
    destruct (Bool.eqb (isStreaming p) (isStreaming (args h))) eqn:Ef; simpl.
    + apply eqb_prop in Ef.
      constructor; simpl; rewrite ?Et, ?Ef; auto.
    + unfold effect_streaming; simpl.
      destruct (isStreaming p) eqn:Ep; simpl.
      * constructor; simpl; rewrite ?Et; auto. congruence.
      * constructor; simpl; rewrite ?Et; auto; unfold len; try lia.
        rewrite H1. reflexivity.
  - rewrite orb_true_r. unfold effect_target, effect_streaming; simpl.
    destruct (len (fullText p) <? indexRef h)%Z eqn:El; simpl;
      destruct (isStreaming p) eqn:Ep; simpl;
      constructor; simpl; auto; unfold len in *; try lia; try congruence.
Qed.

Lemma reachable_consistent (h : hook) : reachable h -> consistent h.
Proof.
  induction 1 as [p | e h _ IH].
  - apply consistent_mount.
  - destruct e; simpl; [apply consistent_render | apply consistent_tick]; exact IH.
Qed.

Lemma reachable_run (es : list event) (h : hook) :
  reachable h -> reachable (run es h).
Proof.
  revert h. induction es as [|e es IH]; intros h Hh; simpl; auto.
  apply IH. constructor. exact Hh.
Qed.

Lemma tick_idle (r : Q) (h : hook) :
  (len (fullTextRef h) <= indexRef h)%Z -> tick r h = h.
Proof.
  intros H. unfold tick.
  replace (indexRef h <? len (fullTextRef h))%Z with false
    by (symmetry; apply Z.ltb_ge; exact H).
  reflexivity.
Qed.

Lemma ticks_idle (rs : list Q) (h : hook) :
  (len (fullTextRef h) <= indexRef h)%Z -> run (map Tick rs) h = h.
Proof.
  intros H. induction rs as [|r rs IH]; simpl; auto.
  rewrite tick_idle by exact H. exact IH.
Qed.

Lemma tick_synced (r : Q) (h : hook) :
  consistent h -> synced h -> synced (tick r h).
Proof.
  intros [H1 _ _ _ _] Hs. unfold synced, tick in *.
  destruct (indexRef h <? len (fullTextRef h))%Z; simpl; auto.
  rewrite H1. reflexivity.
Qed.

(** From a state whose buffer is the prefix at the cursor, as many ticks as
    there are code units left reveal the whole target. *)
Lemma ticks_reveal_all (rs : list Q) (h : hook) :
  consistent h -> synced h ->
  (len (fullTextRef h) - indexRef h <= Z.of_nat (length rs))%Z ->
  indexRef (run (map Tick rs) h) = len (fullTextRef h)
  /\ displayBuffer (run (map Tick rs) h) = fullTextRef h.
Proof.
  revert h. induction rs as [|r rs IH]; intros h Hc Hs Hn.
  - destruct Hc as [H1 H2 H3 H4 H5]. simpl in *.
    assert (E : indexRef h = len (fullTextRef h)) by (rewrite H1 in *; lia).
    split; [exact E|]. unfold synced in Hs.
    rewrite Hs, <- H1, E. apply slice_all.
  - cbn [map run fold_left step].
    assert (Hr : fullTextRef (tick r h) = fullTextRef h)
      by (unfold tick; destruct (_ <? _)%Z; reflexivity).
    rewrite <- Hr.
    apply IH; [apply consistent_tick, Hc | apply tick_synced; assumption|].
    rewrite Hr. simpl length in Hn.
    unfold tick. destruct (indexRef h <? len (fullTextRef h))%Z eqn:E; simpl.
    + pose proof (charsToAdd_pos r (minSpeed (args h)) (maxSpeed (args h))).
      lia.
    + apply Z.ltb_ge in E. lia.
Qed.

Lemma render_args (p : props) (h : hook) : args (render p h) = p.
Proof.
  unfold render, effect_target, effect_streaming.
  repeat (match goal with |- context [if ?b then _ else _] => destruct b end;
          simpl); reflexivity.
Qed.

(** After a render with streaming off, the whole target is displayed. *)
Lemma render_reveals (p : props) (h : hook) :
  reachable h -> isStreaming p = false ->
  displayBuffer (render p h) = fullText p /\
  indexRef (render p h) = len (fullText p) /\
  fullTextRef (render p h) = fullText p.
Proof.
  intros Hr Hp.
  assert (Hc : consistent (render p h))
    by (apply consistent_render, reachable_consistent, Hr).
  destruct Hc as [H1 H2 H3 H4 H5]. rewrite render_args in *.
  specialize (H5 Hp). rewrite H5 in H4. auto.
Qed.

(** A render whose target is shorter than the cursor publishes the new target
    whole. *)
Lemma render_truncates (p : props) (h : hook) :
  reachable h -> (len (fullText p) < indexRef h)%Z ->
  displayBuffer (render p h) = fullText p /\
  indexRef (render p h) = len (fullText p) /\
  fullTextRef (render p h) = fullText p.
Proof.
  intros Hr Hlt. destruct (reachable_consistent h Hr) as [H1 H2 H3 H4 H5].
  unfold render.
  destruct (str_eqb (fullText p) (fullText (args h))) eqn:Et.
  - apply str_eqb_eq in Et. rewrite Et in Hlt. lia.
  - simpl. rewrite orb_true_r. unfold effect_target. simpl.
    apply Z.ltb_lt in Hlt. rewrite Hlt. unfold effect_streaming. simpl.
    destruct (isStreaming p); simpl; auto.
Qed.

End StreamFacts.

(** ** Claims about the streaming hook *)

Module StreamClaims.

Import SmartStream StreamFacts.

(** C5. A tick with the cursor before the end of the target moves the cursor
    forward by [max(1, speed)], at least one and never past the end of the
    target, and publishes the prefix of that length; a tick with the cursor
    at or past the end leaves the state as it is. *)
Theorem C5_tick_progress (r : Q) (h : hook) :
  let T := fullTextRef h in
  let c := indexRef h in
  let h' := tick r h in
  ((c < len T)%Z ->
     indexRef h'
       = Z.min (c + Z.max 1 (draw_speed r (minSpeed (args h))
                               (maxSpeed (args h)))) (len T)
     /\ (c + 1 <= indexRef h')%Z
     /\ (indexRef h' <= len T)%Z
     /\ (len (displayBuffer h') <= len T)%Z
     /\ fullTextRef h' = T
     /\ ((0 <= c)%Z ->
         displayBuffer h' = firstn (Z.to_nat (indexRef h')) T
         /\ len (displayBuffer h') = indexRef h'))
  /\ ((len T <= c)%Z -> h' = h).
Proof.
  intros T c h'. split.
  - intros Hlt. subst h'. unfold tick. fold T c.
    pose proof Hlt as Hb. apply Z.ltb_lt in Hb. rewrite Hb. simpl.
    pose proof (charsToAdd_pos r (minSpeed (args h)) (maxSpeed (args h))) as Hc.
    unfold charsToAdd in *.
    repeat split; try lia.
    + apply len_slice_le.
    + apply slice_prefix. lia.
    + apply len_slice. lia.
  - intros Hge. apply tick_idle. exact Hge.
Qed.

Lemma C5_tick_progress_witness :
  indexRef (tick (1 # 2) (mount (demo "hello" true 1 3))) = 2%Z
  /\ displayBuffer (tick (1 # 2) (mount (demo "hello" true 1 3))) = js "he"
  /\ tick (1 # 2) (mount (demo "hello" false 1 3))
     = mount (demo "hello" false 1 3).
Proof.
  destruct (C5_tick_progress (1 # 2) (mount (demo "hello" true 1 3)))
    as [Hadv _].
  destruct (C5_tick_progress (1 # 2) (mount (demo "hello" false 1 3)))
    as [_ Hidle].
  destruct Hadv as (H1 & _ & _ & _ & _ & H2); [vm_compute; reflexivity|].
  destruct H2 as [H2 _]; [vm_compute; discriminate|].
  split; [exact H1|]. split; [exact H2|].
  apply Hidle. vm_compute. discriminate.
Defined.

(** C10 fails as stated: a bound that is NaN makes the speed, the step and
    the cursor NaN, so the cursor is neither advanced nor within the target;
    and so do integer bounds so far apart that their difference overflows,
    with a draw of 0. *)
Lemma C10_nan_cursor :
  let next := nextCursor_number (random_of (1 # 2)) NaN (of_int 3)
                (of_int 0) 5 in
  lt (of_int 0) (of_int 5) = true
  /\ next = NaN
  /\ le (add (of_int 0) one) next = false
  /\ le next (of_int 5) = false
  /\ nextCursor_number (random_of 0) (of_int (- 2 ^ 1023))
       (of_int (2 ^ 1023)) (of_int 0) 5 = NaN.
Proof. vm_compute. repeat split; reflexivity. Qed.

(** C10, amended.  Whatever the speed bounds among the safe integers
    (inverted, zero or negative bounds included) and whatever the random
    draw, the step of a tick is at least one, a tick never moves the cursor
    back, and a tick with the cursor before the end of the target moves it
    forward, at most to the end. *)
Theorem C10_progress_any_speed (mn mx : safe_int) (r : Q) (s : bool)
    (T D R : str) (c : Z) :
  let h := {| args := {| fullText := T; isStreaming := s;
                         minSpeed := mn; maxSpeed := mx |};
              displayBuffer := D; fullTextRef := R; indexRef := c |} in
  (1 <= charsToAdd r mn mx)%Z
  /\ (c <= indexRef (tick r h))%Z
  /\ ((c < len R)%Z ->
      (c < indexRef (tick r h))%Z /\ (indexRef (tick r h) <= len R)%Z
      /\ indexRef (tick r h) = Z.min (c + charsToAdd r mn mx) (len R)).
Proof.
  intros h. pose proof (charsToAdd_pos r mn mx) as Hc.
  split; [exact Hc|]. unfold tick. subst h. simpl.
  destruct (c <? len R)%Z eqn:E; simpl.
  - apply Z.ltb_lt in E. repeat split; try lia.
  - apply Z.ltb_ge in E. split; [lia|]. intros. lia.
Qed.

Lemma C10_progress_any_speed_witness :
  charsToAdd (1 # 2) (safe 0) (safe (-7)) = 1%Z
  /\ indexRef (tick (1 # 2)
       {| args := demo "abc" true 0 (-7); displayBuffer := js "a";
          fullTextRef := js "abc"; indexRef := 1 |}) = 2%Z.
Proof.
  split; [vm_compute; reflexivity|].
  destruct (C10_progress_any_speed (safe 0) (safe (-7)) (1 # 2) true
              (js "abc") (js "a") (js "abc") 1) as (_ & _ & H).
  destruct H as (_ & _ & H); [vm_compute; reflexivity|].
  unfold demo. rewrite H. vm_compute. reflexivity.
Defined.

(** C6. A render with streaming off sets the cursor to the length of the
    target and publishes the whole target, wherever the cursor was, and every
    tick that follows leaves both as they are. *)
Theorem C6_full_reveal (h : hook) (p : props) (rs : list Q) :
  reachable h -> isStreaming p = false ->
  let h' := render p h in
  let h'' := run (map Tick rs) h' in
  indexRef h' = len (fullText p) /\ displayBuffer h' = fullText p
  /\ indexRef h'' = len (fullText p) /\ displayBuffer h'' = fullText p.
Proof.
  intros Hr Hp h' h''.
  destruct (render_reveals p h Hr Hp) as (HD & Hi & HR). fold h' in HD, Hi, HR.
  assert (E : h'' = h') by (apply ticks_idle; rewrite HR, Hi; lia).
  rewrite E. auto.
Qed.

Lemma C6_full_reveal_witness :
  let h := tick (1 # 2) (mount (demo "hello" true 1 3)) in
  let h'' := run [Tick (1 # 3); Tick (2 # 3)]
               (render (demo "hello" false 1 3) h) in
  indexRef h = 2%Z /\ displayBuffer h'' = js "hello".
Proof.
  intros h h''. split; [vm_compute; reflexivity|].
  refine (proj2 (proj2 (proj2
    (C6_full_reveal h (demo "hello" false 1 3)
       [(1 # 3)%Q; (2 # 3)%Q] _ _)))).
  - apply (reach_step (Tick (1 # 2))), reach_mount.
  - reflexivity.
Defined.

(** C7. A render whose target [U] is shorter than the cursor sets the cursor
    to the length of [U] and publishes [U[0:min(c, length U)]], which is [U],
    in that same render; no tick that follows moves the cursor past the
    length of [U]. *)
Theorem C7_truncation (h : hook) (p : props) (rs : list Q) :
  reachable h -> (len (fullText p) < indexRef h)%Z ->
  let U := fullText p in
  let c := indexRef h in
  let h' := render p h in
  indexRef h' = len U
  /\ displayBuffer h' = slice U 0 (Z.min c (len U))
  /\ displayBuffer h' = U
  /\ (indexRef (run (map Tick rs) h') <= len U)%Z
  /\ displayBuffer (run (map Tick rs) h') = U.
Proof.
  intros Hr Hlt U c h'.
  destruct (render_truncates p h Hr Hlt) as (HD & Hi & HR).
  fold h' U in HD, Hi, HR.
  assert (E : run (map Tick rs) h' = h')
    by (apply ticks_idle; rewrite HR, Hi; lia).
  rewrite E, Hi, HD. repeat split; try lia.
  rewrite Z.min_r by (subst c U; lia). symmetry. apply slice_all.
Qed.

Lemma C7_truncation_witness :
  let h := run [Tick (1 # 2); Tick (1 # 2)] (mount (demo "hello" true 1 3)) in
  indexRef h = 4%Z
  /\ displayBuffer (render (demo "hi" true 1 3) h) = js "hi".
Proof.
  intros h. split; [vm_compute; reflexivity|].
  refine (proj1 (proj2 (proj2
    (C7_truncation h (demo "hi" true 1 3) [] _ _)))).
  - apply (reachable_run [Tick (1 # 2); Tick (1 # 2)]), reach_mount.
  - vm_compute. reflexivity.
Defined.

(** C2 fails as stated: with streaming on, a render whose target is not
    shorter than the cursor leaves the display buffer as it was, so after a
    same-length replacement the buffer is a prefix of the old target. *)
Lemma C2_stale_after_replacement :
  let h := run [Tick (1 # 2); Tick (1 # 2); Render (demo "xyz" true 1 3)]
             (mount (demo "abc" true 1 3)) in
  reachable h
  /\ fullText (args h) = js "xyz" /\ indexRef h = 3%Z
  /\ displayBuffer h = js "abc"
  /\ ~ synced h.
Proof.
  intros h. split; [|split; [|split; [|split]]].
  - apply (reachable_run
             [Tick (1 # 2); Tick (1 # 2); Render (demo "xyz" true 1 3)]),
      reach_mount.
  - vm_compute. reflexivity.
  - vm_compute. reflexivity.
  - vm_compute. reflexivity.
  - unfold synced. vm_compute. discriminate.
Qed.

(** C2, amended.  The display buffer always has the length of the cursor, and
    the cursor lies within the target.  The buffer is the prefix [T[0:c]] at
    mount, after every tick that advances, after every render with streaming
    off and after every render whose target is shorter than the cursor; a tick
    that does not advance keeps it so, and so does a render whose target
    agrees with the previous one on the first [c] code units (a target that
    only grew at its end, for one). *)
Theorem C2_display_prefix (h : hook) :
  reachable h ->
  let c := indexRef h in
  len (displayBuffer h) = c /\ (0 <= c <= len (fullText (args h)))%Z
  /\ (forall p, synced (mount p))
  /\ (forall r, (c < len (fullText (args h)))%Z \/ synced h ->
                synced (tick r h))
  /\ (forall p, isStreaming p = false -> synced (render p h))
  /\ (forall p, (len (fullText p) < c)%Z -> synced (render p h))
  /\ (forall p, synced h ->
                firstn (Z.to_nat c) (fullText p)
                = firstn (Z.to_nat c) (fullText (args h)) ->
                synced (render p h)).
Proof.
  intros Hr c. destruct (reachable_consistent h Hr) as [H1 H2 H3 H4 H5].
  fold c in H2, H3, H4.
  split; [exact H4|]. split; [lia|]. split; [|split; [|split; [|split]]].
  - intros p. unfold synced, mount, effect_target, effect_streaming. simpl.
    replace (len (fullText p) <? 0)%Z with false
      by (symmetry; apply Z.ltb_ge; unfold len; lia).
    simpl. destruct (isStreaming p); simpl.
    + symmetry. apply slice_prefix. unfold len. lia.
    + symmetry. apply slice_all.
  - intros r Hor. unfold synced, tick. rewrite H1. fold c.
    destruct (c <? len (fullText (args h)))%Z eqn:E; simpl.
    + reflexivity.
    + destruct Hor as [Hlt | Hs]; [apply Z.ltb_ge in E; lia | exact Hs].
  - intros p Hp. destruct (render_reveals p h Hr Hp) as (HD & Hi & _).
    unfold synced. rewrite render_args, HD, Hi. symmetry. apply slice_all.
  - intros p Hlt. destruct (render_truncates p h Hr Hlt) as (HD & Hi & _).
    unfold synced. rewrite render_args, HD, Hi. symmetry. apply slice_all.
  - intros p Hs Hpre. unfold synced in *.
    rewrite slice_prefix in Hs by (fold c; lia). fold c in Hs.
    destruct (isStreaming p) eqn:Ep;
      [|destruct (render_reveals p h Hr Ep) as (HD & Hi & _);
        rewrite render_args, HD, Hi; symmetry; apply slice_all].
    destruct (Z.ltb_spec (len (fullText p)) c) as [Hlt | Hge];
      [destruct (render_truncates p h Hr Hlt) as (HD & Hi & _);
       rewrite render_args, HD, Hi; symmetry; apply slice_all|].
    rewrite render_args.
    assert (E : displayBuffer (render p h) = displayBuffer h
                /\ indexRef (render p h) = c).
    { apply Z.ltb_ge in Hge. unfold c in Hge. unfold render, effect_target, effect_streaming.
      destruct (str_eqb (fullText p) (fullText (args h)));
        destruct (Bool.eqb (isStreaming p) (isStreaming (args h)));
        simpl; rewrite ?Hge; simpl; rewrite ?Ep; simpl; auto. }
    destruct E as [-> ->]. rewrite slice_prefix by lia.
    rewrite Hs. symmetry. exact Hpre.
Qed.

Lemma C2_display_prefix_witness :
  let h := tick (1 # 2) (mount (demo "hello" true 1 3)) in
  indexRef h = 2%Z
  /\ synced (tick (1 # 3) h)
  /\ synced (render (demo "hello world" false 1 3) h)
  /\ synced (render (demo "h" true 1 3) h)
  /\ synced (render (demo "hello world" true 1 3) h).
Proof.
  intros h.
  assert (Hr : reachable h) by apply (reach_step (Tick (1 # 2))), reach_mount.
  destruct (C2_display_prefix h Hr) as (_ & _ & _ & Ht & Hoff & Hshort & Hgrow).
  split; [vm_compute; reflexivity|].
  split; [apply Ht; left; vm_compute; reflexivity|].
  split; [apply Hoff; reflexivity|].
  split; [apply Hshort; vm_compute; reflexivity|].
  apply Hgrow; [|vm_compute; reflexivity].
  unfold synced. vm_compute. reflexivity.
Defined.

End StreamClaims.

(** ** The patterns of the repair *)

Module RepairFacts.

Lemma strip_prefix_app (l s : str) : strip_prefix l (l ++ s) = Some s.
Proof.
  induction l as [|c l IH]; simpl; auto. rewrite N.eqb_refl. exact IH.
Qed.

Lemma strip_prefix_some (l s s' : str) :
  strip_prefix l s = Some s' -> s = l ++ s'.
Proof.
  revert s. induction l as [|c l IH]; intros s; simpl.
  - intros [= ->]. reflexivity.
  - destruct s as [|x s]; [discriminate|].
    destruct (x =? c)%N eqn:E; [|discriminate].
    apply N.eqb_eq in E. subst x. intros H. f_equal. apply IH, H.
Qed.

(** A character that does not occur in [l] ends the search for [l]. *)
Lemma strip_prefix_barrier (l s y : str) (t : cu) :
  forallb (not_char t) l = true ->
  strip_prefix l (s ++ t :: y)
  = option_map (fun s' => s' ++ t :: y) (strip_prefix l s).
Proof.
  revert s. induction l as [|c l IH]; intros s Hl; simpl; auto.
  simpl in Hl. apply andb_true_iff in Hl. destruct Hl as [Hc Hl].
  destruct s as [|x s]; simpl.
  - unfold not_char in Hc. rewrite N.eqb_sym.
    destruct (c =? t)%N; [discriminate | reflexivity].
  - destruct (x =? c)%N; [apply IH, Hl | reflexivity].
Qed.

(** A literal matches exactly its own text. *)
Lemma exec_lit (l s : str) (caps : list str) k :
  exec (lit l) s caps k
  = match strip_prefix l s with
    | Some s' => k s' caps
    | None => None
    end.
Proof.
  revert s. induction l as [|c l IH]; intros s; [reflexivity|].
  destruct l as [|c' l].
  - simpl. destruct s as [|x s]; [reflexivity|].
    destruct (x =? c)%N; reflexivity.
  - change (lit (c :: c' :: l)) with (Cat (Chr c) (lit (c' :: l))).
    cbn [exec]. destruct s as [|x s]; [reflexivity|].
    cbn [strip_prefix]. destruct (x =? c)%N; [apply IH | reflexivity].
Qed.

Lemma match_here_le (r : regex) (s : str) (n : nat) (caps : list str) :
  match_here r s = Some (n, caps) -> n <= length s.
Proof.
  unfold match_here.
  destruct (exec r s [] (fun s' caps0 => Some (s', caps0))) as [[s' c]|];
    [|discriminate].
  intros [= <- _]. lia.
Qed.

Lemma test_suffix (r : regex) (pre s : str) :
  match_here r s <> None -> test r (pre ++ s) = true.
Proof.
  intros H. induction pre as [|c pre IH]; simpl.
  - destruct s; simpl; destruct (match_here r _); congruence.
  - destruct (match_here r (c :: pre ++ s)); auto.
Qed.

Lemma star_greedy_all (A : Type) (p : cu -> bool) (k : str -> option A)
    (s : str) (res : A) :
  forallb p s = true -> k [] = Some res -> star_greedy p k s = Some res.
Proof.
  intros Hs Hk. induction s as [|x s IH]; simpl; auto.
  simpl in Hs. apply andb_true_iff in Hs. destruct Hs as [Hx Hs].
  rewrite Hx, (IH Hs). reflexivity.
Qed.

(** *** [/\*\*[^\*]*\s*$/] *)

Lemma bold_match_here (body : str) :
  no_star body = true -> match_here re_bold (js "**" ++ body) <> None.
Proof.
  intros Hb. unfold match_here, re_bold. cbn [exec].
  rewrite exec_lit, strip_prefix_app. cbn [exec].
  rewrite star_greedy_all with (res := (@nil cu, @nil str));
    [discriminate | exact Hb | reflexivity].
Qed.

(** *** [trimEnd] *)

(** [trimEnd] removes a suffix of white space, and what it returns does not
    end in white space. *)
Lemma trimEnd_spec (s : str) :
  (exists ws, s = trimEnd s ++ ws /\ forallb is_space ws = true)
  /\ (forall t c, trimEnd s = t ++ [c] -> is_space c = false).
Proof.
  induction s as [|x s [(ws & Hs & Hws) Hlast]].
  - split; [exists []; auto | intros [|? ?] c' H; simpl in H; discriminate H].
  - simpl. destruct (trimEnd s) as [|y t'] eqn:E.
    + destruct (is_space x) eqn:Ex.
      * split; [|intros [|? ?] c' H; simpl in H; discriminate H].
        exists (x :: s). simpl in *. subst ws. rewrite Ex, Hws. auto.
      * split; [exists s; simpl in *; subst ws; auto|].
        intros [|z t] c'; simpl; [intros [= <-]; exact Ex|].
        intros [= _ H]. destruct t; discriminate H.
    + split; [exists ws; simpl; split; [f_equal; exact Hs | exact Hws]|].
      intros [|z t] c'; simpl; [intros H; destruct t'; discriminate H|].
      intros [= _ H]. apply (Hlast t c'), H.
Qed.

(** *** [/!!!(.*?)!!!/g] *)

Lemma star_lazy_unfold (A : Type) (p : cu -> bool) (k : str -> option A)
    (s : str) :
  star_lazy p k s
  = match k s with
    | Some r => Some r
    | None =>
        match s with
        | x :: s' => if p x then star_lazy p k s' else None
        | [] => None
        end
    end.
Proof. destruct s; reflexivity. Qed.

Lemma find_close_unfold (s : str) :
  find_close s
  = match strip_prefix (js "!!!") s with
    | Some _ => Some O
    | None =>
        match s with
        | x :: s' => if any_char x then option_map S (find_close s') else None
        | [] => None
        end
    end.
Proof. destruct s; reflexivity. Qed.

Lemma find_close_some (s : str) (n : nat) :
  find_close s = Some n ->
  exists rest, s = firstn n s ++ js "!!!" ++ rest
               /\ skipn (n + 3) s = rest
               /\ forallb any_char (firstn n s) = true.
Proof.
  revert n. induction s as [|x s IH]; intros n; rewrite find_close_unfold.
  - discriminate.
  - destruct (strip_prefix (js "!!!") (x :: s)) as [rest|] eqn:E.
    + intros [= <-]. exists rest. apply strip_prefix_some in E.
      rewrite E. auto.
    + destruct (any_char x) eqn:Ex; [|discriminate].
      destruct (find_close s) as [m|]; [|discriminate].
      intros [= <-]. destruct (IH m eq_refl) as (rest & H1 & H2 & H3).
      exists rest. simpl. rewrite Ex, H3. repeat split; auto.
      f_equal. exact H1.
Qed.

Lemma find_close_bound (s : str) (n : nat) :
  find_close s = Some n -> n + 3 <= length s.
Proof.
  intros H. destruct (find_close_some s n H) as (rest & _ & H2 & _).
  destruct (Nat.le_gt_cases (n + 3) (length s)) as [Hle | Hgt]; auto.
  apply find_close_some in H. destruct H as (rest' & H1 & _ & _).
  apply (f_equal (@length cu)) in H1.
  rewrite !length_app, length_firstn in H1. simpl in H1. lia.
Qed.

Lemma bang_not_terminator (t : cu) :
  is_line_terminator t = true -> forallb (not_char t) (js "!!!") = true.
Proof.
  intros Ht.
  change (forallb (not_char t) (js "!!!"))
    with (negb (BANG =? t)%N && (negb (BANG =? t)%N
          && (negb (BANG =? t)%N && true))).
  destruct (N.eqb_spec BANG t) as [<- | _]; [discriminate Ht | reflexivity].
Qed.

(** A line terminator ends the search for the closing delimiter. *)
Lemma find_close_barrier (s y : str) (t : cu) :
  is_line_terminator t = true -> find_close (s ++ t :: y) = find_close s.
Proof.
  intros Ht.
  pose proof (bang_not_terminator t Ht) as Hb.
  induction s as [|x s IH].
  - rewrite (find_close_unfold ([] ++ t :: y)).
    rewrite (strip_prefix_barrier (js "!!!") [] y t Hb).
    simpl. unfold any_char. rewrite Ht. reflexivity.
  - rewrite (find_close_unfold (x :: s)).
    change ((x :: s) ++ t :: y) with (x :: s ++ t :: y).
    rewrite (find_close_unfold (x :: s ++ t :: y)).
    change (x :: s ++ t :: y) with ((x :: s) ++ t :: y) at 1.
    rewrite (strip_prefix_barrier (js "!!!") (x :: s) y t Hb).
    destruct (strip_prefix (js "!!!") (x :: s)); simpl; [reflexivity|].
    rewrite IH. reflexivity.
Qed.

Lemma star_lazy_close (s2 pre s' : str) :
  s2 = pre ++ s' ->
  star_lazy (A := result) any_char
    (fun s0 => exec (lit (js "!!!")) s0
                 [firstn (length s2 - length s0) s2]
                 (fun s1 caps => Some (s1, caps))) s'
  = match find_close s' with
    | Some n => Some (skipn (n + 3) s', [firstn (length pre + n) s2])
    | None => None
    end.
Proof.
  revert pre. induction s' as [|x s' IH]; intros pre E;
    rewrite star_lazy_unfold, exec_lit, find_close_unfold.
  - reflexivity.
  - destruct (strip_prefix (js "!!!") (x :: s')) as [s3|] eqn:E3.
    + apply strip_prefix_some in E3. rewrite E3 at 2. simpl skipn.
      rewrite E, length_app, Nat.add_0_r. simpl app.
      rewrite Nat.add_sub. reflexivity.
    + destruct (any_char x); [|reflexivity].
      rewrite (IH (pre ++ [x])) by (rewrite <- app_assoc; exact E).
      destruct (find_close s') as [n|]; [|reflexivity]. simpl.
      rewrite length_app. simpl.
      replace (length pre + 1 + n) with (length pre + S n) by lia.
      reflexivity.
Qed.

(** What a match of the directive pattern at the head of [s] is: the opening
    delimiter, the shortest content free of line terminators, the closing
    delimiter. *)
Lemma spoiler_match_here (s : str) :
  match_here re_spoiler s
  = match strip_prefix (js "!!!") s with
    | Some s2 =>
        match find_close s2 with
        | Some n => Some (n + 6, [firstn n s2])
        | None => None
        end
    | None => None
    end.
Proof.
  unfold match_here, re_spoiler. cbn [exec]. rewrite exec_lit.
  destruct (strip_prefix (js "!!!") s) as [s2|] eqn:E; [|reflexivity].
  cbn [app]. rewrite (star_lazy_close s2 [] s2 eq_refl).
  destruct (find_close s2) as [n|] eqn:En; [|reflexivity].
  apply strip_prefix_some in E. apply find_close_bound in En.
  rewrite E, length_app, length_skipn.
  replace (length (js "!!!") + length s2 - (length s2 - (n + 3)))
    with (n + 6) by (change (length (js "!!!")) with 3; lia).
  reflexivity.
Qed.

Lemma spoiler_barrier (s y : str) (t : cu) :
  is_line_terminator t = true ->
  match_here re_spoiler (s ++ t :: y) = match_here re_spoiler s.
Proof.
  intros Ht. rewrite !spoiler_match_here.
  pose proof (bang_not_terminator t Ht) as Hb.
  rewrite (strip_prefix_barrier (js "!!!") s y t Hb).
  destruct (strip_prefix (js "!!!") s) as [s2|]; [simpl|reflexivity].
  rewrite (find_close_barrier s2 y t Ht).
  destruct (find_close s2) as [n|] eqn:En; [|reflexivity].
  apply find_close_bound in En. rewrite firstn_app.
  replace (n - length s2) with 0 by lia. simpl. rewrite app_nil_r.
  reflexivity.
Qed.

(** A global replacement works line by line when no match of the pattern can
    hold the separator. *)
Lemma replace_from_barrier (r : regex) (tmpl : list piece) (t : cu) :
  (forall s y, match_here r (s ++ t :: y) = match_here r s) ->
  match_here r [] = None ->
  forall a b k, k <= length a ->
    replace_from r tmpl k (a ++ t :: b)
    = replace_from r tmpl k a ++ t :: replace_from r tmpl 0 b.
Proof.
  intros Hloc Hnil a b. induction a as [|c a IH]; intros k Hk.
  - simpl in Hk. replace k with 0 by lia. simpl app at 1.
    pose proof (Hloc [] b) as H0. cbn [app] in H0.
    cbn [replace_from]. rewrite H0, Hnil. reflexivity.
  - change ((c :: a) ++ t :: b) with (c :: a ++ t :: b).
    cbn [replace_from]. destruct k as [|k].
    + change (c :: a ++ t :: b) with ((c :: a) ++ t :: b).
      rewrite Hloc.
      destruct (match_here r (c :: a)) as [[[|n] caps]|] eqn:E.
      * rewrite IH by lia. rewrite <- app_assoc. reflexivity.
      * apply match_here_le in E. simpl in E.
        rewrite IH by lia. rewrite <- app_assoc. reflexivity.
      * rewrite IH by lia. reflexivity.
    + simpl in Hk. apply IH. lia.
Qed.

Lemma spoiler_nil : match_here re_spoiler [] = None.
Proof. reflexivity. Qed.

Lemma normalize_lines (a b : str) (t : cu) :
  is_line_terminator t = true ->
  normalize (a ++ t :: b) = normalize a ++ t :: normalize b.
Proof.
  intros Ht. unfold normalize, replace_g.
  apply replace_from_barrier; [|exact spoiler_nil|lia].
  intros s y. apply spoiler_barrier, Ht.
Qed.

(** The matched span holds no line terminator. *)
Lemma spoiler_match_one_line (s : str) (n : nat) (caps : list str) :
  match_here re_spoiler s = Some (n, caps) ->
  forallb any_char (firstn n s) = true.
Proof.
  rewrite spoiler_match_here.
  destruct (strip_prefix (js "!!!") s) as [s2|] eqn:E; [|discriminate].
  destruct (find_close s2) as [m|] eqn:Em; [|discriminate].
  intros [= <- _]. apply strip_prefix_some in E.
  destruct (find_close_some s2 m Em) as (rest & H1 & _ & H3).
  rewrite E, H1. replace (m + 6) with (3 + (m + 3)) by lia.
  change (js "!!!" ++ firstn m s2 ++ js "!!!" ++ rest)
    with (js "!!!" ++ (firstn m s2 ++ js "!!!" ++ rest)).
  change (firstn (3 + (m + 3)) (js "!!!" ++ (firstn m s2 ++ js "!!!" ++ rest)))
    with (js "!!!" ++ firstn (m + 3) (firstn m s2 ++ js "!!!" ++ rest)).
  assert (Hm : length (firstn m s2) = m).
  { apply find_close_bound in Em. rewrite length_firstn. lia. }
  rewrite firstn_app, Hm, firstn_all2 by lia.
  replace (m + 3 - m) with 3 by lia.
  rewrite !forallb_app, H3. destruct rest as [|? [|? [|? ?]]]; reflexivity.
Qed.

Lemma bangs_app (a b : str) : bangs (a ++ b) = bangs a + bangs b.
Proof. unfold bangs. rewrite filter_app, length_app. reflexivity. Qed.

Lemma spoiler_match_bangs (s : str) :
  match_here re_spoiler s <> None -> 6 <= bangs s.
Proof.
  rewrite spoiler_match_here.
  destruct (strip_prefix (js "!!!") s) as [s2|] eqn:E; [|congruence].
  destruct (find_close s2) as [m|] eqn:Em; [|congruence].
  intros _. apply strip_prefix_some in E.
  destruct (find_close_some s2 m Em) as (rest & H1 & _ & _).
  rewrite E, H1, !bangs_app.
  change (bangs (js "!!!")) with 3. lia.
Qed.

(** A text with fewer than six bangs has no span to rewrite. *)
Lemma normalize_few_bangs (s : str) : bangs s < 6 -> normalize s = s.
Proof.
  unfold normalize, replace_g. induction s as [|c s IH]; intros Hb.
  - reflexivity.
  - cbn [replace_from].
    destruct (match_here re_spoiler (c :: s)) as [[n caps]|] eqn:E.
    + assert (6 <= bangs (c :: s))
        by (apply spoiler_match_bangs; congruence). lia.
    + f_equal. apply IH. change (c :: s) with ([c] ++ s) in Hb.
      rewrite bangs_app in Hb. lia.
Qed.

Lemma odd_test (n : nat) : negb (n mod 2 =? 0) = Nat.odd n.
Proof.
  rewrite <- Nat.bit0_mod, Nat.bit0_odd.
  destruct (Nat.odd n); reflexivity.
Qed.

(** *** Asterisks through the directive substitution *)

Lemma cons_gap_idem (l : list bool) : cons_gap (cons_gap l) = cons_gap l.
Proof. destruct l as [|[|] l]; reflexivity. Qed.

Lemma glue_cons_gap (l m : list bool) :
  glue (cons_gap l) m = cons_gap (glue l m).
Proof.
  destruct l as [|[|] l]; simpl; auto. rewrite cons_gap_idem. reflexivity.
Qed.

Lemma outline_app (a b : str) :
  outline (a ++ b) = glue (outline a) (outline b).
Proof.
  induction a as [|c a IH]; simpl; auto.
  destruct (c =? STAR)%N; simpl; rewrite IH; auto.
  symmetry. apply glue_cons_gap.
Qed.

Lemma no_star_outline (s : str) : no_star s = gap_only (outline s).
Proof.
  induction s as [|c s IH]; simpl; auto.
  unfold not_char. destruct (c =? STAR)%N; simpl; auto.
  fold (no_star s). rewrite IH.
  destruct (outline s) as [|[|] [|? ?]]; reflexivity.
Qed.

Lemma bold_outline_cons_gap (l : list bool) :
  bold_outline (cons_gap l) = bold_outline l.
Proof.
  destruct l as [|[|] l]; simpl; auto; rewrite ?andb_false_r, ?orb_false_r;
    reflexivity.
Qed.

Lemma bold_open_outline (s : str) : bold_open s = bold_outline (outline s).
Proof.
  induction s as [|c s IH]; simpl; auto.
  destruct (c =? STAR)%N; simpl.
  - rewrite IH. f_equal. destruct s as [|d body]; simpl; auto.
    destruct (d =? STAR)%N; simpl.
    + apply no_star_outline.
    + destruct (outline body) as [|[|] ?]; reflexivity.
  - rewrite orb_false_r, bold_outline_cons_gap. exact IH.
Qed.

Lemma bold_open_intro (pre body : str) :
  no_star body = true -> bold_open (pre ++ js "**" ++ body) = true.
Proof.
  intros Hb. induction pre as [|c pre IH].
  - simpl. rewrite Hb. apply orb_true_r.
  - change ((c :: pre) ++ js "**" ++ body)
      with (c :: (pre ++ js "**" ++ body)).
    cbn [bold_open]. rewrite IH. reflexivity.
Qed.

Lemma bold_open_test (s : str) : bold_open s = true -> test re_bold s = true.
Proof.
  induction s as [|c s IH]; [discriminate|].
  cbn [bold_open]. intros H. apply orb_true_iff in H.
  destruct H as [H | H].
  - cbn [test]. rewrite (IH H).
    destruct (match_here re_bold (c :: s)); reflexivity.
  - apply andb_true_iff in H. destruct H as [Hc H].
    destruct s as [|d body]; [discriminate|].
    apply andb_true_iff in H. destruct H as [Hd Hb].
    apply N.eqb_eq in Hc, Hd. subst c d.
    apply (test_suffix re_bold [] _). apply (bold_match_here body Hb).
Qed.

Lemma replace_from_skip (r : regex) (tmpl : list piece) (s : str) (k : nat) :
  k <= length s ->
  replace_from r tmpl k s = replace_from r tmpl 0 (skipn k s).
Proof.
  revert k. induction s as [|c s IH]; intros [|k] Hk; simpl in Hk;
    try reflexivity; try lia.
  cbn [replace_from skipn]. apply IH. lia.
Qed.

Lemma replace_from_head (r : regex) (tmpl : list piece) (c : cu) (s : str) :
  replace_from r tmpl 0 (c :: s)
  = match match_here r (c :: s) with
    | Some (O, caps) => expand tmpl caps ++ c :: replace_from r tmpl 0 s
    | Some (S n, caps) => expand tmpl caps ++ replace_from r tmpl n s
    | None => c :: replace_from r tmpl 0 s
    end.
Proof. reflexivity. Qed.

(** One step of the substitution at a span. *)
Lemma normalize_match (s2 : str) (n : nat) :
  find_close s2 = Some n ->
  normalize (js "!!!" ++ s2)
  = js ":spoiler[" ++ firstn n s2 ++ js "]" ++ normalize (skipn (n + 3) s2).
Proof.
  intros En. pose proof (spoiler_match_here (js "!!!" ++ s2)) as H.
  rewrite strip_prefix_app, En in H. apply find_close_bound in En.
  replace (n + 6) with (S (n + 5)) in H by lia.
  assert (Hskip : skipn (n + 5) (BANG :: BANG :: s2) = skipn (n + 3) s2)
    by (replace (n + 5) with (S (S (n + 3))) by lia; reflexivity).
  unfold normalize, replace_g.
  change (js "!!!" ++ s2) with (BANG :: (BANG :: BANG :: s2)) in *.
  rewrite replace_from_head, H.
  rewrite replace_from_skip by (simpl; lia).
  rewrite Hskip.
  unfold expand, tmpl_spoiler. cbn [flat_map Nat.sub nth].
  rewrite app_nil_r, <- !app_assoc. reflexivity.
Qed.

(** One step of the substitution where no span starts. *)
Lemma normalize_nomatch (c : cu) (s : str) :
  match_here re_spoiler (c :: s) = None ->
  normalize (c :: s) = c :: normalize s.
Proof.
  intros H. unfold normalize, replace_g. rewrite replace_from_head, H.
  reflexivity.
Qed.

(** The substitution neither adds nor removes an asterisk, and it keeps
    apart the asterisks that were apart. *)
Lemma normalize_outline (s : str) : outline (normalize s) = outline s.
Proof.
  remember (length s) as m eqn:Hm.
  assert (Hle : length s <= m) by lia. clear Hm. revert s Hle.
  induction m as [|m IH]; intros s Hle.
  - destruct s; [reflexivity | simpl in Hle; lia].
  - destruct s as [|c s]; [reflexivity|]. simpl in Hle.
    destruct (match_here re_spoiler (c :: s)) as [[k caps]|] eqn:E.
    + rewrite spoiler_match_here in E.
      destruct (strip_prefix (js "!!!") (c :: s)) as [s2|] eqn:E2;
        [|discriminate].
      destruct (find_close s2) as [n|] eqn:En; [|discriminate].
      apply strip_prefix_some in E2. rewrite E2.
      rewrite (normalize_match s2 n En).
      destruct (find_close_some s2 n En) as (rest & H1 & H2 & _).
      rewrite H2. rewrite H1 at 2.
      rewrite !outline_app. rewrite IH; [reflexivity|].
      apply (f_equal (@length cu)) in E2, H1.
      rewrite !length_app in *. simpl in E2, H1. lia.
    + rewrite (normalize_nomatch c s E). simpl. rewrite IH by lia.
      reflexivity.
Qed.

Lemma normalize_bold_open (s : str) :
  bold_open (normalize s) = bold_open s.
Proof. rewrite !bold_open_outline, normalize_outline. reflexivity. Qed.

Lemma spoiler_needs_bang (c : cu) (s : str) :
  not_char BANG c = true -> match_here re_spoiler (c :: s) = None.
Proof.
  intros Hc. rewrite spoiler_match_here.
  change (strip_prefix (js "!!!") (c :: s))
    with (if (c =? BANG)%N then strip_prefix (js "!!") s else None).
  unfold not_char in Hc. destruct (c =? BANG)%N; [discriminate | reflexivity].
Qed.

Lemma find_close_content (x rest : str) :
  forallb (not_char BANG) x = true -> forallb any_char x = true ->
  find_close (x ++ js "!!!" ++ rest) = Some (length x).
Proof.
  intros Hb Hl. induction x as [|c x IH]; rewrite find_close_unfold.
  - cbn [app]. rewrite strip_prefix_app. reflexivity.
  - simpl in Hb, Hl. apply andb_true_iff in Hb, Hl.
    destruct Hb as [Hc Hb]. destruct Hl as [Hc' Hl].
    change ((c :: x) ++ js "!!!" ++ rest) with (c :: (x ++ js "!!!" ++ rest)).
    change (strip_prefix (js "!!!") (c :: (x ++ js "!!!" ++ rest)))
      with (if (c =? BANG)%N
            then strip_prefix (js "!!") (x ++ js "!!!" ++ rest) else None).
    unfold not_char in Hc. destruct (c =? BANG)%N; [discriminate|].
    rewrite Hc', (IH Hb Hl). reflexivity.
Qed.

(** A span on one line, whose content holds no bang and which is the first
    of the text, becomes the spoiler directive. *)
Lemma normalize_span (pre x rest : str) :
  forallb (not_char BANG) pre = true ->
  forallb (not_char BANG) x = true -> forallb any_char x = true ->
  normalize (pre ++ js "!!!" ++ x ++ js "!!!" ++ rest)
  = pre ++ js ":spoiler[" ++ x ++ js "]" ++ normalize rest.
Proof.
  intros Hp Hb Hl. induction pre as [|c pre IH].
  - cbn [app]. rewrite (normalize_match _ _ (find_close_content x rest Hb Hl)).
    rewrite firstn_app, firstn_all, Nat.sub_diag. cbn [firstn].
    rewrite app_nil_r, skipn_app, skipn_all2 by lia.
    replace (length x + 3 - length x) with 3 by lia. reflexivity.
  - simpl in Hp. apply andb_true_iff in Hp. destruct Hp as [Hc Hp].
    change ((c :: pre) ++ js "!!!" ++ x ++ js "!!!" ++ rest)
      with (c :: (pre ++ js "!!!" ++ x ++ js "!!!" ++ rest)).
    rewrite normalize_nomatch by (apply spoiler_needs_bang, Hc).
    rewrite (IH Hp). reflexivity.
Qed.

(** *** Counting markers *)

Lemma count_matches_eq (r : regex) (s : str) :
  count_matches r s = length (matches_from r 0 s).
Proof.
  unfold count_matches, match_g. destruct (matches_from r 0 s); reflexivity.
Qed.

Lemma matches_from_barrier (r : regex) (t : cu) :
  (forall s y, match_here r (s ++ t :: y) = match_here r s) ->
  match_here r [] = None ->
  forall a b k, k <= length a ->
    matches_from r k (a ++ t :: b) = matches_from r k a ++ matches_from r 0 b.
Proof.
  intros Hloc Hnil a b. induction a as [|c a IH]; intros k Hk.
  - simpl in Hk. replace k with 0 by lia.
    pose proof (Hloc [] b) as H0. cbn [app] in H0.
    cbn [app matches_from]. rewrite H0, Hnil. reflexivity.
  - change ((c :: a) ++ t :: b) with (c :: a ++ t :: b).
    cbn [matches_from]. destruct k as [|k].
    + change (c :: a ++ t :: b) with ((c :: a) ++ t :: b).
      rewrite Hloc.
      destruct (match_here r (c :: a)) as [[n caps]|] eqn:E.
      * apply match_here_le in E. simpl in E.
        rewrite IH by lia. rewrite firstn_app.
        replace (n - length (c :: a)) with 0 by (simpl; lia).
        cbn [firstn]. rewrite app_nil_r. reflexivity.
      * apply IH. lia.
    + simpl in Hk. apply IH. lia.
Qed.

Lemma lit_match_here (l s : str) :
  match_here (lit l) s
  = match strip_prefix l s with
    | Some s' => Some (length s - length s', [])
    | None => None
    end.
Proof.
  unfold match_here. rewrite exec_lit.
  destruct (strip_prefix l s); reflexivity.
Qed.

Lemma lit_barrier (l : str) (t : cu) :
  forallb (not_char t) l = true ->
  forall s y, match_here (lit l) (s ++ t :: y) = match_here (lit l) s.
Proof.
  intros Hl s y. rewrite !lit_match_here, (strip_prefix_barrier l s y t Hl).
  destruct (strip_prefix l s) as [s'|]; [simpl|reflexivity].
  rewrite !length_app.
  replace (length s + length (t :: y) - (length s' + length (t :: y)))
    with (length s - length s') by lia.
  reflexivity.
Qed.

(** The closing fence that the repair appends is one more marker. *)
Lemma count_fence_closed (s : str) :
  count_matches re_fence (s ++ LF :: js "```")
  = S (count_matches re_fence s).
Proof.
  rewrite !count_matches_eq.
  rewrite (matches_from_barrier re_fence LF
             (lit_barrier (js "```") LF eq_refl) eq_refl s (js "```") 0)
    by lia.
  rewrite length_app. change (length (matches_from re_fence 0 (js "```")))
    with 1. lia.
Qed.

(** *** The stages of the repair *)

(** Every result of the repair is the output of stage 1 with at most one
    closer appended. *)
Lemma autoFix_cases (text : str) :
  let p := normalize text in
  In (autoFixMarkdown text true)
     [p ++ LF :: js "```"; p ++ js "$$"; p ++ js "`";
      trimEnd p ++ js "**"; p ++ js ")"; p].
Proof.
  intros p. unfold autoFixMarkdown. fold p. cbn [negb].
  destruct (negb (count_matches re_fence p mod 2 =? 0)); [simpl; auto|].
  destruct (negb (count_matches re_math p mod 2 =? 0)); [simpl; auto|].
  destruct (negb (count_matches re_backtick (last (split LF p) []) mod 2 =? 0));
    [simpl; auto|].
  destruct (test re_bold p); [simpl; auto|].
  destruct (test re_link p); simpl; auto 10.
Qed.

(** When no stage finds something to close, the output of stage 1 is
    returned. *)
Lemma autoFix_unchanged (text : str) :
  let p := normalize text in
  Nat.even (count_matches re_fence p) = true ->
  Nat.even (count_matches re_math p) = true ->
  Nat.even (count_matches re_backtick (last (split LF p) [])) = true ->
  test re_bold p = false -> test re_link p = false ->
  autoFixMarkdown text true = p.
Proof.
  intros p H1 H2 H3 H4 H5. unfold autoFixMarkdown. fold p. cbn [negb].
  rewrite !odd_test, <- !Nat.negb_even, H1, H2, H3, H4, H5. reflexivity.
Qed.

End RepairFacts.

(** ** Claims about the auto-repair *)

Module RepairClaims.

Import RepairFacts.

Lemma space_not_star (ws : str) :
  forallb is_space ws = true -> no_star ws = true.
Proof.
  induction ws as [|c ws IH]; simpl; auto.
  intros H. apply andb_true_iff in H. destruct H as [Hc Hw].
  rewrite (IH Hw), andb_true_r. unfold not_char.
  destruct (N.eqb_spec c STAR) as [-> | _]; [discriminate Hc | reflexivity].
Qed.

(** C1. The text of the claim is balanced, and the repair does not return it
    unchanged: the bold stage finds the closing [**] of the finished span,
    which no asterisk follows, and appends another [**]. *)
Theorem C1_balanced_text_altered :
  let text := js "**bold** and `code` and [a](b)" in
  normalize text = text
  /\ test re_bold text = true
  /\ autoFixMarkdown text true = text ++ js "**".
Proof. vm_compute. auto. Qed.

(** C3. When the output of stage 1 holds an odd number of fence markers, the
    repair returns it with a line feed and one fence marker appended, and
    nothing else; the marker count of the result is even.  On a text in which
    every later stage would find something to close, only the fence is
    closed. *)
Theorem C3_unclosed_fence :
  (forall text,
     Nat.odd (count_matches re_fence (normalize text)) = true ->
     autoFixMarkdown text true = normalize text ++ LF :: js "```"
     /\ Nat.even (count_matches re_fence (autoFixMarkdown text true)) = true)
  /\ autoFixMarkdown (js "```js" ++ LF :: js "code") true
     = js "```js" ++ LF :: js "code" ++ LF :: js "```"
  /\ autoFixMarkdown (js "```js" ++ LF :: js "$$ `x **b [a](c") true
     = js "```js" ++ LF :: js "$$ `x **b [a](c" ++ LF :: js "```".
Proof.
  split; [|split; vm_compute; reflexivity].
  intros text Hodd.
  assert (E : autoFixMarkdown text true = normalize text ++ LF :: js "```").
  { unfold autoFixMarkdown. cbn [negb]. rewrite odd_test, Hodd. reflexivity. }
  split; [exact E|].
  rewrite E, count_fence_closed, Nat.even_succ. exact Hodd.
Qed.

Lemma C3_unclosed_fence_witness :
  autoFixMarkdown (js "a ``` b") true = js "a ``` b" ++ LF :: js "```".
Proof.
  apply (proj1 C3_unclosed_fence (js "a ``` b")). vm_compute. reflexivity.
Defined.

(** C4. With repair disabled the result is the output of the directive
    substitution; with repair enabled it is that output with at most one
    closer appended.  The substitution turns the first single-line span of a
    text into the spoiler directive, whatever the flag. *)
Theorem C4_directive_unconditional :
  (forall text, autoFixMarkdown text false = normalize text)
  /\ (forall text,
        let p := normalize text in
        In (autoFixMarkdown text true)
           [p ++ LF :: js "```"; p ++ js "$$"; p ++ js "`";
            trimEnd p ++ js "**"; p ++ js ")"; p])
  /\ (forall pre x rest,
        forallb (not_char BANG) pre = true ->
        forallb (not_char BANG) x = true -> forallb any_char x = true ->
        normalize (pre ++ js "!!!" ++ x ++ js "!!!" ++ rest)
        = pre ++ js ":spoiler[" ++ x ++ js "]" ++ normalize rest)
  /\ autoFixMarkdown (js "a !!!b!!! c") false = js "a :spoiler[b] c"
  /\ autoFixMarkdown (js "a !!!b!!! c") true = js "a :spoiler[b] c".
Proof.
  split; [reflexivity|]. split; [exact autoFix_cases|].
  split; [exact normalize_span|]. split; vm_compute; reflexivity.
Qed.

Lemma C4_directive_unconditional_witness :
  normalize (js "a " ++ js "!!!" ++ js "b" ++ js "!!!" ++ js " c")
  = js "a " ++ js ":spoiler[" ++ js "b" ++ js "]" ++ normalize (js " c").
Proof.
  apply (proj1 (proj2 (proj2 C4_directive_unconditional))); reflexivity.
Defined.

(** C8 fails as stated: a text that ends in a bold opener and has an odd
    number of backticks on its last line gets the backtick, not the [**]. *)
Lemma C8_earlier_stage_wins :
  let text := js "`a **bold  " in
  text = js "`a " ++ js "**" ++ js "bold" ++ js "  "
  /\ no_star (js "bold") = true /\ forallb is_space (js "  ") = true
  /\ autoFixMarkdown text true = text ++ js "`"
  /\ autoFixMarkdown text true <> trimEnd (normalize text) ++ js "**".
Proof.
  vm_compute. repeat split; try reflexivity. discriminate.
Qed.

(** C8, amended.  For a text that ends in a bold opener [**] followed only by
    characters other than asterisks and then by white space, and whose stage-1
    output has an even number of fence markers, an even number of [$$]
    markers and an even number of backticks on its last line, the repair
    returns the stage-1 output with its trailing white space removed and
    [**] appended. *)
Theorem C8_bold_closing (text pre body ws : str) :
  text = pre ++ js "**" ++ body ++ ws ->
  no_star body = true -> forallb is_space ws = true ->
  let p := normalize text in
  Nat.even (count_matches re_fence p) = true ->
  Nat.even (count_matches re_math p) = true ->
  Nat.even (count_matches re_backtick (last (split LF p) [])) = true ->
  autoFixMarkdown text true = trimEnd p ++ js "**"
  /\ (exists sp, p = trimEnd p ++ sp /\ forallb is_space sp = true)
  /\ (forall t c, trimEnd p = t ++ [c] -> is_space c = false).
Proof.
  intros Ht Hb Hw p H1 H2 H3.
  assert (Hopen : test re_bold p = true).
  { apply bold_open_test. unfold p. rewrite normalize_bold_open, Ht.
    apply bold_open_intro. unfold no_star in *.
    rewrite forallb_app, Hb. apply space_not_star, Hw. }
  split; [|exact (trimEnd_spec p)].
  unfold autoFixMarkdown. fold p. cbn [negb].
  rewrite !odd_test, <- !Nat.negb_even, H1, H2, H3, Hopen. reflexivity.
Qed.

Lemma C8_bold_closing_witness :
  autoFixMarkdown (js "text **bold   ") true = js "text **bold**".
Proof.
  destruct (C8_bold_closing (js "text **bold   ") (js "text ") (js "bold")
              (js "   ") eq_refl eq_refl eq_refl eq_refl eq_refl eq_refl)
    as [H _].
  rewrite H. vm_compute. reflexivity.
Defined.

(** C9. The directive pattern never matches across a line terminator: a
    matched span holds none, so the substitution works on each line by
    itself, and a span that opens on one line and closes on the next is left
    as it is. *)
Theorem C9_spoiler_single_line :
  normalize (js "!!!a" ++ LF :: js "b!!!") = js "!!!a" ++ LF :: js "b!!!"
  /\ (forall s n caps,
        match_here re_spoiler s = Some (n, caps) ->
        forallb any_char (firstn n s) = true)
  /\ (forall a b t,
        is_line_terminator t = true ->
        normalize (a ++ t :: b) = normalize a ++ t :: normalize b)
  /\ (forall x y,
        bangs x < 3 -> bangs y < 3 ->
        normalize (js "!!!" ++ x ++ LF :: y ++ js "!!!")
        = js "!!!" ++ x ++ LF :: y ++ js "!!!").
Proof.
  split; [vm_compute; reflexivity|].
  split; [exact spoiler_match_one_line|].
  split; [exact normalize_lines|].
  intros x y Hx Hy.
  change (js "!!!" ++ x ++ LF :: y ++ js "!!!")
    with (js "!!!" ++ (x ++ LF :: (y ++ js "!!!"))).
  rewrite app_assoc, (normalize_lines _ _ LF eq_refl).
  rewrite !normalize_few_bangs; [reflexivity| |];
    rewrite bangs_app; change (bangs (js "!!!")) with 3; lia.
Qed.

Lemma C9_spoiler_single_line_witness :
  forallb any_char (firstn 7 (js "!!!a!!!")) = true
  /\ normalize (js "!!!a!!!" ++ CR :: js "x!!!b!!!")
     = normalize (js "!!!a!!!") ++ CR :: normalize (js "x!!!b!!!")
  /\ normalize (js "!!!" ++ js "a!" ++ LF :: js "b" ++ js "!!!")
     = js "!!!" ++ js "a!" ++ LF :: js "b" ++ js "!!!".
Proof.
  destruct C9_spoiler_single_line as (_ & Hone & Hline & Hspan).
  split; [apply (Hone (js "!!!a!!!") 7 [js "a"]); reflexivity|].
  split; [apply Hline; reflexivity|].
  apply Hspan; vm_compute; lia.
Defined.

End RepairClaims.

(** ** The later stages of the repair *)

Module RepairStages.

Import RepairFacts.

(** *** Greedy stars *)

Lemma star_greedy_some (A : Type) (p : cu -> bool) (k : str -> option A)
    (s : str) (res : A) :
  star_greedy p k s = Some res ->
  exists a b, s = a ++ b /\ forallb p a = true /\ k b = Some res.
Proof.
  induction s as [|x s IH]; simpl.
  - intros H. exists [], []. auto.
  - destruct (p x) eqn:Ex.
    + destruct (star_greedy p k s) as [r'|] eqn:E.
      * intros [= <-]. destruct (IH eq_refl) as (a & b & -> & Ha & Hb).
        exists (x :: a), b. simpl. rewrite Ex, Ha. auto.
      * intros H. exists [], (x :: s). auto.
    + intros H. exists [], (x :: s). auto.
Qed.

Lemma star_greedy_prefix (A : Type) (p : cu -> bool) (k : str -> option A)
    (a b : str) (res : A) :
  forallb p a = true -> star_greedy p k b = Some res ->
  star_greedy p k (a ++ b) = Some res.
Proof.
  intros Ha Hb. induction a as [|x a IH]; simpl; auto.
  simpl in Ha. apply andb_true_iff in Ha. destruct Ha as [Hx Ha].
  rewrite Hx, (IH Ha). reflexivity.
Qed.

(** *** The bold pattern is [bold_open] *)

Lemma bold_match_inv (s : str) :
  match_here re_bold s <> None ->
  exists body, s = js "**" ++ body /\ no_star body = true.
Proof.
  unfold match_here, re_bold. cbn [exec]. rewrite exec_lit.
  destruct (strip_prefix (js "**") s) as [body|] eqn:E; [|congruence].
  apply strip_prefix_some in E. intros H. exists body. split; [exact E|].
  destruct (star_greedy (not_char STAR) _ body) as [res|] eqn:E1;
    [|congruence].
  apply star_greedy_some in E1. destruct E1 as (a & b & -> & Ha & Hb).
  apply star_greedy_some in Hb. destruct Hb as (a' & b' & -> & Ha' & Hb').
  destruct b' as [|? ?]; [|discriminate]. rewrite app_nil_r.
  unfold no_star. rewrite forallb_app, Ha.
  apply RepairClaims.space_not_star, Ha'.
Qed.

Lemma test_bold_open (s : str) : test re_bold s = bold_open s.
Proof.
  induction s as [|c s IH]; [reflexivity|].
  cbn [test bold_open]. rewrite IH.
  destruct (match_here re_bold (c :: s)) as [res|] eqn:E.
  - destruct (bold_match_inv (c :: s)) as (body & Hs & Hb); [congruence|].
    injection Hs as -> ->. simpl. rewrite Hb. symmetry. apply orb_true_r.
  - destruct (bold_open s); [reflexivity|]. simpl.
    destruct (c =? STAR)%N eqn:Ec; [|reflexivity].
    destruct s as [|d body]; [reflexivity|].
    destruct (d =? STAR)%N eqn:Ed; [|reflexivity]. simpl.
    destruct (no_star body) eqn:Eb; [|reflexivity].
    apply N.eqb_eq in Ec, Ed. subst c d.
    exfalso. apply (bold_match_here body Eb). exact E.
Qed.

(** *** The link pattern *)

Lemma star_greedy_reaches (A : Type) (p : cu -> bool) (k : str -> option A)
    (a b : str) :
  forallb p a = true -> star_greedy p k b <> None ->
  star_greedy p k (a ++ b) <> None.
Proof.
  intros Ha Hb. destruct (star_greedy p k b) as [res|] eqn:E; [|congruence].
  rewrite (star_greedy_prefix A p k a b res Ha E). discriminate.
Qed.

Lemma link_match_here (label url : str) :
  forallb (not_char RBRACK) label = true ->
  forallb (not_char RPAREN) url = true ->
  match_here re_link (js "[" ++ label ++ js "](" ++ url) <> None.
Proof.
  intros Hl Hu. unfold match_here, re_link. cbn [exec].
  rewrite (exec_lit (js "![")).
  change (strip_prefix (js "![") (js "[" ++ label ++ js "](" ++ url))
    with (@None str).
  rewrite (exec_lit (js "[")), strip_prefix_app.
  match goal with
  | |- match ?e with _ => _ end <> None =>
      assert (H : e <> None); [|destruct e as [[? ?]|]; congruence]
  end.
  apply star_greedy_reaches; [exact Hl|].
  change (js "](" ++ url) with (RBRACK :: LPAREN :: url).
  cbn [star_greedy]. change (not_char RBRACK RBRACK) with false. cbv iota.
  rewrite exec_lit.
  change (strip_prefix (js "](") (RBRACK :: LPAREN :: url)) with (Some url).
  cbn [exec]. rewrite <- (app_nil_r url).
  apply star_greedy_reaches; [exact Hu|]. discriminate.
Qed.

Lemma exec_cat (r1 r2 : regex) (s : str) (caps : list str) k :
  exec (Cat r1 r2) s caps k
  = exec r1 s caps (fun s' caps' => exec r2 s' caps' k).
Proof. reflexivity. Qed.

Lemma exec_grp (r : regex) (s : str) (caps : list str) k :
  exec (Grp r) s caps k
  = exec r s caps
      (fun s' caps' => k s' (caps' ++ [firstn (length s - length s') s])).
Proof. reflexivity. Qed.

Lemma exec_alt (r1 r2 : regex) (s : str) (caps : list str) k :
  exec (Alt r1 r2) s caps k
  = match exec r1 s caps k with
    | Some res => Some res
    | None => exec r2 s caps k
    end.
Proof. reflexivity. Qed.

Lemma link_tail_inv (s : str) (caps : list str) k (res : result) :
  exec (Cat (Star Greedy (not_char RBRACK))
          (Cat (lit (js "]("))
             (Cat (Star Greedy (not_char RPAREN)) Eos))) s caps k = Some res ->
  exists a url, s = a ++ js "](" ++ url
                /\ forallb (not_char RPAREN) url = true.
Proof.
  cbn [exec]. intros H.
  apply star_greedy_some in H. destruct H as (a & b & -> & _ & Hb).
  rewrite exec_lit in Hb.
  destruct (strip_prefix (js "](") b) as [u|] eqn:Eu; [|discriminate].
  apply strip_prefix_some in Eu. subst b. cbn [exec] in Hb.
  apply star_greedy_some in Hb. destruct Hb as (a' & b' & -> & Ha' & Hb').
  destruct b'; [|discriminate]. rewrite app_nil_r.
  exists a, a'. auto.
Qed.

Lemma link_match_inv (s : str) :
  match_here re_link s <> None ->
  exists pre url, s = pre ++ js "](" ++ url
                  /\ forallb (not_char RPAREN) url = true
                  /\ In LBRACK pre.
Proof.
  unfold match_here, re_link.
  rewrite exec_cat, exec_grp, exec_alt, !exec_lit. intros H.
  destruct (strip_prefix (js "![") s) as [s1|] eqn:E1.
  - apply strip_prefix_some in E1. cbv beta in H.
    match type of H with
    | match (match ?e with _ => _ end) with _ => _ end <> None =>
        destruct e as [res|] eqn:Ek
    end.
    + destruct (link_tail_inv _ _ _ _ Ek) as (a & url & -> & Hu).
      exists (js "![" ++ a), url. rewrite E1, <- app_assoc.
      repeat split; auto. simpl. auto.
    + destruct (strip_prefix (js "[") s) as [s2|] eqn:E2; [|congruence].
      apply strip_prefix_some in E2. rewrite E1 in E2. discriminate.
  - destruct (strip_prefix (js "[") s) as [s2|] eqn:E2; [|congruence].
    apply strip_prefix_some in E2. cbv beta in H.
    match type of H with
    | match ?e with _ => _ end <> None => destruct e as [res|] eqn:Ek
    end; [|congruence].
    destruct (link_tail_inv _ _ _ _ Ek) as (a & url & -> & Hu).
    exists (js "[" ++ a), url. rewrite E2, <- app_assoc.
    repeat split; auto. simpl. auto.
Qed.

Lemma test_false (r : regex) (s : str) :
  (forall a t, s = a ++ t -> match_here r t = None) -> test r s = false.
Proof.
  induction s as [|c s IH]; intros H.
  - simpl. rewrite (H [] [] eq_refl). reflexivity.
  - cbn [test]. rewrite (H [] (c :: s) eq_refl). apply IH.
    intros a t E. apply (H (c :: a) t). rewrite E. reflexivity.
Qed.

(** A text that ends in [)] has no open link target. *)
Lemma link_test_closed (s : str) : test re_link (s ++ [RPAREN]) = false.
Proof.
  apply test_false. intros a t E.
  destruct (match_here re_link t) as [res|] eqn:Em; [|reflexivity].
  exfalso.
  destruct (link_match_inv t) as (pre & url & Ht & Hu & _); [congruence|].
  destruct url as [|u url' _] using rev_ind.
  - rewrite Ht, app_nil_r in E.
    change (pre ++ js "](") with (pre ++ [RBRACK] ++ [LPAREN]) in E.
    rewrite !app_assoc in E. apply app_inj_tail in E.
    destruct E as [_ E]. discriminate E.
  - rewrite Ht, !app_assoc in E. apply app_inj_tail in E.
    destruct E as [_ E]. subst u. rewrite forallb_app in Hu.
    apply andb_true_iff in Hu. destruct Hu as [_ Hu]. discriminate Hu.
Qed.

Lemma link_test_no_bracket (s : str) :
  forallb (not_char LBRACK) s = true -> test re_link s = false.
Proof.
  intros Hs. apply test_false. intros a t E.
  destruct (match_here re_link t) as [res|] eqn:Em; [|reflexivity].
  exfalso.
  destruct (link_match_inv t) as (pre & url & Ht & _ & Hin); [congruence|].
  rewrite E, Ht, !forallb_app in Hs.
  apply andb_true_iff in Hs. destruct Hs as [_ Hs].
  apply andb_true_iff in Hs. destruct Hs as [Hs _].
  rewrite forallb_forall in Hs. specialize (Hs _ Hin). discriminate Hs.
Qed.

(** *** Counting markers at the end of a text *)

Lemma matches_absent (c : cu) (l s : str) (k : nat) :
  forallb (not_char c) s = true -> matches_from (lit (c :: l)) k s = [].
Proof.
  revert k. induction s as [|x s IH]; intros k Hs.
  - cbn [matches_from]. rewrite lit_match_here. destruct k; reflexivity.
  - simpl in Hs. apply andb_true_iff in Hs. destruct Hs as [Hx Hs].
    cbn [matches_from]. destruct k as [|k]; [|apply IH, Hs].
    rewrite lit_match_here. cbn [strip_prefix]. unfold not_char in Hx.
    destruct (x =? c)%N; [discriminate|]. apply IH, Hs.
Qed.

Lemma count_absent (c : cu) (l s : str) :
  forallb (not_char c) s = true -> count_matches (lit (c :: l)) s = 0.
Proof.
  intros Hs. rewrite count_matches_eq, matches_absent by exact Hs.
  reflexivity.
Qed.

Lemma matches_from_head (r : regex) (c : cu) (s : str) :
  matches_from r 0 (c :: s)
  = match match_here r (c :: s) with
    | Some (len, _) => firstn len (c :: s) :: matches_from r (len - 1) s
    | None => matches_from r 0 s
    end.
Proof. reflexivity. Qed.

Lemma matches_from_skip (r : regex) (n : nat) (c : cu) (s : str) :
  matches_from r (S n) (c :: s) = matches_from r n s.
Proof. reflexivity. Qed.

(** A doubled marker appended to a text is one more match, whatever the text
    ends in. *)
Lemma matches_pair_closed (c : cu) (s : str) (k : nat) :
  k <= length s ->
  length (matches_from (lit [c; c]) k (s ++ [c; c]))
  = S (length (matches_from (lit [c; c]) k s)).
Proof.
  revert k. induction s as [|x s IH]; intros k Hk.
  - simpl in Hk. replace k with 0 by lia.
    cbn [app matches_from]. rewrite !lit_match_here. cbn [strip_prefix].
    rewrite N.eqb_refl. reflexivity.
  - change ((x :: s) ++ [c; c]) with (x :: (s ++ [c; c])).
    destruct k as [|k];
      [|rewrite !matches_from_skip; apply IH; simpl in Hk; lia].
    rewrite !matches_from_head, !lit_match_here.
    destruct s as [|y s].
    + cbn [app strip_prefix matches_from]. rewrite !lit_match_here.
      cbn [strip_prefix]. rewrite N.eqb_refl.
      destruct (x =? c)%N; reflexivity.
    + change ((y :: s) ++ [c; c]) with (y :: (s ++ [c; c])) at 1 2.
      cbn [strip_prefix].
      destruct (x =? c)%N; [destruct (y =? c)%N|].
      * cbn [length]. rewrite !length_app. cbn [length].
        replace (S (S (length s + 2)) - (length s + 2)) with 2 by lia.
        replace (S (S (length s)) - length s) with 2 by lia.
        change (2 - 1) with 1. cbn [length]. f_equal.
        apply (IH 1). simpl. lia.
      * apply (IH 0). lia.
      * apply (IH 0). lia.
Qed.

Lemma count_math_closed (s : str) :
  count_matches re_math (s ++ js "$$") = S (count_matches re_math s).
Proof.
  rewrite !count_matches_eq. apply (matches_pair_closed DOLLAR s 0). lia.
Qed.

Lemma matches_single_closed (c : cu) (s : str) (k : nat) :
  k <= length s ->
  length (matches_from (lit [c]) k (s ++ [c]))
  = S (length (matches_from (lit [c]) k s)).
Proof.
  revert k. induction s as [|x s IH]; intros k Hk.
  - simpl in Hk. replace k with 0 by lia.
    cbn [app matches_from]. rewrite !lit_match_here. cbn [strip_prefix].
    rewrite N.eqb_refl. reflexivity.
  - change ((x :: s) ++ [c]) with (x :: (s ++ [c])).
    destruct k as [|k];
      [|rewrite !matches_from_skip; apply IH; simpl in Hk; lia].
    rewrite !matches_from_head, !lit_match_here. cbn [strip_prefix].
    destruct (x =? c)%N.
    + cbn [length]. rewrite length_app. cbn [length].
      replace (S (length s + 1) - (length s + 1)) with 1 by lia.
      replace (S (length s) - length s) with 1 by lia.
      change (1 - 1) with 0. cbn [length]. f_equal. apply (IH 0). lia.
    + apply (IH 0). lia.
Qed.

Lemma count_backtick_closed (s : str) :
  count_matches re_backtick (s ++ js "`")
  = S (count_matches re_backtick s).
Proof.
  rewrite !count_matches_eq. apply (matches_single_closed BACKTICK s 0). lia.
Qed.

(** A marker that a text does not end in adds nothing to the count of
    another marker. *)
Lemma count_other_closed (l tail s : str) (t : cu) :
  forallb (not_char t) l = true -> l <> [] ->
  count_matches (lit l) (s ++ t :: tail)
  = count_matches (lit l) s + count_matches (lit l) tail.
Proof.
  intros Hl Hne. rewrite !count_matches_eq.
  rewrite (matches_from_barrier (lit l) t (lit_barrier l t Hl)).
  - apply length_app.
  - rewrite lit_match_here. destruct l; [congruence | reflexivity].
  - lia.
Qed.

(** *** The last line *)

Lemma split_not_nil (sep : cu) (s : str) : split sep s <> [].
Proof.
  induction s as [|c s IH]; simpl; [discriminate|].
  destruct (c =? sep)%N; [discriminate|].
  destruct (split sep s); discriminate.
Qed.

Lemma split_snoc (s : str) (c : cu) :
  c <> LF ->
  split LF (s ++ [c])
  = removelast (split LF s) ++ [last (split LF s) [] ++ [c]].
Proof.
  intros Hc. induction s as [|x s IH].
  - simpl. apply N.eqb_neq in Hc. rewrite Hc. reflexivity.
  - change ((x :: s) ++ [c]) with (x :: (s ++ [c])). cbn [split].
    rewrite IH. pose proof (split_not_nil LF s) as Hne.
    destruct (split LF s) as [|l ls]; [congruence|].
    destruct (x =? LF)%N.
    + reflexivity.
    + destruct ls as [|l' ls]; reflexivity.
Qed.

Lemma last_line_snoc (s : str) (c : cu) :
  c <> LF -> last (split LF (s ++ [c])) [] = last (split LF s) [] ++ [c].
Proof. intros Hc. rewrite (split_snoc s c Hc). apply last_last. Qed.

End RepairStages.

Module RepairExtras.

Import RepairFacts RepairStages.

Lemma even_of_odd_false (n : nat) : Nat.even n = true -> Nat.odd n = false.
Proof. intros H. rewrite <- Nat.negb_even, H. reflexivity. Qed.

Lemma bold_open_inv (s : str) :
  bold_open s = true ->
  exists pre body, s = pre ++ js "**" ++ body /\ no_star body = true.
Proof.
  induction s as [|c s IH]; [discriminate|].
  cbn [bold_open]. intros H. apply orb_true_iff in H. destruct H as [H | H].
  - destruct (IH H) as (pre & body & -> & Hb). exists (c :: pre), body. auto.
  - apply andb_true_iff in H. destruct H as [Hc H].
    destruct s as [|d body]; [discriminate|].
    apply andb_true_iff in H. destruct H as [Hd Hb].
    apply N.eqb_eq in Hc, Hd. subst c d. exists [], body. auto.
Qed.

Lemma bold_open_no_star (s : str) : no_star s = true -> bold_open s = false.
Proof.
  induction s as [|c s IH]; [reflexivity|].
  unfold no_star. cbn [forallb bold_open]. intros H.
  apply andb_true_iff in H. destruct H as [Hc Hs].
  rewrite (IH Hs). unfold not_char in Hc.
  destruct (c =? STAR)%N; [discriminate | reflexivity].
Qed.

Lemma last_in (A : Type) (l : list A) (d : A) : l <> [] -> In (last l d) l.
Proof.
  induction l as [|x l IH]; [congruence|]. intros _.
  destruct l as [|y l]; [left; reflexivity|].
  right. apply IH. discriminate.
Qed.

Lemma split_forallb (P : cu -> bool) (s : str) :
  forallb P s = true -> forall l, In l (split LF s) -> forallb P l = true.
Proof.
  induction s as [|c s IH]; intros Hs l Hl.
  - simpl in Hl. destruct Hl as [<- | []]. reflexivity.
  - simpl in Hs. apply andb_true_iff in Hs. destruct Hs as [Hc Hs].
    cbn [split] in Hl. destruct (c =? LF)%N.
    + destruct Hl as [<- | Hl]; [reflexivity | apply (IH Hs l Hl)].
    + destruct (split LF s) as [|l0 ls] eqn:E.
      * destruct Hl as [<- | []]. simpl. rewrite Hc. reflexivity.
      * destruct Hl as [<- | Hl].
        -- simpl. rewrite Hc. apply (IH Hs). left. reflexivity.
        -- apply (IH Hs). right. exact Hl.
Qed.

Lemma last_line_forallb (P : cu -> bool) (s : str) :
  forallb P s = true -> forallb P (last (split LF s) []) = true.
Proof.
  intros Hs. apply (split_forallb P s Hs), last_in, split_not_nil.
Qed.

(** X1. When the stage-1 output has an even number of fence markers and an
    odd number of [$$] markers, the repair appends one [$$] and nothing
    else; the result has an even number of [$$] markers and as many fence
    markers as before. *)
Theorem X1_math_block_closed (text : str) :
  let p := normalize text in
  Nat.even (count_matches re_fence p) = true ->
  Nat.odd (count_matches re_math p) = true ->
  autoFixMarkdown text true = p ++ js "$$"
  /\ Nat.even (count_matches re_math (autoFixMarkdown text true)) = true
  /\ count_matches re_fence (autoFixMarkdown text true)
     = count_matches re_fence p.
Proof.
  intros p H1 H2.
  assert (E : autoFixMarkdown text true = p ++ js "$$").
  { unfold autoFixMarkdown. fold p. cbn [negb].
    rewrite !odd_test, (even_of_odd_false _ H1), H2. reflexivity. }
  rewrite E. split; [reflexivity|]. split.
  - rewrite count_math_closed, Nat.even_succ. exact H2.
  - change (p ++ js "$$") with (p ++ DOLLAR :: [DOLLAR]). unfold re_fence.
    rewrite (count_other_closed (js "```") [DOLLAR] p DOLLAR eq_refl)
      by discriminate.
    change (count_matches (lit (js "```")) [DOLLAR]) with 0.
    apply Nat.add_0_r.
Qed.

Lemma X1_math_block_closed_witness :
  autoFixMarkdown (js "$$ x^2 $") true = js "$$ x^2 $$$".
Proof.
  apply (proj1 (X1_math_block_closed (js "$$ x^2 $") eq_refl eq_refl)).
Defined.

(** X2. When the stage-1 output has even numbers of fence and [$$] markers
    and an odd number of backticks on its last line, the repair appends one
    backtick and nothing else; the last line of the result has an even number
    of backticks, and the number of [$$] markers is as before. *)
Theorem X2_inline_code_closed (text : str) :
  let p := normalize text in
  Nat.even (count_matches re_fence p) = true ->
  Nat.even (count_matches re_math p) = true ->
  Nat.odd (count_matches re_backtick (last (split LF p) [])) = true ->
  autoFixMarkdown text true = p ++ js "`"
  /\ Nat.even (count_matches re_backtick
                 (last (split LF (autoFixMarkdown text true)) [])) = true
  /\ count_matches re_math (autoFixMarkdown text true)
     = count_matches re_math p.
Proof.
  intros p H1 H2 H3.
  assert (E : autoFixMarkdown text true = p ++ js "`").
  { unfold autoFixMarkdown. fold p. cbn [negb].
    rewrite !odd_test, (even_of_odd_false _ H1), (even_of_odd_false _ H2), H3.
    reflexivity. }
  rewrite E. split; [reflexivity|]. split.
  - change (js "`") with [BACKTICK].
    rewrite last_line_snoc by discriminate.
    change [BACKTICK] with (js "`").
    rewrite count_backtick_closed, Nat.even_succ. exact H3.
  - change (p ++ js "`") with (p ++ BACKTICK :: []). unfold re_math.
    rewrite (count_other_closed (js "$$") [] p BACKTICK eq_refl)
      by discriminate.
    change (count_matches (lit (js "$$")) []) with 0.
    apply Nat.add_0_r.
Qed.

Lemma X2_inline_code_closed_witness :
  autoFixMarkdown (js "use `npm run") true = js "use `npm run`".
Proof.
  apply (proj1 (X2_inline_code_closed (js "use `npm run")
                  eq_refl eq_refl eq_refl)).
Defined.

(** X3. When the stage-1 output ends in [[label](url] with no []] in the
    label and no [)] in the url, and no earlier stage applies (even marker
    counts, no two adjacent asterisks that no asterisk follows), the repair
    appends one [)] and nothing else, and the result has no open link target
    left. *)
Theorem X3_link_closed (text pre label url : str) :
  let p := normalize text in
  p = pre ++ js "[" ++ label ++ js "](" ++ url ->
  forallb (not_char RBRACK) label = true ->
  forallb (not_char RPAREN) url = true ->
  Nat.even (count_matches re_fence p) = true ->
  Nat.even (count_matches re_math p) = true ->
  Nat.even (count_matches re_backtick (last (split LF p) [])) = true ->
  bold_open p = false ->
  autoFixMarkdown text true = p ++ js ")"
  /\ test re_link (autoFixMarkdown text true) = false.
Proof.
  intros p Hp Hl Hu H1 H2 H3 Hb.
  assert (Hlink : test re_link p = true).
  { rewrite Hp. apply test_suffix, link_match_here; assumption. }
  assert (E : autoFixMarkdown text true = p ++ js ")").
  { unfold autoFixMarkdown. fold p. cbn [negb].
    rewrite !odd_test, (even_of_odd_false _ H1), (even_of_odd_false _ H2),
      (even_of_odd_false _ H3), test_bold_open, Hb, Hlink. reflexivity. }
  rewrite E. split; [reflexivity|]. apply link_test_closed.
Qed.

Lemma X3_link_closed_witness :
  autoFixMarkdown (js "see [label](http://example.com") true
  = js "see [label](http://example.com)".
Proof.
  apply (proj1 (X3_link_closed (js "see [label](http://example.com")
                  (js "see ") (js "label") (js "http://example.com")
                  eq_refl eq_refl eq_refl eq_refl eq_refl eq_refl eq_refl)).
Defined.

(** X4. The bold pattern matches exactly the texts that hold two adjacent
    asterisks with no asterisk after them, wherever they stand and whether
    they open a span or close one. *)
Theorem X4_bold_pattern (s : str) :
  test re_bold s = true
  <-> exists pre body, s = pre ++ js "**" ++ body /\ no_star body = true.
Proof.
  rewrite test_bold_open. split.
  - apply bold_open_inv.
  - intros (pre & body & -> & Hb). apply bold_open_intro, Hb.
Qed.

Lemma X4_bold_pattern_witness :
  test re_bold (js "a **b** c") = true
  /\ exists pre body, js "**x" = pre ++ js "**" ++ body
                      /\ no_star body = true.
Proof.
  split.
  - apply (proj2 (X4_bold_pattern (js "a **b** c"))).
    exists (js "a **b"), (js " c"). split; reflexivity.
  - apply (proj1 (X4_bold_pattern (js "**x"))). reflexivity.
Defined.

(** No stage of the repair finds anything to close in a text without
    markers. *)
Lemma plain_text_stages (p : str) :
  forallb (not_char BACKTICK) p = true ->
  forallb (not_char DOLLAR) p = true ->
  forallb (not_char STAR) p = true ->
  forallb (not_char LBRACK) p = true ->
  count_matches re_fence p = 0 /\ count_matches re_math p = 0
  /\ count_matches re_backtick (last (split LF p) []) = 0
  /\ test re_bold p = false /\ test re_link p = false.
Proof.
  intros Hq Hd Hs Hl. unfold re_fence, re_math, re_backtick.
  change (js "```") with (BACKTICK :: js "``").
  change (js "$$") with (DOLLAR :: js "$").
  change (js "`") with (BACKTICK :: []).
  rewrite !count_absent;
    [|apply last_line_forallb; exact Hq | exact Hd | exact Hq].
  rewrite test_bold_open, (bold_open_no_star p Hs).
  rewrite (link_test_no_bracket p Hl). auto.
Qed.

(** X5. A text without backtick, dollar sign, asterisk and opening square
    bracket, and with fewer than six exclamation marks, is returned as it
    is, with the repair enabled or not. *)
Theorem X5_plain_text_unchanged (text : str) (enabled : bool) :
  forallb (not_char BACKTICK) text = true ->
  forallb (not_char DOLLAR) text = true ->
  forallb (not_char STAR) text = true ->
  forallb (not_char LBRACK) text = true ->
  bangs text < 6 ->
  autoFixMarkdown text enabled = text.
Proof.
  intros Hq Hd Hs Hl Hb. unfold autoFixMarkdown.
  rewrite (normalize_few_bangs text Hb).
  destruct enabled; [cbn [negb]|reflexivity].
  destruct (plain_text_stages text Hq Hd Hs Hl) as (E1 & E2 & E3 & E4 & E5).
  rewrite E1, E2, E3, E4, E5. reflexivity.
Qed.

Lemma X5_plain_text_unchanged_witness :
  autoFixMarkdown (js "Hello, world! (really)") true
  = js "Hello, world! (really)".
Proof.
  apply X5_plain_text_unchanged; try reflexivity. vm_compute. lia.
Defined.

End RepairExtras.

(** ** More on the streaming hook *)

Module StreamExtras.

Import SmartStream StreamFacts.

Lemma synced_mount (p : props) : synced (mount p).
Proof.
  unfold synced, mount, effect_target, effect_streaming. simpl.
  replace (len (fullText p) <? 0)%Z with false
    by (symmetry; apply Z.ltb_ge; unfold len; lia).
  simpl. destruct (isStreaming p); simpl; symmetry.
  - apply slice_prefix. unfold len. lia.
  - apply slice_all.
Qed.

Lemma str_eqb_refl (a : str) : str_eqb a a = true.
Proof. apply str_eqb_eq. reflexivity. Qed.

(** A render that keeps the target and the streaming flag runs no effect
    that writes. *)
Lemma render_same (p : props) (h : hook) :
  fullText p = fullText (args h) -> isStreaming p = isStreaming (args h) ->
  render p h = {| args := p; displayBuffer := displayBuffer h;
                  fullTextRef := fullTextRef h; indexRef := indexRef h |}.
Proof.
  intros Ht Hs. unfold render. rewrite Ht, Hs, str_eqb_refl, eqb_reflx.
  reflexivity.
Qed.

(** X6. From a reachable state whose buffer is the prefix at the cursor,
    as many ticks as there are code units left, whatever their draws, reveal
    the whole target; from mount, as many ticks as the target is long. *)
Theorem X6_ticks_reveal_target (h : hook) (rs : list Q) :
  reachable h -> synced h ->
  (len (fullText (args h)) - indexRef h <= Z.of_nat (length rs))%Z ->
  displayBuffer (run (map Tick rs) h) = fullText (args h)
  /\ indexRef (run (map Tick rs) h) = len (fullText (args h)).
Proof.
  intros Hr Hs Hn. pose proof (reachable_consistent h Hr) as Hc.
  destruct Hc as [H1 H2 H3 H4 H5]. rewrite <- H1 in *.
  destruct (ticks_reveal_all rs h (reachable_consistent h Hr) Hs Hn)
    as [Hi Hd].
  auto.
Qed.

Lemma X6_ticks_reveal_target_witness :
  displayBuffer
    (run (map Tick [0%Q; (1 # 2)%Q; (9 # 10)%Q; 0%Q; 0%Q])
       (mount (demo "hello" true 1 3))) = js "hello".
Proof.
  apply (proj1 (X6_ticks_reveal_target (mount (demo "hello" true 1 3))
                  [0%Q; (1 # 2)%Q; (9 # 10)%Q; 0%Q; 0%Q]
                  (reach_mount (demo "hello" true 1 3))
                  (synced_mount (demo "hello" true 1 3))
                  ltac:(vm_compute; discriminate))).
Defined.

(** X7.  The speed of a tick lies between the bounds.  For every number
    [x] that [Math.random()] can return and safe integer bounds whose
    difference binary64 holds exactly, the expression of line 98 evaluates
    in binary64 to an integer, which lies between the bounds when they are
    in order and between [maxSpeed + 1] and [minSpeed] when they are
    inverted.  [draw_speed] is that integer for the draw that [r] names.
    With the bounds the two sliders allow (1 to 5 and 2 to 10) the speed is
    between 1 and 10, so the step of a tick is the speed itself. *)
Theorem X7_speed_in_range (x : number) (r : Q)
    (minSpeed maxSpeed : safe_int) :
  is_draw x = true ->
  (Z.abs (maxSpeed - minSpeed) < 2 ^ 53 - 1)%Z ->
  (exists speed,
     to_int (speed_number x (of_int minSpeed) (of_int maxSpeed)) = Some speed
     /\ ((minSpeed <= maxSpeed)%Z -> (minSpeed <= speed <= maxSpeed)%Z)
     /\ ((maxSpeed < minSpeed)%Z -> (maxSpeed + 1 <= speed <= minSpeed)%Z))
  /\ to_int (speed_number (random_of r) (of_int minSpeed) (of_int maxSpeed))
     = Some (draw_speed r minSpeed maxSpeed)
  /\ ((minSpeed <= maxSpeed)%Z ->
      (minSpeed <= draw_speed r minSpeed maxSpeed <= maxSpeed)%Z)
  /\ ((maxSpeed < minSpeed)%Z ->
      (maxSpeed + 1 <= draw_speed r minSpeed maxSpeed <= minSpeed)%Z)
  /\ ((1 <= minSpeed <= 5)%Z -> (2 <= maxSpeed <= 10)%Z ->
      (1 <= draw_speed r minSpeed maxSpeed <= 10)%Z
      /\ charsToAdd r minSpeed maxSpeed = draw_speed r minSpeed maxSpeed).
Proof.
  intros Hx Hk.
  split; [exact (NumberFacts.speed_number_range x minSpeed maxSpeed Hx Hk) |].
  destruct (NumberFacts.speed_number_range (random_of r) minSpeed maxSpeed
              (NumberFacts.random_of_draw r) Hk) as (speed & E & H1 & H2).
  assert (Ed : draw_speed r minSpeed maxSpeed = speed)
    by (unfold draw_speed; rewrite E; reflexivity).
  unfold charsToAdd. rewrite Ed.
  split; [exact E |]. split; [exact H1 |]. split; [exact H2 |].
  intros Hn Hm. lia.
Qed.

Lemma X7_speed_in_range_witness :
  is_draw (random_of (7 # 10)) = true
  /\ to_int (speed_number (random_of (7 # 10)) (of_int (safe 1))
               (of_int (safe 10))) = Some 8%Z
  /\ (1 <= draw_speed (7 # 10) (safe 1) (safe 10) <= 10)%Z
  /\ charsToAdd (7 # 10) (safe 1) (safe 10)
     = draw_speed (7 # 10) (safe 1) (safe 10).
Proof.
  assert (Hx : is_draw (random_of (7 # 10)) = true)
    by (vm_compute; reflexivity).
  assert (Hk : (Z.abs (safe 10 - safe 1) < 2 ^ 53 - 1)%Z)
    by (vm_compute; reflexivity).
  destruct (X7_speed_in_range (random_of (7 # 10)) (7 # 10) (safe 1)
              (safe 10) Hx Hk) as (_ & E & _ & _ & Hs).
  split; [exact Hx |].
  split; [rewrite E; vm_compute; reflexivity |].
  apply Hs; simpl; lia.
Defined.

(** X8. A render that changes nothing but the speed bounds leaves the
    cursor, the display buffer and the target as they were; the next tick
    steps by the new bounds. *)
Theorem X8_speed_change_keeps_cursor (h : hook) (p : props) (r : Q) :
  fullText p = fullText (args h) -> isStreaming p = isStreaming (args h) ->
  let h' := render p h in
  indexRef h' = indexRef h /\ displayBuffer h' = displayBuffer h
  /\ fullTextRef h' = fullTextRef h
  /\ ((indexRef h < len (fullTextRef h))%Z ->
      indexRef (tick r h')
      = Z.min (indexRef h + charsToAdd r (minSpeed p) (maxSpeed p))
              (len (fullTextRef h))).
Proof.
  intros Ht Hs h'. subst h'. rewrite (render_same p h Ht Hs). simpl.
  repeat split. intros Hlt. unfold tick. simpl.
  apply Z.ltb_lt in Hlt. rewrite Hlt. reflexivity.
Qed.

Lemma X8_speed_change_keeps_cursor_witness :
  let h := tick (1 # 2) (mount (demo "hello world" true 1 3)) in
  indexRef (render (demo "hello world" true 4 4) h) = 2%Z
  /\ indexRef (tick 0 (render (demo "hello world" true 4 4) h)) = 6%Z.
Proof.
  intros h.
  destruct (X8_speed_change_keeps_cursor h (demo "hello world" true 4 4) 0
              eq_refl eq_refl) as (H1 & _ & _ & H2).
  split; [rewrite H1; reflexivity|].
  rewrite H2; [reflexivity | vm_compute; reflexivity].
Defined.

(** X9. Once the whole target is displayed, no render that keeps the target
    hides any of it, whatever it does to the streaming flag and the speed
    bounds, and no tick after it does: switching streaming back on does not
    start the reveal again. *)
Theorem X9_reveal_is_final (h : hook) (p : props) (rs : list Q) :
  reachable h -> displayBuffer h = fullText (args h) ->
  fullText p = fullText (args h) ->
  displayBuffer (run (map Tick rs) (render p h)) = fullText p
  /\ indexRef (run (map Tick rs) (render p h)) = len (fullText p).
Proof.
  intros Hr Hd Ht. destruct (reachable_consistent h Hr) as [H1 H2 H3 H4 H5].
  assert (E : displayBuffer (render p h) = fullText p
              /\ indexRef (render p h) = len (fullText p)
              /\ fullTextRef (render p h) = fullText p).
  { unfold render. rewrite Ht, str_eqb_refl. simpl. rewrite orb_false_r.
    destruct (Bool.eqb (isStreaming p) (isStreaming (args h))); simpl.
    - rewrite <- H4, Hd. auto.
    - unfold effect_streaming. simpl.
      destruct (isStreaming p); simpl; rewrite ?H1; auto.
      rewrite <- H4, Hd. auto. }
  destruct E as (E1 & E2 & E3).
  rewrite ticks_idle by (rewrite E2, E3; lia). auto.
Qed.

Lemma X9_reveal_is_final_witness :
  let h := mount (demo "hello" false 1 3) in
  displayBuffer (run (map Tick [(1 # 2)%Q]) (render (demo "hello" true 2 5) h))
  = js "hello".
Proof.
  intros h.
  apply (proj1 (X9_reveal_is_final h (demo "hello" true 2 5) [(1 # 2)%Q]
                  (reach_mount (demo "hello" false 1 3)) eq_refl eq_refl)).
Defined.

(** X10. In a reachable state whose buffer is the prefix at the cursor, a
    tick only appends to the display buffer: the new buffer is the old one
    followed by the code units of the target between the old cursor and the
    new one. *)
Theorem X10_tick_appends (h : hook) (r : Q) :
  reachable h -> synced h ->
  let T := fullText (args h) in
  let c := indexRef h in
  let c' := indexRef (tick r h) in
  displayBuffer (tick r h)
  = displayBuffer h
    ++ firstn (Z.to_nat (c' - c)) (skipn (Z.to_nat c) T).
Proof.
  intros Hr Hs T c c'.
  destruct (reachable_consistent h Hr) as [H1 H2 H3 H4 H5].
  fold T c in H1, H2, H3, H4.
  assert (Hs' : synced (tick r h))
    by (apply tick_synced; [apply reachable_consistent, Hr | exact Hs]).
  destruct (consistent_tick r h (reachable_consistent h Hr))
    as [G1 G2 G3 G4 G5].
  assert (Ea : args (tick r h) = args h)
    by (unfold tick; destruct (_ <? _)%Z; reflexivity).
  rewrite Ea in G3. fold T c' in G2, G3.
  assert (Hmono : (c <= c')%Z).
  { subst c c'. unfold tick. destruct (_ <? _)%Z eqn:E; simpl; [|lia].
    apply Z.ltb_lt in E.
    pose proof (charsToAdd_pos r (minSpeed (args h)) (maxSpeed (args h))).
    lia. }
  unfold synced in Hs, Hs'. rewrite Ea in Hs'. fold T c c' in Hs, Hs'.
  rewrite Hs, Hs', !slice_prefix by lia.
  rewrite <- (firstn_skipn (Z.to_nat c) T) at 1.
  rewrite firstn_app, length_firstn.
  unfold len in H3. rewrite Nat.min_l by lia.
  rewrite firstn_firstn, Nat.min_r by lia.
  replace (Z.to_nat c' - Z.to_nat c) with (Z.to_nat (c' - c)) by lia.
  reflexivity.
Qed.

Lemma X10_tick_appends_witness :
  let h := tick (1 # 2) (mount (demo "hello world" true 1 3)) in
  displayBuffer (tick (9 # 10) h) = js "he" ++ js "llo".
Proof.
  intros h.
  assert (Hr : reachable h) by apply (reach_step (Tick (1 # 2))), reach_mount.
  assert (Hs : synced h) by (unfold synced; vm_compute; reflexivity).
  rewrite (X10_tick_appends h (9 # 10) Hr Hs). vm_compute. reflexivity.
Defined.



End StreamExtras.

(** ** Directive nodes and their renderers *)

Module DirectiveExtras.

Import SmartStream Directives Components.

Lemma node_induction (P : node -> Prop) :
  (forall l children, Forall P children -> P (Node l children)) ->
  forall n, P n.
Proof.
  intros H. fix IH 1. intros [l children]. apply H.
  revert children. fix IHc 1. intros [|c children]; constructor.
  - apply IH.
  - apply IHc.
Qed.

Lemma str_eqb_same (a : str) : str_eqb a a = true.
Proof. apply str_eqb_eq. reflexivity. Qed.

Lemma str_eqb_diff (a b : str) : a <> b -> str_eqb a b = false.
Proof.
  intros H. destruct (str_eqb a b) eqn:E; [|reflexivity].
  apply str_eqb_eq in E. contradiction.
Qed.

Lemma get_set_same (V : Type) (k : str) (v : V) (o : obj V) :
  get k (set k v o) = Some v.
Proof.
  induction o as [|[k' v'] o IH]; simpl.
  - rewrite str_eqb_same. reflexivity.
  - destruct (str_eqb k k') eqn:E; simpl; rewrite E; auto.
Qed.

Lemma get_set_other (V : Type) (k k' : str) (v : V) (o : obj V) :
  k' <> k -> get k' (set k v o) = get k' o.
Proof.
  intros Hne. induction o as [|[k0 v0] o IH]; simpl.
  - rewrite (str_eqb_diff k' k Hne). reflexivity.
  - destruct (str_eqb k k0) eqn:E; simpl.
    + apply str_eqb_eq in E. subst k0.
      rewrite (str_eqb_diff k' k Hne). reflexivity.
    + destruct (str_eqb k' k0); auto.
Qed.

Lemma set_present (V : Type) (k : str) (v : V) (o : obj V) :
  get k o = Some v -> set k v o = o.
Proof.
  induction o as [|[k' v'] o IH]; simpl; [discriminate|].
  destruct (str_eqb k k') eqn:E.
  - intros [= ->]. reflexivity.
  - intros H. rewrite (IH H). reflexivity.
Qed.

Lemma visitor_type (l : label) : type (visitor l) = type l.
Proof. unfold visitor. destruct (is_directive (type l)); reflexivity. Qed.

Lemma visitor_twice (l : label) : visitor (visitor l) = visitor l.
Proof.
  unfold visitor at 1. rewrite visitor_type.
  destruct (is_directive (type l)) eqn:E; [|reflexivity].
  unfold visitor. rewrite E. cbn [type name attributes data].
  f_equal. f_equal.
  rewrite (set_present _ (js "hName") _ _); [apply set_present|].
  - apply get_set_same.
  - rewrite get_set_other by discriminate. apply get_set_same.
Qed.

(** X12. On a node whose type is one of the three directive types the
    visitor keeps type, name and attributes, and leaves in [data]: [hName],
    which is [span] for a text directive and [div] otherwise; [hProperties],
    which holds the name of the directive under [data-directive-name] and
    every other attribute with its value; and every other entry that [data]
    had. *)
Theorem X12_directive_label (l : label) :
  is_directive (type l) = true ->
  type (visitor l) = type l /\ name (visitor l) = name l
  /\ attributes (visitor l) = attributes l
  /\ exists d hp,
       data (visitor l) = Some d
       /\ get (js "hName") d
          = Some (DString (if str_eqb (type l) (js "textDirective")
                           then js "span" else js "div"))
       /\ get (js "hProperties") d = Some (DObject hp)
       /\ get (js "data-directive-name") hp = Some (name l)
       /\ (forall k, k <> js "data-directive-name" ->
                     get k hp = get k (spread (attributes l)))
       /\ (forall k, k <> js "hName" -> k <> js "hProperties" ->
                     get k d = get k (match data l with
                                      | Some d0 => d0
                                      | None => []
                                      end)).
Proof.
  intros Hd. unfold visitor. rewrite Hd. cbn [type name attributes data].
  repeat split. eexists. eexists. split; [reflexivity|].
  split; [|split; [|split; [|split]]].
  - rewrite get_set_other by discriminate. apply get_set_same.
  - apply get_set_same.
  - apply get_set_same.
  - intros k Hk. apply get_set_other, Hk.
  - intros k H1 H2. rewrite !get_set_other by assumption. reflexivity.
Qed.

Lemma X12_directive_label_witness :
  let l := {| type := js "leafDirective"; name := VString (js "callout");
              attributes := Some [(js "type", VString (js "warning"))];
              data := None |} in
  data (visitor l)
  = Some [(js "hName", DString (js "div"));
          (js "hProperties",
           DObject [(js "type", VString (js "warning"));
                    (js "data-directive-name", VString (js "callout"))])].
Proof.
  intros l.
  destruct (X12_directive_label l eq_refl) as (_ & _ & _ & d & hp & Hdata & _).
  reflexivity.
Defined.

Lemma visitor_without_data (l : label) :
  without_data (visitor l) = without_data l.
Proof. unfold visitor. destruct (is_directive (type l)); reflexivity. Qed.

Lemma visitor_marks (l : label) :
  is_directive (type l) = true ->
  exists d hp,
    data (visitor l) = Some d
    /\ get (js "hName") d
       = Some (DString (if str_eqb (type l) (js "textDirective")
                        then js "span" else js "div"))
    /\ get (js "hProperties") d = Some (DObject hp)
    /\ get (js "data-directive-name") hp = Some (name l).
Proof.
  intros Hd. unfold visitor. rewrite Hd. cbn [data].
  eexists. eexists. split; [reflexivity|]. split; [|split].
  - rewrite get_set_other by discriminate. apply get_set_same.
  - apply get_set_same.
  - apply get_set_same.
Qed.

Lemma plugin_labels (tree : node) :
  labels (remarkPluginDirectives tree) = map visitor (labels tree).
Proof.
  unfold remarkPluginDirectives.
  induction tree as [l children IH] using node_induction.
  cbn [visit labels map]. f_equal.
  induction IH as [|c children Hc _ IHc]; [reflexivity|].
  cbn [map flat_map]. rewrite map_app, Hc, IHc. reflexivity.
Qed.

(** X13. The plugin changes nothing but [data]: with [data] erased from
    every node, the result and the tree are the same tree, so the plugin
    keeps the shape and, at every position, type, name and attributes.  Every
    node of the result of a directive type carries [hName] and
    [hProperties] with the name of the directive, and a tree without nodes
    of a directive type is returned as it is. *)
Theorem X13_plugin_walk (tree : node) :
  erase_data (remarkPluginDirectives tree) = erase_data tree
  /\ (forall l, In l (labels (remarkPluginDirectives tree)) ->
        is_directive (type l) = true ->
        exists d hp,
          data l = Some d
          /\ get (js "hName") d
             = Some (DString (if str_eqb (type l) (js "textDirective")
                              then js "span" else js "div"))
          /\ get (js "hProperties") d = Some (DObject hp)
          /\ get (js "data-directive-name") hp = Some (name l))
  /\ (forallb (fun l => negb (is_directive (type l))) (labels tree) = true ->
      remarkPluginDirectives tree = tree).
Proof.
  split; [|split].
  - unfold remarkPluginDirectives.
    induction tree as [l children IH] using node_induction.
    cbn [visit erase_data]. rewrite visitor_without_data. f_equal.
    rewrite map_map. induction IH as [|c children Hc _ IHc]; [reflexivity|].
    cbn [map]. rewrite Hc, IHc. reflexivity.
  - intros l Hin Hd. rewrite plugin_labels in Hin.
    apply in_map_iff in Hin. destruct Hin as (l0 & <- & _).
    rewrite visitor_type in Hd.
    destruct (visitor_marks l0 Hd) as (d & hp & H1 & H2 & H3 & H4).
    exists d, hp. rewrite visitor_type.
    assert (Hn : name (visitor l0) = name l0)
      by (unfold visitor; destruct (is_directive (type l0)); reflexivity).
    rewrite Hn. auto.
  - unfold remarkPluginDirectives.
    induction tree as [l children IH] using node_induction.
    cbn [labels forallb visit]. intros H.
    apply andb_true_iff in H. destruct H as [Hl Hc].
    unfold visitor at 1. apply negb_true_iff in Hl. rewrite Hl. f_equal.
    induction IH as [|c children Hc' _ IHc]; [reflexivity|].
    cbn [flat_map] in Hc. rewrite forallb_app in Hc.
    apply andb_true_iff in Hc. destruct Hc as [Hc1 Hc2].
    cbn [map]. rewrite (Hc' Hc1), (IHc Hc2). reflexivity.
Qed.

Lemma X13_plugin_walk_witness :
  let plain (t : string) := {| type := js t; name := VUndefined;
                               attributes := None; data := None |} in
  let spoiler := {| type := js "textDirective"; name := VString (js "spoiler");
                    attributes := Some []; data := None |} in
  let tree := Node (plain "root"%string)
                [Node (plain "paragraph"%string)
                   [Node (plain "text"%string) []; Node spoiler []]] in
  (exists d hp,
     data (visitor spoiler) = Some d
     /\ get (js "hName") d = Some (DString (js "span"))
     /\ get (js "hProperties") d = Some (DObject hp)
     /\ get (js "data-directive-name") hp = Some (VString (js "spoiler")))
  /\ remarkPluginDirectives
       (Node (plain "root"%string) [Node (plain "text"%string) []])
     = Node (plain "root"%string) [Node (plain "text"%string) []].
Proof.
  intros plain spoiler tree.
  destruct (X13_plugin_walk tree) as (_ & Hmark & _).
  destruct (X13_plugin_walk
              (Node (plain "root"%string) [Node (plain "text"%string) []]))
    as (_ & _ & Hsame).
  split.
  - apply (Hmark (visitor spoiler)); [|reflexivity].
    right. right. right. left. reflexivity.
  - apply Hsame. reflexivity.
Defined.

(** X14. Running the plugin on its own result changes nothing. *)
Theorem X14_plugin_idempotent (tree : node) :
  remarkPluginDirectives (remarkPluginDirectives tree)
  = remarkPluginDirectives tree.
Proof.
  unfold remarkPluginDirectives.
  induction tree as [l children IH] using node_induction.
  cbn [visit]. rewrite visitor_twice. f_equal.
  rewrite map_map. induction IH as [|c children Hc _ IHc]; [reflexivity|].
  cbn [map]. rewrite Hc, IHc. reflexivity.
Qed.

(** *** The [code] renderer *)

Lemma final_newline_here (s : str) :
  match_here re_final_newline s
  = match s with
    | [c] => if (c =? LF)%N then Some (1, []) else None
    | _ => None
    end.
Proof.
  unfold match_here, re_final_newline. cbn [exec].
  destruct s as [|c [|d s]]; try reflexivity.
  - destruct (c =? LF)%N; reflexivity.
  - destruct (c =? LF)%N; reflexivity.
Qed.

Lemma replace_first_unfold (r : regex) (tmpl : list piece) (s : str) :
  replace_first r tmpl s
  = match match_here r s with
    | Some (n, caps) => expand tmpl caps ++ skipn n s
    | None =>
        match s with
        | [] => []
        | c :: s' => c :: replace_first r tmpl s'
        end
    end.
Proof. destruct s; reflexivity. Qed.

Lemma strip_final_newline (s : str) :
  replace_first re_final_newline [] (s ++ [LF]) = s.
Proof.
  induction s as [|c s IH].
  - reflexivity.
  - change ((c :: s) ++ [LF]) with (c :: (s ++ [LF])).
    rewrite replace_first_unfold, final_newline_here.
    destruct (s ++ [LF]) as [|d t] eqn:E.
    + destruct s; discriminate E.
    + rewrite IH. reflexivity.
Qed.

Lemma keep_without_final_newline (s : str) :
  (forall t, s <> t ++ [LF]) -> replace_first re_final_newline [] s = s.
Proof.
  induction s as [|c s IH]; intros H; [reflexivity|].
  rewrite replace_first_unfold, final_newline_here.
  destruct s as [|d s].
  - destruct (N.eqb_spec c LF) as [-> | _]; [|reflexivity].
    exfalso. apply (H []). reflexivity.
  - rewrite IH; [reflexivity|]. intros t Ht. apply (H (c :: t)).
    rewrite Ht. reflexivity.
Qed.

Lemma star_greedy_stop (A : Type) (p : cu -> bool) (k : str -> option A)
    (a b : str) (res : A) :
  forallb p a = true ->
  match b with [] => True | c :: _ => p c = false end ->
  k b = Some res ->
  star_greedy p k (a ++ b) = Some res.
Proof.
  intros Ha Hb Hk. apply RepairStages.star_greedy_prefix; [exact Ha|].
  destruct b as [|c b]; simpl; [exact Hk|]. rewrite Hb. exact Hk.
Qed.

Lemma language_search (lang rest : str) :
  lang <> [] -> forallb is_word lang = true ->
  match rest with [] => True | c :: _ => is_word c = false end ->
  search re_language (js "language-" ++ lang ++ rest)
  = Some [js "language-" ++ lang; lang].
Proof.
  intros Hne Hw Hr. destruct lang as [|c lang]; [congruence|].
  simpl in Hw. apply andb_true_iff in Hw. destruct Hw as [Hc Hw].
  assert (Hm : match_here re_language (js "language-" ++ (c :: lang) ++ rest)
               = Some (9 + S (length lang), [c :: lang])).
  { unfold match_here, re_language. cbn [exec].
    rewrite RepairFacts.exec_lit, RepairFacts.strip_prefix_app.
    change ((c :: lang) ++ rest) with (c :: (lang ++ rest)).
    cbv beta iota. rewrite Hc.
    rewrite star_greedy_stop
      with (res := (rest, [] ++ [firstn (length (c :: (lang ++ rest))
                                          - length rest)
                                   (c :: (lang ++ rest))]));
      [|exact Hw|exact Hr|reflexivity].
    rewrite !length_app. cbn [app length]. rewrite !length_app.
    replace (S (length lang + length rest) - length rest)
      with (S (length lang)) by lia.
    change (length (js "language-")) with 9.
    replace (9 + S (length lang + length rest) - length rest)
      with (9 + S (length lang)) by lia.
    cbn [firstn]. rewrite firstn_app, firstn_all, Nat.sub_diag.
    cbn [firstn]. rewrite app_nil_r. reflexivity. }
  destruct (js "language-" ++ (c :: lang) ++ rest) as [|x s] eqn:E;
    [discriminate E|].
  cbn [search]. rewrite Hm, <- E.
  change (js "language-" ++ (c :: lang) ++ rest)
    with (js "language-" ++ ((c :: lang) ++ rest)).
  rewrite app_assoc.
  replace (9 + S (length lang)) with (length (js "language-" ++ c :: lang))
    by (rewrite length_app; reflexivity).
  rewrite firstn_app, firstn_all, Nat.sub_diag. cbn [firstn].
  rewrite app_nil_r. reflexivity.
Qed.

(** X15. For a code block whose class is [language-] followed by a name of
    word characters, the [code] renderer highlights in that language the
    children without their final line feed: exactly one line feed is removed
    from the end, and children that do not end in one are kept whole.  A
    block without class falls back to the children as they are, and inline
    code is never highlighted. *)
Theorem X15_code_renderer (lang rest children : str) :
  lang <> [] -> forallb is_word lang = true ->
  match rest with [] => True | c :: _ => is_word c = false end ->
  code false (Some (js "language-" ++ lang ++ rest)) (children ++ [LF])
  = SyntaxHighlighter lang children
  /\ ((forall t, children <> t ++ [LF]) ->
      code false (Some (js "language-" ++ lang ++ rest)) children
      = SyntaxHighlighter lang children)
  /\ code false None children = CodeBlockFallback children
  /\ (forall cls, code true cls children = InlineCode cls children).
Proof.
  intros Hne Hw Hr. unfold code.
  rewrite (language_search lang rest Hne Hw Hr). cbn [negb nth].
  split; [rewrite strip_final_newline; reflexivity|].
  split; [intros H; rewrite keep_without_final_newline by exact H;
          reflexivity|].
  split; [reflexivity|]. intros cls. reflexivity.
Qed.

Lemma X15_code_renderer_witness :
  code false (Some (js "language-js")) (js "let x = 1" ++ [LF; LF])
  = SyntaxHighlighter (js "js") (js "let x = 1" ++ [LF]).
Proof.
  apply (proj1 (X15_code_renderer (js "js") [] (js "let x = 1" ++ [LF])
                  ltac:(discriminate) eq_refl I)).
Defined.

(** *** From a directive node to its element *)

Lemma hProperties_directive (l : label) :
  is_directive (type l) = true ->
  hProperties_of l
  = set (js "data-directive-name") (name l) (spread (attributes l)).
Proof.
  intros Hd. unfold hProperties_of, visitor. rewrite Hd. cbn [data].
  rewrite get_set_same. reflexivity.
Qed.

(** X16. Fed with the properties that the plugin leaves on a directive node,
    the renderers give a text directive named [spoiler] the class [spoiler],
    a text directive named [badge] the class [badge badge-T], and a
    directive named [callout] in [div] the class [callout callout-T], where
    [T] is the attribute [type] of the directive when that is a string that
    is not empty, and [default] or [info] otherwise. *)
Theorem X16_directive_classes (l : label) (cls : val) :
  is_directive (type l) = true ->
  (name l = VString (js "spoiler") ->
   className (span cls (hProperties_of l)) = VString (js "spoiler"))
  /\ (name l = VString (js "badge") ->
      className (span cls (hProperties_of l))
      = VString (js "badge badge-"
                 ++ or_default (get (js "type") (spread (attributes l)))
                      (js "default")))
  /\ (name l = VString (js "callout") ->
      className (div cls (hProperties_of l))
      = VString (js "callout callout-"
                 ++ or_default (get (js "type") (spread (attributes l)))
                      (js "info")))
  /\ (forall x d, or_default x d = d \/ or_default x d <> []).
Proof.
  intros Hd. rewrite (hProperties_directive l Hd).
  split; [|split; [|split]].
  - intros Hn. unfold span. rewrite get_set_same, Hn. reflexivity.
  - intros Hn. unfold span.
    rewrite get_set_same, (get_set_other _ _ (js "type")) by discriminate.
    rewrite Hn. reflexivity.
  - intros Hn. unfold div.
    rewrite get_set_same, (get_set_other _ _ (js "type")) by discriminate.
    rewrite Hn. reflexivity.
  - intros [[| |[|c s]]|] d; simpl; auto. right. discriminate.
Qed.

Lemma X16_directive_classes_witness :
  className
    (div VUndefined
       (hProperties_of
          {| type := js "containerDirective"; name := VString (js "callout");
             attributes := Some [(js "type", VString (js "warning"))];
             data := None |}))
  = VString (js "callout callout-warning").
Proof.
  apply (proj1 (proj2 (proj2
    (X16_directive_classes
       {| type := js "containerDirective"; name := VString (js "callout");
          attributes := Some [(js "type", VString (js "warning"))];
          data := None |} VUndefined eq_refl)))).
  reflexivity.
Defined.

End DirectiveExtras.

(** ** What [App] shows *)

Module AppExtras.

Import SmartStream StreamFacts App.



(** X17. The typing indicator is shown exactly while streaming is on and the
    cursor is short of the target.  With streaming off it is hidden and the
    text handed to the renderer is the repair of the whole target; and in a
    state whose buffer is the prefix at the cursor it is hidden exactly when
    the whole target is displayed. *)
Theorem X17_typing_indicator (h : hook) (enable : bool) :
  reachable h ->
  typing_indicator h
  = isStreaming (args h) && (indexRef h <? len (fullText (args h)))%Z
  /\ (isStreaming (args h) = false ->
      typing_indicator h = false
      /\ processedText h enable = autoFixMarkdown (fullText (args h)) enable)
  /\ (synced h ->
      (typing_indicator h = false <-> displayBuffer h = fullText (args h))).
Proof.
  intros Hr. destruct (reachable_consistent h Hr) as [H1 H2 H3 H4 H5].
  unfold typing_indicator, processedText. rewrite H4.
  split; [reflexivity|]. split.
  - intros Hs. rewrite Hs, (H5 Hs). auto.
  - intros Hsync. split.
    + intros Hi. destruct (isStreaming (args h)) eqn:Es; [|apply H5, eq_refl].
      simpl in Hi. apply Z.ltb_ge in Hi.
      assert (E : indexRef h = len (fullText (args h))) by lia.
      unfold synced in Hsync. rewrite Hsync, E. apply slice_all.
    + intros Hd. rewrite <- H4, Hd, Z.ltb_irrefl. apply andb_false_r.
Qed.

Lemma X17_typing_indicator_witness :
  typing_indicator (mount (demo "hello" false 1 3)) = false
  /\ typing_indicator
       (run (map Tick [(9 # 10)%Q; (9 # 10)%Q; (9 # 10)%Q]) (mount (demo "hello" true 1 3)))
     = false.
Proof.
  destruct (X17_typing_indicator (mount (demo "hello" false 1 3)) true
              (reach_mount (demo "hello" false 1 3))) as (_ & Hoff & _).
  destruct (X17_typing_indicator
              (run (map Tick [(9 # 10)%Q; (9 # 10)%Q; (9 # 10)%Q]) (mount (demo "hello" true 1 3)))
              true
              (reachable_run (map Tick [(9 # 10)%Q; (9 # 10)%Q; (9 # 10)%Q]) _
                 (reach_mount (demo "hello" true 1 3)))) as (_ & _ & Hall).
  split.
  - apply Hoff. reflexivity.
  - apply Hall.
    + unfold synced. vm_compute. reflexivity.
    + vm_compute. reflexivity.
Defined.



End AppExtras.
